(** * compas: dynamic relaxation, Laplacian smoothing, matrix helpers

    A shallow embedding of

      - [src/compas/numerical/algorithms/dr_numpy.py]  (module [DR]),
      - [src/compas/geometry/algorithms/smoothing.py]  (modules [Smooth]
        and [SmoothArea]),
      - [src/compas/geometry/transformations/helpers.py]  (module
        [Helpers]: the functions on homogeneous coordinates,
        [identity_matrix], [determinant] and [inverse]),

    and the properties of the specification checked against them,
    followed by further properties of the code.

    Numbers.  The arrays of [dr_numpy] have dtype [float]: IEEE binary64.
    The arithmetic the code uses is collected in the class [Arith]; its
    instance [float_arith] is Rocq's primitive binary64 and is the one the
    code runs on.  Properties that only depend on which rows are read and
    written are proved for every instance; properties of NaN and infinity
    are proved on [float_arith]; [R_arith] is the exact arithmetic of the
    reals, used where a law is meant up to rounding.

    Arrays.  A V-by-3 array is a list of triples, an E-by-1 array a list
    of numbers, a scipy sparse matrix a list of rows of (column, value)
    pairs.  The sums of a matrix product are taken from left to right over
    the stored entries, starting from zero.  The embedding covers
    well-shaped inputs (see [well_shaped]): numpy's broadcasting and shape
    errors are not modelled.  The matrices of [Helpers] are Python lists of
    lists: there an index out of range and a division by zero raise.

    Exceptions.  Arithmetic on arrays does not raise: numpy puts NaN and
    infinity.  What raises is modelled where it raises: the assertion on
    the callback; Python's arithmetic on the options (the conversion of an
    integer that no float holds, the division by zero in [Coeff], the
    power of a float that overflows); [range] of a [kmax] that is not an
    integer; [scipy.linalg.norm] of an array with a NaN or an infinity;
    [rk] with a number of stages it does not know.

    Effects.  The helper [rk] and its inner function [a] write the arrays
    [x] and [r] of the enclosing call: they run in a state and error monad
    over these two arrays.  A callback is an observer; its calls are
    recorded in the state of the loop.  The smoothing functions mutate the
    coordinate lists of the caller: these live in a heap. *)

From Stdlib Require Import ZArith List Bool Floats Reals Lia Lra.
From stdpp Require Import base list gmap strings.

Set Default Proof Using "Type".
Local Open Scope Z_scope.

(** ** Arithmetic of the array element type *)

Module Num.

Class Arith (F : Type) := {
  ofZ   : Z -> F;            (* int -> float conversion, also of literals *)
  fadd  : F -> F -> F;
  fsub  : F -> F -> F;
  fmul  : F -> F -> F;
  fdiv  : F -> F -> F;
  fsqrt : F -> F;
  flt   : F -> F -> bool;    (* <  *)
  feq   : F -> F -> bool;    (* == *)
  isnan : F -> bool;
  isinf : F -> bool
}.

(** binary64: the conversion of an integer rounds to nearest-even. *)
Definition Z2float (z : Z) : float :=
  SF2Prim (binary_normalize prec emax z 0 false).

#[export] Instance float_arith : Arith float := {|
  ofZ   := Z2float;
  fadd  := PrimFloat.add;
  fsub  := PrimFloat.sub;
  fmul  := PrimFloat.mul;
  fdiv  := PrimFloat.div;
  fsqrt := PrimFloat.sqrt;
  flt   := PrimFloat.ltb;
  feq   := PrimFloat.eqb;
  isnan := PrimFloat.is_nan;
  isinf := PrimFloat.is_infinity
|}.

(** Exact real arithmetic: no NaN, no infinity. *)
Definition Rltb (a b : R) : bool := if Rlt_dec a b then true else false.
Definition Reqb (a b : R) : bool := if Req_dec_T a b then true else false.

Definition R_arith : Arith R := {|
  ofZ   := IZR;
  fadd  := Rplus;
  fsub  := Rminus;
  fmul  := Rmult;
  fdiv  := Rdiv;
  fsqrt := R_sqrt.sqrt;
  flt   := Rltb;
  feq   := Reqb;
  isnan := fun _ => false;
  isinf := fun _ => false
|}.

Section Literals.
Context {F : Type} {Ar : Arith F}.

(** A decimal literal [n/d] with [n] and [d] exactly representable: the
    correctly rounded quotient is the value Python reads the literal as. *)
Definition lit (n d : Z) : F := fdiv (ofZ n) (ofZ d).

Definition f0 : F := ofZ 0.
Definition f1 : F := ofZ 1.
Definition f0_5 : F := lit 1 2.

(** [y ** 2] *)
Definition sq (y : F) : F := fmul y y.

(** [y[isinf(y)] = 0; y[isnan(y)] = 0] on one entry *)
Definition clean (y : F) : F :=
  let y1 := if isinf y then f0 else y in
  if isnan y1 then f0 else y1.

(** neither NaN nor infinite *)
Definition finite (y : F) : bool := negb (isnan y || isinf y).
End Literals.

End Num.
Import Num.

(** ** Exceptions *)

Module Py.
Inductive exn :=
| AssertionError | NotImplementedError | TypeError | ValueError
| OverflowError | KeyError | ZeroDivisionError | Exception.

Inductive result (A : Type) : Type :=
| Ok (val : A)
| Raise (e : exn).
Arguments Ok {A} val.
Arguments Raise {A} e.

(** one statement after another: an exception ends the sequence *)
Definition and_then {A B} (m : result A) (k : A -> result B) : result B :=
  match m with Ok val => k val | Raise e => Raise e end.
End Py.
Import Py.

(** ** Dense and sparse arrays *)

Module Arr.

(** A row of three coordinates, a V-by-3 array, an E-by-1 array, and a
    scipy.sparse matrix: a row is the list of its stored (column, value)
    pairs. *)
Abbreviation Vec3 F := (F * F * F)%type.
Abbreviation Mat3 F := (list (F * F * F)).
Abbreviation Col F := (list F).
Abbreviation Sparse F := (list (list (nat * F))).

Section Arrays.
Context {F : Type} {Ar : Arith F}.
Local Abbreviation vec3 := (Vec3 F).
Local Abbreviation mat3 := (Mat3 F).
Local Abbreviation col := (Col F).
Local Abbreviation sparse := (Sparse F).

Definition zero3 : vec3 := (f0, f0, f0).
Definition map3 (g : F -> F) (u : vec3) : vec3 :=
  let '(u0, u1, u2) := u in (g u0, g u1, g u2).
Definition zip3 (g : F -> F -> F) (u w : vec3) : vec3 :=
  let '(u0, u1, u2) := u in let '(w0, w1, w2) := w in (g u0 w0, g u1 w1, g u2 w2).
Definition add3 : vec3 -> vec3 -> vec3 := zip3 fadd.
Definition sub3 : vec3 -> vec3 -> vec3 := zip3 fsub.
Definition elems3 (u : vec3) : list F := let '(u0, u1, u2) := u in [u0; u1; u2].

(** [zeros((n, 3))], [ones((n, 1))] *)
Definition zeros (n : nat) : mat3 := replicate n zero3.
Definition ones (n : nat) : col := replicate n f1.

(** [m[i]] and [c[i]] *)
Definition row (m : mat3) (i : nat) : vec3 := default zero3 (m !! i).
Definition entry (c : col) (i : nat) : F := default f0 (c !! i).

(** [m[idx]]: the rows picked by an index list *)
Definition take_rows (idx : list nat) (m : mat3) : mat3 := map (row m) idx.

(** [m[idx] = vals]: row [idx[k]] of [m] becomes [vals[k]] *)
Fixpoint put_rows (idx : list nat) (vals : mat3) (m : mat3) : mat3 :=
  match idx, vals with
  | i :: idx', u :: vals' => put_rows idx' vals' (<[i := u]> m)
  | _, _ => m
  end.

(** elementwise arithmetic on V-by-3 arrays and with a scalar *)
Definition madd (m n : mat3) : mat3 := zip_with add3 m n.
Definition msub (m n : mat3) : mat3 := zip_with sub3 m n.
Definition mscale_l (t : F) (m : mat3) : mat3 := map (map3 (fmul t)) m.       (* t * m *)
Definition mscale_r (m : mat3) (t : F) : mat3 := map (map3 (fun e => fmul e t)) m. (* m * t *)
(** [m / c] with [c] a V-by-1 column broadcast along the rows *)
Definition mdiv_col (m : mat3) (c : col) : mat3 :=
  zip_with (fun u d => map3 (fun e => fdiv e d) u) m c.

(** Modelled from the spec: [normrow] of compas.numerical is not among
    the files embedded here; section 2 of the spec describes it as the row
    norms of an N-by-3 array, [l = ||u||] row-wise. *)
Definition norm3 (u : vec3) : F :=
  let '(u0, u1, u2) := u in fsqrt (fadd (fadd (sq u0) (sq u1)) (sq u2)).
Definition normrow (m : mat3) : col := map norm3 m.

(** [scipy.linalg.norm] of a dense array.  It reads its argument with
    [asarray_chkfinite], which raises ValueError when an entry is NaN or
    infinite; of an array that passes it returns the Frobenius norm. *)
Definition norm (m : mat3) : result F :=
  let entries := concat (map elems3 m) in
  if forallb finite entries
  then Ok (fsqrt (fold_left (fun acc e => fadd acc (sq e)) entries f0))
  else Raise ValueError.

(** sparse matrix times dense V-by-3 array, and times a column *)
Definition spmv3 (A : sparse) (m : mat3) : mat3 :=
  map (fun ro => fold_left (fun acc (ce : nat * F) =>
                   add3 acc (map3 (fmul (snd ce)) (row m (fst ce)))) ro zero3) A.
Definition spmv1 (A : sparse) (c : col) : col :=
  map (fun ro => fold_left (fun acc (ce : nat * F) =>
                   fadd acc (fmul (snd ce) (entry c (fst ce)))) ro f0) A.

(** sparse times sparse: the entries of a result row are accumulated by
    column, in the order in which the columns are first reached *)
Fixpoint accum (k : nat) (y : F) (acc : list (nat * F)) : list (nat * F) :=
  match acc with
  | [] => [(k, fadd f0 y)]
  | (k', s) :: acc' =>
      if Nat.eqb k k' then (k', fadd s y) :: acc' else (k', s) :: accum k y acc'
  end.
Definition row_times (ro : list (nat * F)) (B : sparse) : list (nat * F) :=
  fold_left (fun acc (ce : nat * F) =>
    fold_left (fun acc' (kb : nat * F) => accum (fst kb) (fmul (snd ce) (snd kb)) acc')
              (default [] (B !! fst ce)) acc) ro [].
Definition spmm (A B : sparse) : sparse := map (fun ro => row_times ro B) A.

(** [A.transpose()] of a matrix with [ncols] columns *)
Definition column (j : nat) (A : sparse) : list (nat * F) :=
  concat (imap (fun e ro =>
    map (fun ce : nat * F => (e, snd ce)) (filter (fun ce : nat * F => fst ce = j) ro)) A).
Definition transpose (ncols : nat) (A : sparse) : sparse :=
  map (fun j => column j A) (seq 0 ncols).

(** [A[:, cols]]: column [cols[k]] of [A] becomes column [k] *)
Definition pick (cols : list nat) (ro : list (nat * F)) : list (nat * F) :=
  concat (imap (fun k j =>
    map (fun ce : nat * F => (k, snd ce)) (filter (fun ce : nat * F => fst ce = j) ro)) cols).
Definition select_cols (cols : list nat) (A : sparse) : sparse := map (pick cols) A.

(** [A.data **= 2] *)
Definition square_data (A : sparse) : sparse :=
  map (map (fun ce : nat * F => (fst ce, sq (snd ce)))) A.

(** [diags([q], [0])] *)
Definition diags (c : col) : sparse := imap (fun e y => [(e, y)]) c.

(** Modelled from the spec: [connectivity_matrix] of compas.numerical is
    not among the files embedded here; section 4.1 of the spec: the signed
    incidence operator C (E x V) with C[e, i] = -1 and C[e, j] = +1 for
    edge e = (i, j). *)
Definition connectivity_matrix (edges : list (nat * nat)) : sparse :=
  map (fun ij : nat * nat => [(fst ij, ofZ (-1)); (snd ij, ofZ 1)]) edges.
End Arrays.
End Arr.
Import Arr.

(** ** dr_numpy *)

Module DR.

(** The [callback] argument: falsy (the default [None]), a truthy object
    that is not callable, or a callable, modelled as an observer whose calls
    are recorded. *)
Inductive callback_t := NoCallback | NotCallable | Observer.

Section Solver.
Context {F : Type} {Ar : Arith F}.
Local Abbreviation vec3 := (Vec3 F).
Local Abbreviation mat3 := (Mat3 F).
Local Abbreviation col := (Col F).
Local Abbreviation sparse := (Sparse F).

(** Values of keyword options: Python integers and Python floats *)
Inductive pyval := PyInt (z : Z) | PyFloat (y : F).

Local Notation "y <<- m ;; k" := (and_then m (fun y => k))
  (at level 100, m at next level, right associativity).

(** *** Arithmetic on the values of options

    An operation between a float and an integer converts the integer as
    [float] does: to the nearest binary64 number, and with OverflowError
    when that is out of range.  numpy does the same with an integer
    operand of an array of floats. *)
Definition to_float (w : pyval) : result F :=
  match w with
  | PyInt z => if isinf (ofZ z) then Raise OverflowError else Ok (ofZ z)
  | PyFloat y => Ok y
  end.

(** [w * k] and [k * w] for a float [k] *)
Definition mul_float (w : pyval) (k : F) : result F :=
  y <<- to_float w ;; Ok (fmul y k).
Definition float_mul (k : F) (w : pyval) : result F :=
  y <<- to_float w ;; Ok (fmul k y).

(** [w ** 2].  The square of an integer is an integer.  The power of a
    float raises OverflowError when the result of a finite base is out of
    range; otherwise it is taken as the correctly rounded square. *)
Definition pow2 (w : pyval) : result pyval :=
  match w with
  | PyInt z => Ok (PyInt (z * z))
  | PyFloat y =>
      if finite y && isinf (sq y) then Raise OverflowError else Ok (PyFloat (sq y))
  end.

(** [y / d] on two floats: Python raises on a zero divisor *)
Definition float_div (y d : F) : result F :=
  if feq d f0 then Raise ZeroDivisionError else Ok (fdiv y d).

(** [crit < tol] for a binary64 number [crit] *)
Definition less (crit : F) (tol : pyval) : result bool :=
  y <<- to_float tol ;; Ok (flt crit y).

(** [kwargs.get(key, dflt)] *)
Definition get (kwargs : gmap string pyval) (key : string) (dflt : pyval) : pyval :=
  default dflt (kwargs !! key).

(** The module-level table [K] *)
Definition K : list (list F) :=
  [ [ofZ 0];
    [f0_5; f0_5];
    [f0_5; ofZ 0; f0_5];
    [ofZ 1; ofZ 0; ofZ 0; ofZ 1] ].
Definition Kij (i j : nat) : F := default f0 (K !! i ≫= (.!! j)).

(** [class Coeff]: its attributes, and [__init__].  The numerator is
    computed before the denominator, and [c * 0.5] in each of them. *)
Record Coeff := { Coeff_c : pyval; Coeff_a : F; Coeff_b : F }.
Definition mkCoeff (c : pyval) : result Coeff :=
  half <<- mul_float c f0_5 ;;
  let num := fsub f1 half in
  half' <<- mul_float c f0_5 ;;
  let den := fadd f1 half' in
  ca <<- float_div num den ;;
  Ok {| Coeff_c := c; Coeff_a := ca; Coeff_b := fmul f0_5 (fadd f1 ca) |}.

(** *** The helper [rk] and its inner function [a]

    [a] writes the arrays [x] and [r] of the enclosing call; they are the
    state threaded through [rk]. *)
Definition Scratch : Type := mat3 * mat3.
Definition M (A : Type) : Type := Scratch -> result (A * Scratch).
Definition ret {A} (val : A) : M A := fun s => Ok (val, s).
Definition bind {A B} (m : M A) (k : A -> M B) : M B :=
  fun s => match m s with Ok (val, s') => k val s' | Raise e => Raise e end.
Definition raise {A} (e : exn) : M A := fun _ => Raise e.
Notation "y <- m ;; k" := (bind m (fun y => k))
  (at level 100, m at next level, right associativity).

(** What [a] captures from the iteration that calls [rk] *)
Record Env := {
  e_free : list nat;
  e_p    : mat3;
  e_D    : sparse;
  e_mass : col;
  e_cb   : F;
  e_dt   : F
}.

Definition a (env : Env) (x0 : mat3) (t : F) (v : mat3) : M mat3 :=
  fun '(x, r) =>
    let dx := mscale_r v t in
    let x := put_rows (e_free env)
               (madd (take_rows (e_free env) x0) (take_rows (e_free env) dx)) x in
    let r := put_rows (e_free env)
               (msub (take_rows (e_free env) (e_p env)) (spmv3 (e_D env) x)) r in
    Ok (mdiv_col (mscale_l (e_cb env) r) (e_mass env), (x, r)).

(** [def rk(x0, v0, steps=2)]; the only call passes [steps] *)
Definition rk (env : Env) (x0 v0 : mat3) (steps : Z) : M mat3 :=
  let dt := e_dt env in
  if steps =? 1 then
    a env x0 dt v0
  else if steps =? 2 then
    let B0 := ofZ 0 in
    let B1 := ofZ 1 in
    A0 <- a env x0 (fmul (Kij 0 0) dt) v0 ;;
    let K0 := mscale_l dt A0 in
    A1 <- a env x0 (fmul (Kij 1 0) dt) (madd v0 (mscale_l (Kij 1 1) K0)) ;;
    let K1 := mscale_l dt A1 in
    ret (madd (mscale_l B0 K0) (mscale_l B1 K1))
  else if steps =? 4 then
    let B0 := lit 1 6 in
    let B1 := lit 1 3 in
    let B2 := lit 1 3 in
    let B3 := lit 1 6 in
    A0 <- a env x0 (fmul (Kij 0 0) dt) v0 ;;
    let K0 := mscale_l dt A0 in
    A1 <- a env x0 (fmul (Kij 1 0) dt) (madd v0 (mscale_l (Kij 1 1) K0)) ;;
    let K1 := mscale_l dt A1 in
    A2 <- a env x0 (fmul (Kij 2 0) dt)
            (madd (madd v0 (mscale_l (Kij 2 1) K0)) (mscale_l (Kij 2 2) K1)) ;;
    let K2 := mscale_l dt A2 in
    A3 <- a env x0 (fmul (Kij 3 0) dt)
            (madd (madd (madd v0 (mscale_l (Kij 3 1) K0)) (mscale_l (Kij 3 2) K1))
                  (mscale_l (Kij 3 3) K2)) ;;
    let K3 := mscale_l dt A3 in
    ret (madd (madd (madd (mscale_l B0 K0) (mscale_l B1 K1)) (mscale_l B2 K2))
              (mscale_l B3 K3))
  else
    raise NotImplementedError.

(** *** The arguments and what is derived from them before the loop *)
Record Input := {
  vertices : mat3;
  edges    : list (nat * nat);
  fixed    : list nat;
  loads    : mat3;
  qpre     : col;
  fpre     : col;
  lpre     : col;
  linit    : col;
  E        : col;
  radius   : col;
  callback : callback_t;
  kwargs   : gmap string pyval
}.

(** The shapes the code expects: V-by-3 loads, E-by-1 edge arrays, edge
    ends in [0, V). *)
Definition well_shaped (inp : Input) : bool :=
  let nv := length (vertices inp) in
  let ne := length (edges inp) in
  Nat.eqb (length (loads inp)) nv
  && forallb (fun c : col => Nat.eqb (length c) ne)
       [qpre inp; fpre inp; lpre inp; linit inp; E inp; radius inp]
  && forallb (fun ij : nat * nat => Nat.ltb (fst ij) nv && Nat.ltb (snd ij) nv) (edges inp).

(** [free = list(set(range(num_v)) - set(fixed))], in increasing order *)
Definition free_of (num_v : nat) (fixed : list nat) : list nat :=
  filter (fun i => i ∉ fixed) (seq 0 num_v).

Record Config := {
  c_free  : list nat;
  c_p     : mat3;
  c_qpre  : col;
  c_fpre  : col;
  c_lpre  : col;
  c_linit : col;
  c_EA    : col;
  c_C     : sparse;
  c_Ct    : sparse;
  c_Cit   : sparse;
  c_Ct2   : sparse;
  c_dt    : pyval;
  c_tol1  : pyval;
  c_tol2  : pyval;
  c_ca    : F;
  c_cb    : F;
  c_callback : callback_t
}.

(** The live arrays of the loop, and the calls made to the callback *)
Record State := {
  x : mat3;
  v : mat3;
  r : mat3;
  q : col;
  f : col;
  l : col;
  trace : list (nat * mat3 * F * F)
}.

(** [A = 3.14159 * radius ** 2] and [EA = E * A] *)
Definition EA_of (inp : Input) : col :=
  let A := map (fun rad => fmul (lit 314159 100000) (sq rad)) (radius inp) in
  zip_with fmul (E inp) A.

(** What is bound between the assertion on the callback and the loop.
    The options are kept as they are given; the only statement that can
    raise is the call of [Coeff]. *)
Definition configure (inp : Input) : result Config :=
  let kw := kwargs inp in
  let dt := get kw "dt" (PyFloat (ofZ 1)) in
  let tol1 := get kw "tol1" (PyFloat (lit 1 1000)) in
  let tol2 := get kw "tol2" (PyFloat (lit 1 1000000)) in
  coeff <<- mkCoeff (get kw "c" (PyFloat (lit 1 10))) ;;
  let num_v := length (vertices inp) in
  let free := free_of num_v (fixed inp) in
  let EA := EA_of inp in
  let C := connectivity_matrix (edges inp) in
  let Ct := transpose num_v C in
  let Ci := select_cols free C in
  let Cit := transpose (length free) Ci in
  let Ct2 := square_data Ct in
  let linit' :=
    if forallb (fun y => feq y (ofZ 0)) (linit inp)
    then normrow (spmv3 C (vertices inp))
    else linit inp in
  Ok {| c_free := free; c_p := loads inp;
        c_qpre := qpre inp; c_fpre := fpre inp; c_lpre := lpre inp;
        c_linit := linit'; c_EA := EA;
        c_C := C; c_Ct := Ct; c_Cit := Cit; c_Ct2 := Ct2;
        c_dt := dt; c_tol1 := tol1; c_tol2 := tol2;
        c_ca := Coeff_a coeff; c_cb := Coeff_b coeff;
        c_callback := callback inp |}.

(** The initial values *)
Definition initial (inp : Input) : State :=
  let C := connectivity_matrix (edges inp) in
  let q0 := ones (length (edges inp)) in
  let l0 := normrow (spmv3 C (vertices inp)) in
  {| x := vertices inp;
     v := zeros (length (vertices inp));
     r := zeros (length (vertices inp));
     q := q0; f := zip_with fmul q0 l0; l := l0;
     trace := [] |}.

(** *** One pass of the loop body *)

(** The three laws that divide.  [q_fpre] is used as the division leaves
    it; [q_lpre] and [q_EA] pass through [isinf] and [isnan]. *)
Definition q_fpre_of (cfg : Config) (s : State) : col :=
  zip_with fdiv (c_fpre cfg) (l s).
Definition q_lpre_of (cfg : Config) (s : State) : col :=
  map clean (zip_with fdiv (f s) (c_lpre cfg)).
Definition q_EA_of (cfg : Config) (s : State) : col :=
  map clean
    (zip_with fdiv (zip_with fmul (c_EA cfg) (zip_with fsub (l s) (c_linit cfg)))
                   (zip_with fmul (c_linit cfg) (l s))).

Definition q_of (cfg : Config) (s : State) : col :=
  zip_with fadd
    (zip_with fadd (zip_with fadd (c_qpre cfg) (q_fpre_of cfg s)) (q_lpre_of cfg s))
    (q_EA_of cfg s).

(** [mass = 0.5 * dt ** 2 * Ct2.dot(qpre + q_fpre + q_lpre + EA / linit)]:
    the scalar [0.5 * dt ** 2] is computed first, on the option as given *)
Definition mass_of (cfg : Config) (s : State) : result col :=
  dt2 <<- pow2 (c_dt cfg) ;;
  h <<- float_mul f0_5 dt2 ;;
  Ok (map (fmul h)
        (spmv1 (c_Ct2 cfg)
           (zip_with fadd
              (zip_with fadd (zip_with fadd (c_qpre cfg) (q_fpre_of cfg s))
                             (q_lpre_of cfg s))
              (zip_with fdiv (c_EA cfg) (c_linit cfg))))).

(** What [a] and [rk] capture in a pass: [mass] as the pass has computed
    it, [dt] as the number that the products with [dt] use *)
Definition env_of (cfg : Config) (s : State) (mass : col) (dt : F) : Env :=
  let Q := diags (q_of cfg s) in
  {| e_free := c_free cfg; e_p := c_p cfg;
     e_D := spmm (spmm (c_Cit cfg) Q) (c_C cfg);
     e_mass := mass;
     e_cb := c_cb cfg; e_dt := dt |}.

(** The body of [for k in range(kmax)], with the number of stages handed
    to [rk] as a parameter; the boolean tells whether the loop breaks.
    Every product with [dt] after the mass converts [dt] in the same way:
    the conversion is made once.  The callback is called before the two
    tests, and the second test is made when the first one fails. *)
Definition iteration_with (steps : Z) (cfg : Config) (k : nat) (s : State)
  : result (State * bool) :=
  let q := q_of cfg s in
  let Q := diags q in
  let free := c_free cfg in
  mass <<- mass_of cfg s ;;
  dt <<- to_float (c_dt cfg) ;;
  let x0 := x s in
  let v0 := mscale_l (c_ca cfg) (v s) in
  match rk (env_of cfg s mass dt) x0 v0 steps (x s, r s) with
  | Raise e => Raise e
  | Ok (dv, (x1, r1)) =>
      let v := put_rows free (madd (take_rows free v0) (take_rows free dv)) (v s) in
      let dx := mscale_r v dt in
      let x := put_rows free (madd (take_rows free x0) (take_rows free dx)) x1 in
      let u := spmv3 (c_C cfg) x in
      let l := normrow u in
      let f := zip_with fmul q l in
      let r := msub (c_p cfg) (spmv3 (spmm (c_Ct cfg) Q) u) in
      crit1 <<- norm (take_rows free r) ;;
      crit2 <<- norm (take_rows free dx) ;;
      let trace :=
        match c_callback cfg with
        | Observer => trace s ++ [(k, x, crit1, crit2)]
        | _ => trace s
        end in
      let s' := {| x := x; v := v; r := r; q := q; f := f; l := l; trace := trace |} in
      stop1 <<- less crit1 (c_tol1 cfg) ;;
      if stop1 then Ok (s', true)
      else stop2 <<- less crit2 (c_tol2 cfg) ;; Ok (s', stop2)
  end.

(** the call site: [dv = rk(x0, v0, steps=4)] *)
Definition iteration : Config -> nat -> State -> result (State * bool) :=
  iteration_with 4.

(** [for k in range(kmax)]: [n] passes remain, the next one is pass [k] *)
Fixpoint iterate_with (steps : Z) (cfg : Config) (n k : nat) (s : State) : result State :=
  match n with
  | O => Ok s
  | S n' =>
      match iteration_with steps cfg k s with
      | Raise e => Raise e
      | Ok (s', stop) => if stop then Ok s' else iterate_with steps cfg n' (S k) s'
      end
  end.
Definition iterate : Config -> nat -> nat -> State -> result State := iterate_with 4.

(** [range(kmax)] needs an integer *)
Definition range_len (w : pyval) : result nat :=
  match w with
  | PyInt z => Ok (Z.to_nat z)
  | PyFloat _ => Raise TypeError
  end.

(** The whole function up to its [return], keeping the final state *)
Definition dr_run (inp : Input) : result State :=
  match callback inp with
  | NotCallable => Raise AssertionError
  | _ =>
      cfg <<- configure inp ;;
      n <<- range_len (get (kwargs inp) "kmax" (PyInt 10000)) ;;
      iterate cfg n 0 (initial inp)
  end.

(** [return x, q, f, l, r] *)
Definition dr_numpy (inp : Input) : result (mat3 * col * col * col * mat3) :=
  match dr_run inp with
  | Raise e => Raise e
  | Ok s => Ok (x s, q s, f s, l s, r s)
  end.

End Solver.

Arguments pyval F : clear implicits.
Arguments Coeff F : clear implicits.
Arguments Scratch F : clear implicits.
Arguments M F A : clear implicits.
Arguments Env F : clear implicits.
Arguments Input F : clear implicits.
Arguments Config F : clear implicits.
Arguments State F : clear implicits.
End DR.

(** ** smooth_centroid, smooth_centerofmass *)

Module Smooth.
Section Smoothing.
Context {F : Type} {Ar : Arith F}.
Local Abbreviation vec3 := (Vec3 F).

(** The coordinates of a vertex are a Python list [[x, y, z]]: a mutable
    object.  The heap holds these objects by address; the dictionary
    [vertices] maps a key to the address of its list, in insertion order. *)
Definition Heap : Type := list vec3.
Definition Dict (A : Type) : Type := list (nat * A).

(** [d[key]] *)
Fixpoint lookup_key {A} (d : Dict A) (key : nat) : option A :=
  match d with
  | [] => None
  | (k, val) :: d' => if Nat.eqb k key then Some val else lookup_key d' key
  end.

(** Modelled from the spec: [centroid_points] of compas.geometry is not
    among the files embedded here; section 4.8 of the spec: the arithmetic
    mean of the positions.  The mean of no point divides by zero. *)
Definition centroid_points (points : list vec3) : result vec3 :=
  match points with
  | [] => Raise ZeroDivisionError
  | _ =>
      let p := ofZ (Z.of_nat (length points)) in
      let total (g : vec3 -> F) := fold_left (fun acc u => fadd acc (g u)) points f0 in
      Ok (fdiv (total (fun u => u.1.1)) p,
          fdiv (total (fun u => u.1.2)) p,
          fdiv (total (fun u => u.2)) p)
  end.

(** [o[i] += damping * (c[i] - point[i])] for i = 0, 1, 2, where [o] and
    [point] are lists on the heap *)
Definition damp (damping ci oi pi : F) : F := fadd oi (fmul damping (fsub ci pi)).
Definition bump (damping : F) (c : vec3) (o point : nat) (h : Heap) : Heap :=
  let rd (h : Heap) (adr : nat) : vec3 := default zero3 (h !! adr) in
  let h0 :=
    <[o := (damp damping c.1.1 (rd h o).1.1 (rd h point).1.1,
            (rd h o).1.2, (rd h o).2)]> h in
  let h1 :=
    <[o := ((rd h0 o).1.1,
            damp damping c.1.2 (rd h0 o).1.2 (rd h0 point).1.2,
            (rd h0 o).2)]> h0 in
  <[o := ((rd h1 o).1.1, (rd h1 o).1.2,
          damp damping c.2 (rd h1 o).2 (rd h1 point).2)]> h1.

(** [[vertices_0[nbr] for nbr in nbrs]], read when the list is built *)
Fixpoint gather (vertices_0 : Dict nat) (h : Heap) (nbrs : list nat) : result (list vec3) :=
  match nbrs with
  | [] => Ok []
  | nbr :: nbrs' =>
      match lookup_key vertices_0 nbr ≫= (h !!.) with
      | None => Raise KeyError
      | Some u =>
          match gather vertices_0 h nbrs' with
          | Ok us => Ok (u :: us)
          | Raise e => Raise e
          end
      end
  end.

Section Pass.
(** [target] is [centroid_points] or [center_of_mass_polygon] *)
Variable target : list vec3 -> result vec3.
Variables (vertices : Dict nat) (adjacency : Dict (list nat)) (fixed : list nat).
Variable damping : F.

(** The body of [for key, point in iter(vertices_0.items())].  [seen] is
    the heap in which the neighbours are looked up. *)
Definition visit (seen : Heap) (kp : nat * nat) (h : Heap) : result Heap :=
  let '(key, point) := kp in
  if decide (key ∈ fixed) then Ok h
  else
    match lookup_key adjacency key with
    | None => Raise KeyError
    | Some nbrs =>
        match gather vertices seen nbrs with
        | Raise e => Raise e
        | Ok pts =>
            match target pts with
            | Raise e => Raise e
            | Ok c =>
                match lookup_key vertices key with
                | None => Raise KeyError
                | Some o => Ok (bump damping c o point h)
                end
            end
        end
    end.

(** One pass of the code.  [vertices_0] is a new dictionary with the
    keys and the very list objects of [vertices]: a neighbour is read
    from the heap as it is when the vertex is visited. *)
Fixpoint pass (todo : Dict nat) (h : Heap) : result Heap :=
  match todo with
  | [] => Ok h
  | kp :: todo' =>
      match visit h kp h with
      | Raise e => Raise e
      | Ok h' => pass todo' h'
      end
  end.

(** One pass as the spec describes it: the neighbours are read from the
    positions frozen at the start of the pass. *)
Fixpoint pass_jacobi (frozen : Heap) (todo : Dict nat) (h : Heap) : result Heap :=
  match todo with
  | [] => Ok h
  | kp :: todo' =>
      match visit frozen kp h with
      | Raise e => Raise e
      | Ok h' => pass_jacobi frozen todo' h'
      end
  end.

(** [for k in range(kmax)] *)
Fixpoint passes (kmax : nat) (h : Heap) : result Heap :=
  match kmax with
  | O => Ok h
  | S n =>
      match pass vertices h with
      | Raise e => Raise e
      | Ok h' => passes n h'
      end
  end.
Fixpoint passes_jacobi (kmax : nat) (h : Heap) : result Heap :=
  match kmax with
  | O => Ok h
  | S n =>
      match pass_jacobi h vertices h with
      | Raise e => Raise e
      | Ok h' => passes_jacobi n h'
      end
  end.
End Pass.

(** The two functions are the same loop around their target function.
    [center_of_mass_polygon] of compas.geometry is not among the files
    embedded here: it is a parameter of [smooth_centerofmass]. *)
Definition smooth_with (target : list vec3 -> result vec3)
    (vertices : Dict nat) (adjacency : Dict (list nat)) (fixed : list nat)
    (kmax : nat) (damping : F) (callback : DR.callback_t) (h : Heap) : result Heap :=
  match callback with
  | DR.NotCallable => Raise Exception
  | _ => passes target vertices adjacency fixed damping kmax h
  end.

Definition smooth_centroid := smooth_with centroid_points.
Definition smooth_centerofmass (center_of_mass_polygon : list vec3 -> result vec3) :=
  smooth_with center_of_mass_polygon.

End Smoothing.

Arguments Heap F : clear implicits.
End Smooth.

(** ** The specification's reading of the options and of the tableau *)

Module Spec.
Section Spec.
Context {F : Type} {Ar : Arith F}.
Local Abbreviation mat3 := (Mat3 F).
Import DR.

Local Notation "y <- m ;; k" := (bind m (fun y => k))
  (at level 100, m at next level, right associativity).

(** [inp] with other keyword options *)
Definition with_kwargs (inp : Input F) (kw : gmap string (pyval F)) : Input F :=
  {| vertices := vertices inp; edges := edges inp; fixed := fixed inp;
     loads := loads inp; qpre := qpre inp; fpre := fpre inp; lpre := lpre inp;
     linit := linit inp; E := E inp; radius := radius inp;
     callback := callback inp; kwargs := kw |}.

(** Section 6 of the spec: an option [steps] in {1, 2, 4} with default 4
    that sets the number of stages.  [dr_run_steps] is [dr_run] with the
    call site reading it. *)
Definition steps_option (kw : gmap string (pyval F)) : Z :=
  match get kw "steps" (PyInt 4) with PyInt z => z | PyFloat _ => 0 end.
Definition dr_run_steps (inp : Input F) : result (State F) :=
  match callback inp with
  | NotCallable => Raise AssertionError
  | _ =>
      and_then (configure inp) (fun cfg =>
      and_then (range_len (get (kwargs inp) "kmax" (PyInt 10000))) (fun n =>
      iterate_with (steps_option (kwargs inp)) cfg n 0 (initial inp)))
  end.

(** Section 7 of the spec, "bad options": [dt <= 0], [kmax < 1],
    [tol <= 0], [steps] outside {1, 2, 4}, or [c < 0]. *)
Definition fle (y z : F) : bool := flt y z || feq y z.
Definition not_positive (w : pyval F) : bool :=
  match w with PyInt z => z <=? 0 | PyFloat y => fle y f0 end.
Definition negative (w : pyval F) : bool :=
  match w with PyInt z => z <? 0 | PyFloat y => flt y f0 end.
Definition bad_options (kw : gmap string (pyval F)) : bool :=
  not_positive (get kw "dt" (PyFloat (ofZ 1)))
  || match get kw "kmax" (PyInt 10000) with PyInt z => z <? 1 | PyFloat _ => true end
  || not_positive (get kw "tol1" (PyFloat (lit 1 1000)))
  || not_positive (get kw "tol2" (PyFloat (lit 1 1000000)))
  || negb (bool_decide (steps_option kw ∈ [1; 2; 4]))
  || negative (get kw "c" (PyFloat (lit 1 10))).

(** The first pass as the spec words it: a row of [q_lpre] is
    [l[e] / lpre[e]] of the initial lengths, and zero where
    [lpre[e] = 0]. *)
Definition q_lpre_as_worded (inp : Input F) (cfg : Config F) : Prop :=
  forall e y d, l (initial inp) !! e = Some y -> lpre inp !! e = Some d ->
    q_lpre_of cfg (initial inp) !! e = Some (if feq d f0 then f0 else fdiv y d).

(** Section 4.5 of the spec, the table of stages and final combinations,
    line by line. *)
Definition rk_spec (env : Env F) (x0 v0 : mat3) (steps : Z) : M F mat3 :=
  let dt := e_dt env in
  if steps =? 1 then
    A0 <- a env x0 f0 v0 ;;
    ret (mscale_l dt A0)
  else if steps =? 2 then
    A0 <- a env x0 f0 v0 ;;
    let K0 := mscale_l dt A0 in
    A1 <- a env x0 dt (madd v0 K0) ;;
    let K1 := mscale_l dt A1 in
    ret (madd (mscale_l (ofZ 0) K0) (mscale_l (ofZ 1) K1))
  else if steps =? 4 then
    A0 <- a env x0 f0 v0 ;;
    let K0 := mscale_l dt A0 in
    A1 <- a env x0 (fmul f0_5 dt) (madd v0 (mscale_l f0_5 K0)) ;;
    let K1 := mscale_l dt A1 in
    A2 <- a env x0 (fmul f0_5 dt) (madd v0 (mscale_l f0_5 K1)) ;;
    let K2 := mscale_l dt A2 in
    A3 <- a env x0 (fmul (ofZ 1) dt) (madd v0 (mscale_l (ofZ 1) K2)) ;;
    let K3 := mscale_l dt A3 in
    ret (madd (madd (madd (mscale_l (lit 1 6) K0) (mscale_l (lit 1 3) K1))
                    (mscale_l (lit 1 3) K2))
              (mscale_l (lit 1 6) K3))
  else
    raise NotImplementedError.

(** An explicit Runge-Kutta step from a Butcher tableau: stage [i] is
    [K_i = dt * a(c_i * dt, v0 + sum_{j<i} a_ij * K_j)], the result is
    [sum_i b_i * K_i]; both sums are taken from left to right. *)
Definition stage_arg (v0 : mat3) (ai : list F) (Ks : list mat3) : mat3 :=
  fold_left (fun acc (aK : F * mat3) => madd acc (mscale_l aK.1 aK.2)) (zip ai Ks) v0.
Fixpoint stages (env : Env F) (x0 v0 : mat3) (tableau : list (F * list F))
    (Ks : list mat3) : M F (list mat3) :=
  match tableau with
  | [] => ret Ks
  | (ci, ai) :: tableau' =>
      Ai <- a env x0 (fmul ci (e_dt env)) (stage_arg v0 ai Ks) ;;
      stages env x0 v0 tableau' (Ks ++ [mscale_l (e_dt env) Ai])
  end.
Definition weighted (B : list F) (Ks : list mat3) : mat3 :=
  match zip B Ks with
  | [] => []
  | (b0, K0) :: rest =>
      fold_left (fun acc (bK : F * mat3) => madd acc (mscale_l bK.1 bK.2)) rest
                (mscale_l b0 K0)
  end.
Definition rk_tableau (env : Env F) (x0 v0 : mat3)
    (tableau : list (F * list F)) (B : list F) : M F mat3 :=
  Ks <- stages env x0 v0 tableau [] ;;
  ret (weighted B Ks).

(** the midpoint rule and the classical fourth-order rule *)
Definition midpoint : list (F * list F) * list F :=
  ([(ofZ 0, []); (f0_5, [f0_5])], [ofZ 0; ofZ 1]).
Definition rk4 : list (F * list F) * list F :=
  ([(ofZ 0, []); (f0_5, [f0_5]); (f0_5, [ofZ 0; f0_5]); (ofZ 1, [ofZ 0; ofZ 0; ofZ 1])],
   [lit 1 6; lit 1 3; lit 1 3; lit 1 6]).
End Spec.
End Spec.

(** ** Concrete networks *)

Module Ex.
Import DR Spec.
Local Open Scope float_scope.
Local Abbreviation Inp := (Input float).
Local Abbreviation Kw := (gmap string (pyval float)).

(** one bar, vertex 0 fixed, in equilibrium under its load *)
Definition bar (kw : Kw) : Inp := {|
  vertices := [(0, 0, 0); (1, 0, 0)];
  edges := [(0%nat, 1%nat)];
  fixed := [0%nat];
  loads := [(0, 0, 0); (1, 0, 0)];
  qpre := [1]; fpre := [0]; lpre := [0]; linit := [0]; E := [0]; radius := [0];
  callback := NoCallback;
  kwargs := kw |}.

(** the bar pulled with twice the load: not in equilibrium *)
Definition bar2 (kw : Kw) : Inp := {|
  vertices := [(0, 0, 0); (1, 0, 0)];
  edges := [(0%nat, 1%nat)];
  fixed := [0%nat];
  loads := [(0, 0, 0); (2, 0, 0)];
  qpre := [1]; fpre := [0]; lpre := [0]; linit := [0]; E := [0]; radius := [0];
  callback := NoCallback;
  kwargs := kw |}.

(** a collapsed edge: both ends at the origin *)
Definition collapsed : Inp := {|
  vertices := [(0, 0, 0); (0, 0, 0)];
  edges := [(0%nat, 1%nat)];
  fixed := [0%nat];
  loads := [(0, 0, 0); (1, 0, 0)];
  qpre := [1]; fpre := [0]; lpre := [0]; linit := [0]; E := [0]; radius := [0];
  callback := NoCallback;
  kwargs := {[ "kmax" := PyInt 1 ]} |}.

(** two bars in a line, the initial length of the first one not set *)
Definition partial_linit : Inp := {|
  vertices := [(0, 0, 0); (1, 0, 0); (2, 0, 0)];
  edges := [(0%nat, 1%nat); (1%nat, 2%nat)];
  fixed := [0%nat; 2%nat];
  loads := [(0, 0, 0); (0, 1, 0); (0, 0, 0)];
  qpre := [1; 1]; fpre := [0; 0]; lpre := [0; 0]; linit := [0; 1];
  E := [0; 0]; radius := [0; 0];
  callback := NoCallback;
  kwargs := {[ "kmax" := PyInt 1 ]} |}.

(** the bar with a prescribed length that is the smallest positive
    number *)
Definition tiny_lpre : Inp := {|
  vertices := [(0, 0, 0); (1, 0, 0)];
  edges := [(0%nat, 1%nat)];
  fixed := [0%nat];
  loads := [(0, 0, 0); (2, 0, 0)];
  qpre := [1]; fpre := [0]; lpre := [0x1p-1074]; linit := [0]; E := [0]; radius := [0];
  callback := NoCallback;
  kwargs := ∅ |}.

(** the bar with no load and no prestress at all *)
Definition slack (kw : Kw) : Inp := {|
  vertices := [(0, 0, 0); (1, 0, 0)];
  edges := [(0%nat, 1%nat)];
  fixed := [0%nat];
  loads := [(0, 0, 0); (0, 0, 0)];
  qpre := [0]; fpre := [0]; lpre := [0]; linit := [0]; E := [0]; radius := [0];
  callback := NoCallback;
  kwargs := kw |}.
End Ex.

(** ** Predicates used in the proofs *)

Module Inv.
Section Inv.
Context {F : Type} {Ar : Arith F}.
Import DR.

(** a computation of [rk] leaves the rows outside [free] of both arrays
    as they are *)
Definition keeps {A} (free : list nat) (m : M F A) : Prop :=
  forall xr val xr', m xr = Ok (val, xr') ->
  forall i, i ∉ free -> xr'.1 !! i = xr.1 !! i /\ xr'.2 !! i = xr.2 !! i.

(** a computation of [rk] raises nothing *)
Definition total {A} (m : M F A) : Prop :=
  forall xr, exists val xr', m xr = Ok (val, xr').

(** rows [i] of [x] and [v] are what they were before the first pass *)
Definition pinned (inp : Input F) (s : State F) (i : nat) : Prop :=
  x s !! i = vertices inp !! i /\
  v s !! i = zeros (length (vertices inp)) !! i.

(** the claim on fixed rows as the spec words it: [r] as well *)
Definition pinned_r (inp : Input F) (s : State F) (i : nat) : Prop :=
  pinned inp s i /\ r s !! i = zeros (length (vertices inp)) !! i.
End Inv.
End Inv.

(** ** Concrete states and a concrete mesh *)

Module Ex2.
Import DR Spec Ex.
Local Open Scope float_scope.

(** what [rk] sees in the first pass over [inp] *)
Definition first_env (inp : Input float) : result (Env float) :=
  and_then (configure inp) (fun cfg =>
  and_then (mass_of cfg (initial inp)) (fun mass =>
  and_then (to_float (c_dt cfg)) (fun dt =>
  Ok (env_of cfg (initial inp) mass dt)))).

(** what it sees in the first pass over [bar2], where nothing raises
    before [rk] is called *)
Definition no_env : Env float :=
  {| e_free := []; e_p := []; e_D := []; e_mass := []; e_cb := 0; e_dt := 0 |}.
Definition env2 : Env float :=
  match first_env (bar2 ∅) with Ok env => env | Raise _ => no_env end.
Definition x2 : Mat3 float := x (initial (bar2 ∅)).
Definition r2 : Mat3 float := r (initial (bar2 ∅)).
Definition v_zero : Mat3 float := [(0, 0, 0); (0, 0, 0)].
Definition v_unit : Mat3 float := [(0, 0, 0); (1, 0, 0)].

(** two vertices, each the only neighbour of the other; the list of
    vertex [k] is at address [k] *)
Definition pair_vertices : Smooth.Dict nat := [(0%nat, 0%nat); (1%nat, 1%nat)].
Definition pair_adjacency : Smooth.Dict (list nat) := [(0%nat, [1%nat]); (1%nat, [0%nat])].
Definition pair_heap : Smooth.Heap float := [(0, 0, 0); (1, 0, 0)].
End Ex2.

(** ** Predicates on binary64 arrays *)

Module FloatInv.
Import DR.

(** a zero of either sign, or NaN *)
Definition zero_or_nan (y : float) : bool :=
  match Prim2SF y with
  | S754_zero _ | S754_nan => true
  | _ => false
  end.

Definition zn3 (u : Vec3 float) : Prop :=
  zero_or_nan u.1.1 = true /\ zero_or_nan u.1.2 = true /\ zero_or_nan u.2 = true.
Definition zn_col (c : Col float) : Prop := Forall (fun y => zero_or_nan y = true) c.
Definition zn_mat (m : Mat3 float) : Prop := Forall zn3 m.
Definition zn_row (ro : list (nat * float)) : Prop :=
  Forall (fun ce : nat * float => zero_or_nan ce.2 = true) ro.
Definition zn_sparse (A : Sparse float) : Prop := Forall zn_row A.

Definition nan3 : Vec3 float := (nan, nan, nan).

(** The network of the zero-load, zero-prestress law: [loads = 0],
    [qpre = 0], [fpre = 0], [lpre = 0], [linit = 0] and [EA = 0], where
    [EA = E * 3.14159 * radius ** 2] as the code computes it. *)
Definition slack_data (inp : Input float) : Prop :=
  loads inp = zeros (length (vertices inp))
  /\ qpre inp = replicate (length (edges inp)) 0%float
  /\ fpre inp = replicate (length (edges inp)) 0%float
  /\ lpre inp = replicate (length (edges inp)) 0%float
  /\ linit inp = replicate (length (edges inp)) 0%float
  /\ EA_of inp = replicate (length (edges inp)) 0%float.

(** what holds of the state before the first pass on such a network *)
Definition slack_inv (nv : nat) (s : State float) : Prop :=
  length (x s) = nv /\ length (v s) = nv /\ length (r s) = nv /\ zn_mat (r s).

(** what [configure] yields on such a network, as far as the loop needs it *)
Definition slack_cfg (nv : nat) (cfg : Config float) : Prop :=
  c_p cfg = zeros nv
  /\ zn_col (c_qpre cfg)
  /\ zn_col (c_fpre cfg)
  /\ (exists n, c_lpre cfg = replicate n 0%float)
  /\ zn_col (c_EA cfg)
  /\ length (c_Ct cfg) = nv
  /\ length (c_Ct2 cfg) = nv
  /\ Forall (fun i => (i < nv)%nat) (c_free cfg).

(** the claim of the spec: nothing moves *)
Definition motionless (inp : Input float) (s : State float) : Prop :=
  x s = vertices inp /\ v s = zeros (length (vertices inp)).

(** [inp] with other prescribed force densities and forces *)
Definition with_prescribed (inp : Input float) (qpre' fpre' : Col float) : Input float :=
  {| vertices := vertices inp; edges := edges inp; fixed := fixed inp;
     loads := loads inp; qpre := qpre'; fpre := fpre'; lpre := lpre inp;
     linit := linit inp; E := E inp; radius := radius inp;
     callback := callback inp; kwargs := kwargs inp |}.
End FloatInv.

(** ** Translations *)

Module Shift.
Section Shift.
Context {F : Type} {Ar : Arith F}.
Import DR.

(** every row moved by the vector [t] *)
Definition shift (t : Vec3 F) (m : Mat3 F) : Mat3 F := map (fun u => add3 u t) m.


(** [t] added to the positions only *)
Definition translate_positions (t : Vec3 F) (inp : Input F) : Input F :=
  {| vertices := shift t (vertices inp); edges := edges inp; fixed := fixed inp;
     loads := loads inp; qpre := qpre inp; fpre := fpre inp;
     lpre := lpre inp; linit := linit inp; E := E inp; radius := radius inp;
     callback := callback inp; kwargs := kwargs inp |}.


(** the result of [dr_numpy] with the positions moved *)
Definition shift_result (t : Vec3 F)
    (out : result (Mat3 F * Col F * Col F * Col F * Mat3 F))
  : result (Mat3 F * Col F * Col F * Col F * Mat3 F) :=
  match out with
  | Ok (x, q, f, l, r) => Ok (shift t x, q, f, l, r)
  | Raise e => Raise e
  end.

(** [m'] does on the moved positions what [m] does on the positions, for
    arrays [x] of [nv] rows *)
Definition moved {A} (t : Vec3 F) (nv : nat) (m m' : M F A) : Prop :=
  forall x r, length x = nv ->
    match m (x, r) with
    | Ok (val, (x', r')) => m' (shift t x, r) = Ok (val, (shift t x', r')) /\ length x' = nv
    | Raise e => m' (shift t x, r) = Raise e
    end.



End Shift.
End Shift.

(** a network over the reals *)
Module ExR.
Import DR.
Local Open Scope R_scope.

Definition bar : Input R := {|
  vertices := [(0, 0, 0); (1, 0, 0)];
  edges := [(0%nat, 1%nat)];
  fixed := [0%nat];
  loads := [(0, 0, 0); (2, 0, 0)];
  qpre := [1]; fpre := [0]; lpre := [0]; linit := [0]; E := [0]; radius := [0];
  callback := NoCallback;
  kwargs := {[ "kmax" := PyInt 5 ]} |}.
End ExR.

(** ** Shapes, and what the callback is shown *)

Module Shape.
Section Shape.
Context {F : Type} {Ar : Arith F}.
Import DR.

(** the live arrays have [nv] and [ne] rows *)
Definition shaped (nv ne : nat) (s : State F) : Prop :=
  length (x s) = nv /\ length (v s) = nv /\ length (r s) = nv
  /\ length (q s) = ne /\ length (f s) = ne /\ length (l s) = ne.

(** the arrays and matrices made before the loop have [nv] and [ne] rows *)
Definition shaped_cfg (nv ne : nat) (cfg : Config F) : Prop :=
  length (c_p cfg) = nv
  /\ length (c_qpre cfg) = ne /\ length (c_fpre cfg) = ne
  /\ length (c_lpre cfg) = ne /\ length (c_linit cfg) = ne
  /\ length (c_EA cfg) = ne
  /\ length (c_C cfg) = ne /\ length (c_Ct cfg) = nv.

(** a computation of [rk] keeps the number of rows of [x] and [r] *)
Definition keeps_rows {A} (m : M F A) : Prop :=
  forall xr val xr', m xr = Ok (val, xr') ->
  length xr'.1 = length xr.1 /\ length xr'.2 = length xr.2.

(** what ties the arrays of a state together: the lengths are those of
    the positions, the forces are force density times length *)
Definition consistent (cfg : Config F) (s : State F) : Prop :=
  l s = normrow (spmv3 (c_C cfg) (x s)) /\ f s = zip_with fmul (q s) (l s).

(** the residual of a state: [p - Ct.dot(Q).dot(C.dot(x))] *)
Definition residual (cfg : Config F) (s : State F) : Mat3 F :=
  msub (c_p cfg) (spmv3 (spmm (c_Ct cfg) (diags (q s))) (spmv3 (c_C cfg) (x s))).

(** [inp] with another list of fixed vertices *)
Definition with_fixed (inp : Input F) (fixed' : list nat) : Input F :=
  {| vertices := vertices inp; edges := edges inp; fixed := fixed';
     loads := loads inp; qpre := qpre inp; fpre := fpre inp; lpre := lpre inp;
     linit := linit inp; E := E inp; radius := radius inp;
     callback := callback inp; kwargs := kwargs inp |}.

(** One call [callback(k, x, [crit1, crit2], callback_args)] as it is
    recorded, and the two tests that follow it in the loop: [crit1 < tol1]
    and, when that fails, [crit2 < tol2]. *)
Definition call_k (ev : nat * Mat3 F * F * F) : nat := ev.1.1.1.
Definition call_x (ev : nat * Mat3 F * F * F) : Mat3 F := ev.1.1.2.
Definition converged (cfg : Config F) (ev : nat * Mat3 F * F * F) : result bool :=
  and_then (less ev.1.2 (c_tol1 cfg)) (fun stop1 =>
  if stop1 then Ok true else less ev.2 (c_tol2 cfg)).

(** The calls [evs] made by a loop of at most [n] passes that starts at
    pass [k] and ends in state [s']: they are numbered from [k] on, the
    last one is shown the final positions, none but the last one meets a
    convergence test, and the last one does when fewer than [n] passes
    were made. *)
Definition protocol (cfg : Config F) (n k : nat) (s' : State F)
    (evs : list (nat * Mat3 F * F * F)) : Prop :=
  (length evs <= n)%nat
  /\ map call_k evs = seq k (length evs)
  /\ (forall ev, last evs = Some ev -> call_x ev = x s')
  /\ (forall i ev, evs !! i = Some ev -> (S i < length evs)%nat ->
        converged cfg ev = Ok false)
  /\ ((length evs < n)%nat ->
        exists ev, last evs = Some ev /\ converged cfg ev = Ok true).
End Shape.
End Shape.

(** the bar pulled with twice its load, watched by a callback; and the bar
    with both ends fixed *)
Module Ex3.
Import DR.
Local Open Scope float_scope.

Definition watched (kw : gmap string (pyval float)) : Input float := {|
  vertices := [(0, 0, 0); (1, 0, 0)];
  edges := [(0%nat, 1%nat)];
  fixed := [0%nat];
  loads := [(0, 0, 0); (2, 0, 0)];
  qpre := [1]; fpre := [0]; lpre := [0]; linit := [0]; E := [0]; radius := [0];
  callback := Observer;
  kwargs := kw |}.

Definition held : Input float := {|
  vertices := [(0, 0, 0); (1, 0, 0)];
  edges := [(0%nat, 1%nat)];
  fixed := [1%nat; 0%nat];
  loads := [(0, 0, 0); (2, 0, 0)];
  qpre := [1]; fpre := [0]; lpre := [0]; linit := [0]; E := [0]; radius := [0];
  callback := NoCallback;
  kwargs := ∅ |}.
End Ex3.

(** ** smooth_area *)

Module SmoothArea.
Import Smooth.
Section Area.
Context {F : Type} {Ar : Arith F}.
Local Abbreviation vec3 := (Vec3 F).

(** [{fkey: g([vertices[key] for key in keys])
      for fkey, keys in iter(faces.items())}]: the value of [g] on every
    face, at the positions that the heap holds when the table is built *)
Fixpoint face_table {A} (g : list vec3 -> result A) (vertices : Dict nat)
    (h : Heap F) (faces : Dict (list nat)) : result (Dict A) :=
  match faces with
  | [] => Ok []
  | (fkey, keys) :: faces' =>
      match gather vertices h keys with
      | Raise e => Raise e
      | Ok pts =>
          match g pts with
          | Raise e => Raise e
          | Ok val =>
              match face_table g vertices h faces' with
              | Raise e => Raise e
              | Ok table => Ok ((fkey, val) :: table)
              end
          end
      end
  end.

(** The loop [for fkey in adjacency[key]] over the faces around a
    vertex; an entry [None] stands for the outside of the mesh and is
    skipped.  [xyz] and [A] start from the integer 0. *)
Fixpoint weigh (face_area : Dict F) (face_centroid : Dict vec3)
    (fkeys : list (option nat)) (xyz : vec3) (A : F) : result (vec3 * F) :=
  match fkeys with
  | [] => Ok (xyz, A)
  | None :: fkeys' => weigh face_area face_centroid fkeys' xyz A
  | Some fkey :: fkeys' =>
      match lookup_key face_area fkey with
      | None => Raise KeyError
      | Some a =>
          match lookup_key face_centroid fkey with
          | None => Raise KeyError
          | Some c =>
              weigh face_area face_centroid fkeys'
                (fadd xyz.1.1 (fmul a c.1.1),
                 fadd xyz.1.2 (fmul a c.1.2),
                 fadd xyz.2 (fmul a c.2))
                (fadd A a)
          end
      end
  end.

(** [if A: x = x / A; y = y / A; z = z / A]: a number is true when it is
    not zero *)
Definition mean (xyz : vec3) (A : F) : vec3 :=
  if feq A f0 then xyz else map3 (fun e => fdiv e A) xyz.

Section Pass.
(** [area_polygon] of compas.geometry is not among the files embedded
    here: it is a parameter; so is the function that gives the centroid
    of a face, which [smooth_area] below sets to [centroid_points]. *)
Variable centroid : list vec3 -> result vec3.
Variable area_polygon : list vec3 -> result F.
Variables (vertices : Dict nat) (faces : Dict (list nat)).
Variable adjacency : Dict (list (option nat)).
Variable fixed : list nat.
Variable damping : F.

(** The body of [for key, point in iter(vertices_0.items())] *)
Definition visit_area (face_centroid : Dict vec3) (face_area : Dict F)
    (kp : nat * nat) (h : Heap F) : result (Heap F) :=
  let '(key, point) := kp in
  if decide (key ∈ fixed) then Ok h
  else
    match lookup_key adjacency key with
    | None => Raise KeyError
    | Some fkeys =>
        match weigh face_area face_centroid fkeys zero3 f0 with
        | Raise e => Raise e
        | Ok (xyz, A) =>
            match lookup_key vertices key with
            | None => Raise KeyError
            | Some o => Ok (bump damping (mean xyz A) o point h)
            end
        end
    end.

Fixpoint visits_area (face_centroid : Dict vec3) (face_area : Dict F)
    (todo : Dict nat) (h : Heap F) : result (Heap F) :=
  match todo with
  | [] => Ok h
  | kp :: todo' =>
      match visit_area face_centroid face_area kp h with
      | Raise e => Raise e
      | Ok h' => visits_area face_centroid face_area todo' h'
      end
  end.

(** One pass: the two tables are built from the positions at the start
    of the pass, the centroids before the areas; then every vertex is
    visited. *)
Definition pass_area (h : Heap F) : result (Heap F) :=
  match face_table centroid vertices h faces with
  | Raise e => Raise e
  | Ok face_centroid =>
      match face_table area_polygon vertices h faces with
      | Raise e => Raise e
      | Ok face_area => visits_area face_centroid face_area vertices h
      end
  end.

(** [for k in range(kmax)] *)
Fixpoint passes_area (kmax : nat) (h : Heap F) : result (Heap F) :=
  match kmax with
  | O => Ok h
  | S n =>
      match pass_area h with
      | Raise e => Raise e
      | Ok h' => passes_area n h'
      end
  end.
End Pass.

Definition smooth_area (area_polygon : list vec3 -> result F)
    (vertices : Dict nat) (faces : Dict (list nat))
    (adjacency : Dict (list (option nat))) (fixed : list nat)
    (kmax : nat) (damping : F) (callback : DR.callback_t) (h : Heap F)
  : result (Heap F) :=
  match callback with
  | DR.NotCallable => Raise Exception
  | _ => passes_area centroid_points area_polygon vertices faces adjacency fixed
           damping kmax h
  end.
End Area.
End SmoothArea.

(** ** Predicates on meshes and heaps *)

Module Mesh.
Import Smooth.
Section Mesh.
Context {F : Type} {Ar : Arith F}.

(** [o] is the address of the coordinate list of a vertex that is not
    fixed: the addresses the smoothing functions write to *)
Definition written (vertices : Dict nat) (fixed : list nat) (o : nat) : Prop :=
  exists key, (key ∉ fixed) /\ lookup_key vertices key = Some o.

(** two heaps hold the same lists outside these addresses *)
Definition same_outside (vertices : Dict nat) (fixed : list nat) (h h' : Heap F) : Prop :=
  forall o, ~ written vertices fixed o -> h' !! o = h !! o.

(** every neighbour of a vertex that is not fixed is a vertex whose list
    is not written *)
Definition free_apart (vertices : Dict nat) (adjacency : Dict (list nat))
    (fixed : list nat) : Prop :=
  forall key nbrs nbr o,
    key ∉ fixed -> lookup_key adjacency key = Some nbrs -> nbr ∈ nbrs ->
    lookup_key vertices nbr = Some o -> ~ written vertices fixed o.

(** a dictionary of vertices as Python builds it: every key once, every
    key with a coordinate list of its own, and all of them on the heap *)
Definition distinct_lists (vertices : Dict nat) (h : Heap F) : Prop :=
  NoDup (map fst vertices) /\ NoDup (map snd vertices)
  /\ Forall (fun kp : nat * nat => (snd kp < length h)%nat) vertices.

(** [u[i] + damping * (c[i] - u[i])] for i = 0, 1, 2 *)
Definition pulled (damping : F) (c u : Vec3 F) : Vec3 F :=
  (damp damping c.1.1 u.1.1 u.1.1,
   damp damping c.1.2 u.1.2 u.1.2,
   damp damping c.2 u.2 u.2).
End Mesh.
End Mesh.

(** a square face with a vertex in the middle that no face lists; unit
    areas *)
Module Ex4.
Import Smooth.
Local Open Scope float_scope.

Definition quad_vertices : Dict nat :=
  [(0%nat, 0%nat); (1%nat, 1%nat); (2%nat, 2%nat); (3%nat, 3%nat); (4%nat, 4%nat)].
Definition quad_faces : Dict (list nat) := [(0%nat, [0; 1; 2; 3]%nat)].
Definition quad_adjacency : Dict (list (option nat)) :=
  [(0%nat, [Some 0%nat; None]); (1%nat, [Some 0%nat]); (2%nat, [Some 0%nat]);
   (3%nat, [Some 0%nat]); (4%nat, [None])].
Definition quad_heap : Heap float :=
  [(0, 0, 0); (2, 0, 0); (2, 2, 0); (0, 2, 0); (4, 4, 4)].
Definition unit_area (points : list (Vec3 float)) : result float := Ok 1.
End Ex4.

(** ** helpers: homogeneous coordinates, determinant, inverse *)

Module Helpers.

(** The exceptions of these functions.  They work on Python lists of
    Python numbers: an index out of range and a division by zero raise. *)
Inductive exn := ValueError | IndexError | ZeroDivisionError.

Inductive result (A : Type) : Type :=
| Ok (val : A)
| Raise (e : exn).
Arguments Ok {A} val.
Arguments Raise {A} e.

Definition bind {A B} (m : result A) (k : A -> result B) : result B :=
  match m with Ok val => k val | Raise e => Raise e end.
Notation "y <- m ;; k" := (bind m (fun y => k))
  (at level 100, m at next level, right associativity).

(** a list comprehension whose element expression may raise, and a loop
    that carries a state *)
Fixpoint mapM {A B} (g : A -> result B) (xs : list A) : result (list B) :=
  match xs with
  | [] => Ok []
  | y :: xs' => val <- g y ;; rest <- mapM g xs' ;; Ok (val :: rest)
  end.
Fixpoint foldM {A S} (g : S -> A -> result S) (xs : list A) (s : S) : result S :=
  match xs with
  | [] => Ok s
  | y :: xs' => s' <- g s y ;; foldM g xs' s'
  end.

Section Helpers.
Context {F : Type} {Ar : Arith F}.
Local Abbreviation matrix := (list (list F)).

(** [a / b] on Python numbers *)
Definition div (a b : F) : result F :=
  if feq b f0 then Raise ZeroDivisionError else Ok (fdiv a b).

(** [M[i][j]] *)
Definition item (M : matrix) (i j : nat) : result F :=
  match M !! i with
  | None => Raise IndexError
  | Some ro =>
      match ro !! j with
      | None => Raise IndexError
      | Some y => Ok y
      end
  end.

(** [[[x / w, y / w, z / w, w] for x, y, z in vectors]]; a vector that
    does not have three components cannot be unpacked *)
Definition homogenize (vectors : matrix) (w : F) : result matrix :=
  mapM (fun u =>
          match u with
          | [x; y; z] =>
              x' <- div x w ;; y' <- div y w ;; z' <- div z w ;;
              Ok [x'; y'; z'; w]
          | _ => Raise ValueError
          end) vectors.

(** [[[x * w, y * w, z * w] for x, y, z, w in vectors]] *)
Definition dehomogenize (vectors : matrix) : result matrix :=
  mapM (fun u =>
          match u with
          | [x; y; z; w] => Ok [fmul x w; fmul y w; fmul z w]
          | _ => Raise ValueError
          end) vectors.

(** What [asarray(points)] makes of a list of lists of numbers: a
    two-dimensional array when the list is not empty and its rows have
    one length.  Of the empty list it makes an array of one dimension;
    rows of unequal lengths it refuses with ValueError. *)
Definition rectangular (points : matrix) : bool :=
  match points with
  | [] => false
  | ro :: _ => forallb (fun ro' => Nat.eqb (length ro') (length ro)) points
  end.

(** [hstack((points, ones((points.shape[0], 1))))].  [hstack] cannot join
    the array of one dimension of an empty list with the column of ones:
    ValueError. *)
Definition homogenize_numpy (points : matrix) : result matrix :=
  match points with
  | [] => Raise ValueError
  | _ :: _ =>
      if rectangular points
      then Ok (map (fun ro => ro ++ [f1]) points)
      else Raise ValueError
  end.

(** [points[:, :-1] / points[:, -1].reshape((-1, 1))].  The array of one
    dimension of an empty list has no second index: IndexError; an array
    without columns has no column [-1]: IndexError.  The division is
    numpy's and does not raise. *)
Definition dehomogenize_numpy (points : matrix) : result matrix :=
  match points with
  | [] => Raise IndexError
  | _ :: _ =>
      if rectangular points
      then mapM (fun ro =>
                   match last ro with
                   | None => Raise IndexError
                   | Some w => Ok (map (fun e => fdiv e w) (removelast ro))
                   end) points
      else Raise ValueError
  end.

(** [[[1. if i == j else 0. for i in range(dim)] for j in range(dim)]] *)
Definition identity_matrix (dim : nat) : matrix :=
  map (fun j => map (fun i => if Nat.eqb i j then f1 else f0) (seq 0 dim)) (seq 0 dim).

(** The rows [d[t1]] for [t1] in [range(1, dim)], each row [t1] of [M]
    without its entry [t]; [M1 = [d[x] for x in d]] lists them in the order
    in which they were made. *)
Definition minor_rows (M : matrix) (dim t : nat) : result matrix :=
  mapM (fun t1 =>
          mapM (fun m => item M t1 m) (filter (fun m => m <> t) (seq 0 dim)))
       (seq 1 (dim - 1)%nat).

(** The body of [for t in range(dim)] in [determinant], on the state
    [(i, sum)]; [det] is the call [determinant(M1, check=False)]. *)
Definition column_step (det : matrix -> result F) (M : matrix) (dim : nat)
    (st : Z * F) (t : nat) : result (Z * F) :=
  M1 <- minor_rows M dim t ;;
  m0t <- item M 0 t ;;
  d <- det M1 ;;
  Ok (st.1 * -1, fadd st.2 (fmul (fmul (ofZ st.1) m0t) d)).

(** The body of [determinant] after the check; [dim] is [len(M)].  The
    call on [M1] is a call on a matrix of [dim - 1] rows.  [i] is the
    integer 1 or -1, [sum] starts from the integer 0. *)
Fixpoint det_rec (dim : nat) (M : matrix) : result F :=
  if Nat.eqb dim 2 then
    m00 <- item M 0 0 ;; m11 <- item M 1 1 ;;
    m01 <- item M 0 1 ;; m10 <- item M 1 0 ;;
    Ok (fsub (fmul m00 m11) (fmul m01 m10))
  else
    match dim with
    | O => Ok f0
    | S dim' =>
        end_ <- foldM (column_step (det_rec dim') M dim) (seq 0 dim) (1, f0) ;;
        Ok end_.2
    end.

(** [def determinant(M, check=True)] *)
Definition determinant (M : matrix) (check : bool) : result F :=
  let dim := length M in
  if check && negb (forallb (fun c => Nat.eqb (length c) dim) M)
  then Raise ValueError
  else det_rec dim M.

(** [row[:j] + row[j+1:]] and the inner function [matrix_minor] *)
Definition without {A} (j : nat) (xs : list A) : list A := take j xs ++ drop (S j) xs.
Definition matrix_minor (m : matrix) (i j : nat) : matrix :=
  map (without j) (without i m).

Section Inverse.
(** [transpose_matrix] of compas.geometry.basic is not among the files
    embedded here: it is a parameter. *)
Variable transpose_matrix : matrix -> matrix.

(** [def inverse(M)].  The statement under [if detM == 0] builds an
    exception and does not raise it: nothing happens there. *)
Definition inverse (M : matrix) : result matrix :=
  detM <- determinant M true ;;
  let dim := length M in
  if Nat.eqb dim 2 then
    m11 <- item M 1 1 ;; e00 <- div m11 detM ;;
    m01 <- item M 0 1 ;; e01 <- div (fmul (ofZ (-1)) m01) detM ;;
    m10 <- item M 1 0 ;; e10 <- div (fmul (ofZ (-1)) m10) detM ;;
    m00 <- item M 0 0 ;; e11 <- div m00 detM ;;
    Ok [[e00; e01]; [e10; e11]]
  else
    cofactors <- mapM (fun r =>
                   mapM (fun c =>
                           d <- determinant (matrix_minor M r c) true ;;
                           Ok (fmul (ofZ ((-1) ^ Z.of_nat (r + c)%nat)) d))
                        (seq 0 dim))
                      (seq 0 dim) ;;
    let cofactors := transpose_matrix cofactors in
    let n := length cofactors in
    mapM (fun r =>
            match cofactors !! r with
            | None => Raise IndexError
            | Some ro =>
                divided <- mapM (fun c =>
                             match ro !! c with
                             | None => Raise IndexError
                             | Some y => div y detM
                             end) (seq 0 n) ;;
                Ok (divided ++ drop n ro)
            end) (seq 0 n).
End Inverse.
End Helpers.
End Helpers.

(** ** Predicates on matrices *)

Module Mat.
Section Mat.
Context {F : Type} {Ar : Arith F}.

(** every row has as many entries as the matrix has rows *)
Definition square (M : list (list F)) : Prop :=
  Forall (fun ro => length ro = length M) M.

(** the entry that [M[i][j]] reads when it is there *)
Definition entry_at (M : list (list F)) (i j : nat) : F :=
  default f0 (M !! i ≫= (.!! j)).

(** the rows that [determinant] builds for column [t] of a square matrix *)
Definition minor_of (M : list (list F)) (n t : nat) : list (list F) :=
  map (fun t1 => map (fun m => entry_at M t1 m) (filter (fun m => m <> t) (seq 0 n)))
      (seq 1 (n - 1)).

(** the product of two 2-by-2 matrices, as mathematics has it *)
Definition mul2 (A B : list (list F)) : list (list F) :=
  match A, B with
  | [[a; b]; [c; d]], [[p; q]; [r; s]] =>
      [[fadd (fmul a p) (fmul b r); fadd (fmul a q) (fmul b s)];
       [fadd (fmul c p) (fmul d r); fadd (fmul c q) (fmul d s)]]
  | _, _ => []
  end.
End Mat.
End Mat.

(** * Properties *)

(** ** Lists and rows *)

Module ListFacts.
Section ListFacts.
Context {F : Type} {Ar : Arith F}.
Local Abbreviation mat3 := (Mat3 F).

Lemma lookup_map {A B} (g : A -> B) (xs : list A) (i : nat) :
  (map g xs) !! i = (g <$> (xs !! i)).
Proof. change (map g xs) with (g <$> xs). apply list_lookup_fmap. Qed.

Lemma length_put_rows idx vals (m : mat3) :
  length (put_rows idx vals m) = length m.
Proof.
  revert vals m. induction idx as [|j idx IH]; intros [|u vals] m; simpl; auto.
  rewrite IH. apply length_insert.
Qed.

Lemma put_rows_other idx vals (m : mat3) i :
  i ∉ idx -> put_rows idx vals m !! i = m !! i.
Proof.
  revert vals m. induction idx as [|j idx IH]; intros [|u vals] m Hi; simpl; auto.
  apply not_elem_of_cons in Hi as [Hij Hi].
  rewrite IH by assumption. apply list_lookup_insert_ne. congruence.
Qed.

Lemma elem_of_free_of n fixed i :
  i ∈ DR.free_of n fixed <-> (i ∉ fixed) /\ (i < n)%nat.
Proof.
  unfold DR.free_of. rewrite list_elem_of_filter, elem_of_seq. intuition lia.
Qed.

Lemma fixed_not_free n fixed i : i ∈ fixed -> i ∉ DR.free_of n fixed.
Proof. rewrite elem_of_free_of. tauto. Qed.
End ListFacts.
End ListFacts.

(** ** The helper [rk]: what it writes, and that it returns *)

Module RkFacts.
Section RkFacts.
Context {F : Type} {Ar : Arith F}.
Local Abbreviation mat3 := (Mat3 F).
Import DR Inv ListFacts.

Lemma keeps_ret {A} free (val : A) : keeps (F := F) free (ret val).
Proof. intros xr val' xr' [= _ <-] i _. auto. Qed.

Lemma keeps_bind {A B} free (m : M F A) (k : A -> M F B) :
  keeps free m -> (forall val, keeps free (k val)) -> keeps free (bind m k).
Proof.
  intros Hm Hk xr val xr' Hrun i Hi. unfold bind in Hrun.
  destruct (m xr) as [[val1 xr1]|e] eqn:E1; [|discriminate].
  destruct (Hm _ _ _ E1 i Hi) as [H1 H2].
  destruct (Hk _ _ _ _ Hrun i Hi) as [H3 H4]. split; congruence.
Qed.

Lemma keeps_a env x0 t w : keeps (e_free env) (a env x0 t w).
Proof.
  intros [x1 r1] val [x2 r2] Hrun i Hi. unfold a in Hrun.
  injection Hrun as _ <- <-. simpl. now rewrite !put_rows_other.
Qed.

Lemma keeps_rk env x0 v0 steps : keeps (e_free env) (rk env x0 v0 steps).
Proof.
  unfold rk.
  repeat match goal with
         | |- keeps _ (if ?c then _ else _) => destruct c
         | |- keeps _ (bind _ _) => apply keeps_bind; [|intros ?]
         | |- keeps _ (a _ _ _ _) => apply keeps_a
         | |- keeps _ (ret _) => apply keeps_ret
         end.
  intros xr val xr' Hrun. discriminate.
Qed.

Lemma total_ret {A} (val : A) : total (F := F) (ret val).
Proof. intros xr. now exists val, xr. Qed.

Lemma total_bind {A B} (m : M F A) (k : A -> M F B) :
  total m -> (forall val, total (k val)) -> total (bind m k).
Proof.
  intros Hm Hk xr. destruct (Hm xr) as (val & xr1 & E1).
  unfold bind. rewrite E1. apply Hk.
Qed.

Lemma total_a env x0 t w : total (a env x0 t w).
Proof. intros [x1 r1]. unfold a. eauto. Qed.

Ltac total_steps :=
  repeat match goal with
         | |- total (bind _ _) => apply total_bind; [|intros ?]
         | |- total (a _ _ _ _) => apply total_a
         | |- total (ret _) => apply total_ret
         end.

Lemma total_rk_4 env x0 v0 : total (rk env x0 v0 4).
Proof. unfold rk. simpl. total_steps. Qed.

Lemma rk_raises env x0 v0 steps xr :
  steps <> 1 -> steps <> 2 -> steps <> 4 ->
  rk env x0 v0 steps xr = Raise NotImplementedError.
Proof.
  intros H1 H2 H4. unfold rk.
  destruct (Z.eqb_spec steps 1); [contradiction|].
  destruct (Z.eqb_spec steps 2); [contradiction|].
  destruct (Z.eqb_spec steps 4); [contradiction|]. reflexivity.
Qed.
End RkFacts.
End RkFacts.

(** ** The loop: rows outside [free] *)

Module LoopFacts.
Section LoopFacts.
Context {F : Type} {Ar : Arith F}.
Local Abbreviation mat3 := (Mat3 F).
Import DR Inv Shape ListFacts RkFacts.

(** a pass that returns: what was computed on the way, and the state it
    leaves, field by field *)
Lemma iteration_with_Ok steps cfg k s s' stop :
  iteration_with steps cfg k s = Ok (s', stop) ->
  exists mass dt dv x1 r1 crit1 crit2,
    mass_of cfg s = Ok mass
    /\ to_float (c_dt cfg) = Ok dt
    /\ rk (env_of cfg s mass dt) (x s) (mscale_l (c_ca cfg) (v s)) steps (x s, r s)
       = Ok (dv, (x1, r1))
    /\ v s' = put_rows (c_free cfg)
                (madd (take_rows (c_free cfg) (mscale_l (c_ca cfg) (v s)))
                      (take_rows (c_free cfg) dv)) (v s)
    /\ x s' = put_rows (c_free cfg)
                (madd (take_rows (c_free cfg) (x s))
                      (take_rows (c_free cfg) (mscale_r (v s') dt))) x1
    /\ q s' = q_of cfg s
    /\ l s' = normrow (spmv3 (c_C cfg) (x s'))
    /\ f s' = zip_with fmul (q s') (l s')
    /\ r s' = msub (c_p cfg)
                (spmv3 (spmm (c_Ct cfg) (diags (q s'))) (spmv3 (c_C cfg) (x s')))
    /\ norm (take_rows (c_free cfg) (r s')) = Ok crit1
    /\ norm (take_rows (c_free cfg) (mscale_r (v s') dt)) = Ok crit2
    /\ trace s' = match c_callback cfg with
                  | Observer => trace s ++ [(k, x s', crit1, crit2)]
                  | _ => trace s
                  end
    /\ converged cfg (k, x s', crit1, crit2) = Ok stop.
Proof.
  unfold iteration_with, and_then. intros Hrun.
  destruct (mass_of cfg s) as [mass|e]; [|discriminate].
  destruct (to_float (c_dt cfg)) as [dt|e]; [|discriminate].
  destruct (rk _ _ _ _ _) as [[dv [x1 r1]]|e] eqn:Erk; [|discriminate].
  match type of Hrun with
  | match ?m with _ => _ end = _ => destruct m as [crit1|e] eqn:E1; [|discriminate]
  end.
  match type of Hrun with
  | match ?m with _ => _ end = _ => destruct m as [crit2|e] eqn:E2; [|discriminate]
  end.
  exists mass, dt, dv, x1, r1, crit1, crit2.
  unfold converged, and_then. cbn [fst snd].
  destruct (less crit1 (c_tol1 cfg)) as [[|]|e]; try discriminate.
  - cbv beta iota zeta in Hrun. injection Hrun as <- <-.
    cbn [x v r q f l trace]. repeat split; try assumption.
  - destruct (less crit2 (c_tol2 cfg)) as [stop2|e]; [|discriminate].
    cbv beta iota zeta in Hrun. injection Hrun as <- <-.
    cbn [x v r q f l trace]. repeat split; try assumption.
Qed.

Lemma iteration_with_other steps cfg k s s' stop i :
  iteration_with steps cfg k s = Ok (s', stop) ->
  i ∉ c_free cfg ->
  x s' !! i = x s !! i /\ v s' !! i = v s !! i.
Proof.
  intros Hrun Hi.
  apply iteration_with_Ok in Hrun
    as (mass & dt & dv & x1 & r1 & crit1 & crit2 & _ & _ & Erk & Hv & Hx & _).
  rewrite Hx, Hv.
  destruct (keeps_rk _ _ _ _ _ _ _ Erk i Hi) as [Hx1 _]. simpl in Hx1.
  now rewrite !put_rows_other.
Qed.

Lemma iterate_with_other steps cfg n k s s' i :
  iterate_with steps cfg n k s = Ok s' ->
  i ∉ c_free cfg ->
  x s' !! i = x s !! i /\ v s' !! i = v s !! i.
Proof.
  revert k s. induction n as [|n IH]; intros k s Hrun Hi; simpl in Hrun.
  - now injection Hrun as <-.
  - destruct (iteration_with steps cfg k s) as [[s1 stop]|e] eqn:E1; [|discriminate].
    destruct (iteration_with_other _ _ _ _ _ _ _ E1 Hi) as [Hx Hv].
    destruct stop.
    + injection Hrun as <-. auto.
    + destruct (IH _ _ Hrun Hi) as [Hx' Hv']. split; congruence.
Qed.

(** what [configure] returns, when [Coeff] returns *)
Lemma configure_Ok (inp : Input F) cfg :
  configure inp = Ok cfg ->
  exists coeff,
    mkCoeff (get (kwargs inp) "c" (PyFloat (lit 1 10))) = Ok coeff
    /\ c_free cfg = free_of (length (vertices inp)) (fixed inp)
    /\ c_p cfg = loads inp
    /\ c_qpre cfg = qpre inp /\ c_fpre cfg = fpre inp /\ c_lpre cfg = lpre inp
    /\ c_linit cfg = (if forallb (fun y => feq y (ofZ 0)) (linit inp)
                      then normrow (spmv3 (connectivity_matrix (edges inp)) (vertices inp))
                      else linit inp)
    /\ c_EA cfg = EA_of inp
    /\ c_C cfg = connectivity_matrix (edges inp)
    /\ c_Ct cfg = transpose (length (vertices inp)) (connectivity_matrix (edges inp))
    /\ c_Ct2 cfg = square_data (c_Ct cfg)
    /\ c_dt cfg = get (kwargs inp) "dt" (PyFloat (ofZ 1))
    /\ c_tol1 cfg = get (kwargs inp) "tol1" (PyFloat (lit 1 1000))
    /\ c_tol2 cfg = get (kwargs inp) "tol2" (PyFloat (lit 1 1000000))
    /\ c_ca cfg = Coeff_a coeff /\ c_cb cfg = Coeff_b coeff
    /\ c_callback cfg = callback inp.
Proof.
  unfold configure, and_then. intros Hcfg.
  destruct (mkCoeff _) as [coeff|e]; [|discriminate].
  injection Hcfg as <-. exists coeff. cbn. auto 20.
Qed.

Lemma c_free_configure (inp : Input F) cfg :
  configure inp = Ok cfg ->
  c_free cfg = free_of (length (vertices inp)) (fixed inp).
Proof. intros H. now apply configure_Ok in H as (coeff & _ & H & _). Qed.

Lemma c_callback_configure (inp : Input F) cfg :
  configure inp = Ok cfg -> c_callback cfg = callback inp.
Proof.
  unfold configure, and_then. destruct (mkCoeff _) as [coeff|e]; [|discriminate].
  now intros [= <-].
Qed.

(** the call as a whole: what it has gone through when it returns *)
Lemma dr_run_Ok (inp : Input F) s :
  dr_run inp = Ok s ->
  callback inp <> NotCallable
  /\ exists cfg z, configure inp = Ok cfg
       /\ get (kwargs inp) "kmax" (PyInt 10000) = PyInt z
       /\ iterate cfg (Z.to_nat z) 0 (initial inp) = Ok s.
Proof.
  unfold dr_run, and_then. intros Hrun.
  destruct (callback inp); try discriminate;
    (split; [discriminate|]);
    destruct (configure inp) as [cfg|e]; try discriminate;
    destruct (get (kwargs inp) "kmax" (PyInt 10000)) as [z|y]; try discriminate;
    exists cfg, z; auto.
Qed.

(** and the other way round *)
Lemma dr_run_reaches_loop (inp : Input F) cfg z :
  callback inp <> NotCallable ->
  configure inp = Ok cfg ->
  get (kwargs inp) "kmax" (PyInt 10000) = PyInt z ->
  dr_run inp = iterate cfg (Z.to_nat z) 0 (initial inp).
Proof.
  unfold dr_run, and_then. intros Hcb -> ->.
  destruct (callback inp); try reflexivity. contradiction.
Qed.
End LoopFacts.
End LoopFacts.

(** ** Fixed rows *)

Module FixedRows.
Import DR Inv ListFacts LoopFacts.

Lemma pinned_after {F : Type} {Ar : Arith F} (inp : Input F) cfg n s i :
  configure inp = Ok cfg ->
  iterate cfg n 0 (initial inp) = Ok s ->
  i ∈ fixed inp -> pinned inp s i.
Proof.
  intros Hcfg Hrun Hi. unfold iterate in Hrun.
  apply iterate_with_other with (i := i) in Hrun.
  - exact Hrun.
  - rewrite (c_free_configure inp cfg Hcfg). now apply fixed_not_free.
Qed.

(** C2, as the spec states it, fails for [r]: after one pass over the bar
    in equilibrium, row 0 of [r], a fixed vertex, holds the reaction
    (1, 0, 0) and not the zeros it was seeded with. *)
Lemma fixed_row_of_r_rewritten :
  exists s, dr_run (Ex.bar {[ "kmax" := PyInt 1 ]}) = Ok s
    /\ 0%nat ∈ fixed (Ex.bar {[ "kmax" := PyInt 1 ]})
    /\ ~ pinned_r (Ex.bar {[ "kmax" := PyInt 1 ]}) s 0.
Proof.
  eexists. split; [vm_compute; reflexivity|]. split; [left|].
  intros [_ Hr].
  apply (f_equal (fun o : option (Vec3 float) =>
                    match o with Some u => PrimFloat.eqb u.1.1 0 | None => false end)) in Hr.
  vm_compute in Hr. discriminate.
Qed.

(** C2 (amended): for every well-shaped input and after any number of
    passes of the loop, the rows of [x] and of [v] at the indices in
    [fixed] are what they were before the first pass: the caller's
    positions for [x], zeros for [v].  [cfg] is what the call has bound
    before the loop. *)
Theorem fixed_rows_of_x_v_unchanged {F : Type} {Ar : Arith F}
    (inp : Input F) (cfg : Config F) (n : nat) (s : State F) (i : nat) :
  well_shaped inp = true ->
  configure inp = Ok cfg ->
  iterate cfg n 0 (initial inp) = Ok s ->
  i ∈ fixed inp ->
  x s !! i = vertices inp !! i /\
  v s !! i = zeros (length (vertices inp)) !! i.
Proof. intros _. apply pinned_after. Qed.

Lemma fixed_rows_of_x_v_unchanged_witness :
  exists cfg s, configure (Ex.bar2 ∅) = Ok cfg
    /\ iterate cfg 3 0 (initial (Ex.bar2 ∅)) = Ok s
    /\ x s !! 0%nat = vertices (Ex.bar2 ∅) !! 0%nat
    /\ v s !! 0%nat = zeros (length (vertices (Ex.bar2 ∅))) !! 0%nat.
Proof.
  do 2 eexists. split; [vm_compute; reflexivity|].
  split; [vm_compute; reflexivity|].
  eapply (fixed_rows_of_x_v_unchanged (Ex.bar2 ∅) _ 3 _ 0%nat).
  - reflexivity.
  - vm_compute; reflexivity.
  - vm_compute; reflexivity.
  - left.
Defined.

(** the same for the function as a whole *)
Lemma dr_run_pinned {F : Type} {Ar : Arith F} (inp : Input F) s i :
  dr_run inp = Ok s -> i ∈ fixed inp -> pinned inp s i.
Proof.
  intros Hrun Hi. apply dr_run_Ok in Hrun as (_ & cfg & z & Hcfg & _ & Hrun).
  eauto using pinned_after.
Qed.
End FixedRows.

(** ** The options *)

Module Options.
Import DR Spec Inv LoopFacts.

Section Generic.
Context {F : Type} {Ar : Arith F}.

Lemma get_insert_ne (kw : gmap string (pyval F)) key key' w d :
  key <> key' -> get (<[key := w]> kw) key' d = get kw key' d.
Proof. intros Hne. unfold get. now rewrite lookup_insert_ne. Qed.

Lemma configure_steps (inp : Input F) w :
  configure (with_kwargs inp (<["steps" := w]> (kwargs inp))) = configure inp.
Proof.
  unfold configure, with_kwargs. simpl.
  now rewrite !get_insert_ne by discriminate.
Qed.

Lemma dr_run_steps_4 (inp : Input F) :
  dr_run_steps (with_kwargs inp (<["steps" := PyInt 4]> (kwargs inp))) = dr_run inp.
Proof.
  unfold dr_run_steps, dr_run. rewrite configure_steps.
  unfold with_kwargs at 1 2 3. simpl.
  rewrite get_insert_ne by discriminate.
  unfold steps_option, get. rewrite lookup_insert_eq. reflexivity.
Qed.
End Generic.

(** C4, as the spec states it, fails: a caller's [steps=1] gives the
    result of four stages, not of one. *)
Lemma steps_option_not_read :
  steps_option (F := float) {[ "kmax" := PyInt 1; "steps" := PyInt 1 ]} = 1
  /\ dr_run (Ex.bar2 {[ "kmax" := PyInt 1; "steps" := PyInt 1 ]})
     <> dr_run_steps (Ex.bar2 {[ "kmax" := PyInt 1; "steps" := PyInt 1 ]}).
Proof.
  split; [reflexivity|]. intros H.
  apply (f_equal (fun o : result (State float) =>
           match o with
           | Ok s => PrimFloat.ltb (row (x s) 1).1.1 2
           | Raise _ => false
           end)) in H.
  vm_compute in H. discriminate.
Qed.

(** C4 (amended): [dr_numpy] reads no option [steps].  Whatever value the
    caller passes for it, the run is the run without it, and that is the
    run the spec describes for [steps = 4]: every pass uses four stages. *)
Theorem steps_option_ignored {F : Type} {Ar : Arith F} (inp : Input F) (w : pyval F) :
  dr_run (with_kwargs inp (<["steps" := w]> (kwargs inp))) = dr_run inp
  /\ dr_numpy (with_kwargs inp (<["steps" := w]> (kwargs inp))) = dr_numpy inp
  /\ dr_run inp = dr_run_steps (with_kwargs inp (<["steps" := PyInt 4]> (kwargs inp))).
Proof.
  assert (Hrun : dr_run (with_kwargs inp (<["steps" := w]> (kwargs inp))) = dr_run inp).
  { unfold dr_run. rewrite configure_steps.
    unfold with_kwargs at 1 2. simpl. now rewrite get_insert_ne by discriminate. }
  split; [exact Hrun|]. split.
  - unfold dr_numpy. now rewrite Hrun.
  - symmetry. apply dr_run_steps_4.
Qed.

(** C7, as the spec states it, fails: each of these calls has a bad
    option and returns a result. *)
Lemma bad_options_accepted :
  Forall (fun kw => bad_options kw = true
                    /\ exists out, dr_numpy (Ex.bar2 kw) = Ok out)
    [ {[ "kmax" := PyInt 0 ]};
      {[ "kmax" := PyInt 1; "dt" := PyInt (-1) ]};
      {[ "kmax" := PyInt 1; "tol1" := PyInt (-1) ]};
      {[ "kmax" := PyInt 1; "tol2" := PyInt 0 ]};
      {[ "kmax" := PyInt 1; "steps" := PyInt 3 ]};
      {[ "kmax" := PyInt 1; "c" := PyInt (-1) ]} ].
Proof.
  repeat constructor; try (vm_compute; reflexivity);
    eexists; vm_compute; reflexivity.
Qed.

(** what can stop [Coeff]: the conversion of an integer [c], and the
    division when [1 + c * 0.5] is zero *)
Lemma mkCoeff_raises {F : Type} {Ar : Arith F} (c : pyval F) e :
  mkCoeff c = Raise e ->
  to_float c = Raise e
  \/ (e = ZeroDivisionError
      /\ exists y, to_float c = Ok y /\ feq (fadd f1 (fmul y f0_5)) f0 = true).
Proof.
  unfold mkCoeff, mul_float, float_div, and_then.
  destruct (to_float c) as [y|e']; [|intros [= <-]; now left].
  destruct (feq _ f0) eqn:Ez; [|discriminate].
  intros [= <-]. right. eauto.
Qed.

(** C7 (amended): [dr_numpy] checks the value of no option.  On a
    well-shaped input, when the callback is absent or callable and [kmax]
    is an integer, one statement can raise before the loop: the call of
    [Coeff], by OverflowError on an integer [c] that no float holds and
    by ZeroDivisionError when [1 + c * 0.5] is zero ([c = -2]); the
    exception is then the one of the call.  For every other [c], negative
    ones included, and whatever [dt], [tol1], [tol2], [steps] and [kmax]
    are, nothing is raised before the loop: the call is the loop of
    [kmax] passes on the initial state, and with [kmax < 1] it returns
    that state: the positions as given, [q] all ones, [f = q * l] and [l]
    the lengths of the edges, [r] zero. *)
Theorem options_not_validated {F : Type} {Ar : Arith F} (inp : Input F) (z : Z) :
  well_shaped inp = true ->
  callback inp <> NotCallable ->
  get (kwargs inp) "kmax" (PyInt 10000) = PyInt z ->
  match mkCoeff (get (kwargs inp) "c" (PyFloat (lit 1 10))) with
  | Raise e =>
      dr_run inp = Raise e /\ (e = OverflowError \/ e = ZeroDivisionError)
  | Ok _ =>
      exists cfg, configure inp = Ok cfg
        /\ dr_run inp = iterate cfg (Z.to_nat z) 0 (initial inp)
        /\ (z < 1 -> dr_run inp = Ok (initial inp))
  end.
Proof.
  intros _ Hcb Hk.
  destruct (mkCoeff _) as [coeff|e] eqn:Ec.
  - assert (exists cfg, configure inp = Ok cfg) as [cfg Hcfg].
    { unfold configure, and_then. rewrite Ec. eauto. }
    exists cfg. split; [exact Hcfg|].
    rewrite (dr_run_reaches_loop inp cfg z Hcb Hcfg Hk). split; [reflexivity|].
    intros Hz. now replace (Z.to_nat z) with 0%nat by lia.
  - split.
    + unfold dr_run, configure, and_then. rewrite Ec.
      destruct (callback inp); try reflexivity. contradiction.
    + apply mkCoeff_raises in Ec as [Hc|[-> _]]; [left|now right].
      unfold to_float in Hc.
      destruct (get (kwargs inp) "c" _) as [zc|y]; [|discriminate].
      destruct (isinf _); [now injection Hc as <-|discriminate].
Qed.

Lemma options_not_validated_witness :
  exists cfg,
    configure (Ex.bar2 {[ "kmax" := PyInt 0; "dt" := PyInt (-1) ]}) = Ok cfg
    /\ dr_run (Ex.bar2 {[ "kmax" := PyInt 0; "dt" := PyInt (-1) ]})
       = iterate cfg (Z.to_nat 0) 0
           (initial (Ex.bar2 {[ "kmax" := PyInt 0; "dt" := PyInt (-1) ]}))
    /\ (0 < 1 -> dr_run (Ex.bar2 {[ "kmax" := PyInt 0; "dt" := PyInt (-1) ]})
                 = Ok (initial (Ex.bar2 {[ "kmax" := PyInt 0; "dt" := PyInt (-1) ]}))).
Proof.
  exact (options_not_validated (Ex.bar2 {[ "kmax" := PyInt 0; "dt" := PyInt (-1) ]}) 0
           eq_refl ltac:(discriminate) eq_refl).
Defined.
End Options.

(** ** The Runge-Kutta helper against the table of the spec *)

Module Tableau.
Import DR Spec Ex2.

(** C5, as the spec states it, fails for two stages (and for one): on the
    bar pulled with twice its load, the velocity increment of [rk] is not
    the one of the table. *)
Lemma rk_differs_from_table :
  rk env2 x2 v_zero 2 (x2, r2) <> rk_spec env2 x2 v_zero 2 (x2, r2)
  /\ rk env2 x2 v_unit 1 (x2, r2) <> rk_spec env2 x2 v_unit 1 (x2, r2).
Proof.
  split; intros H;
    apply (f_equal (fun o : result (Mat3 float * Scratch float) =>
             match o with
             | Ok (dv, _) => PrimFloat.ltb (row dv 1).1.1 0x1p-1
             | Raise _ => false
             end)) in H;
    vm_compute in H; discriminate.
Qed.

(** C5 (amended): for [steps = 2] the helper [rk] is the midpoint rule,
    [K0 = dt a(0 dt, v0)], [K1 = dt a(0.5 dt, v0 + 0.5 K0)],
    [dv = 0 K0 + 1 K1]; for [steps = 4] it is the classical four-stage
    rule with the abscissae 0, 0.5, 0.5, 1 and the weights 1/6, 1/3, 1/3,
    1/6 of the spec, the zero entries of the tableau being part of the
    sums; for a value other than 1, 2 and 4 it raises
    NotImplementedError. *)
Theorem rk_follows_tableau {F : Type} {Ar : Arith F}
    (env : Env F) (x0 v0 : Mat3 F) (steps : Z) (xr : Scratch F) :
  steps <> 1 ->
  rk env x0 v0 steps xr =
    if steps =? 2 then rk_tableau env x0 v0 midpoint.1 midpoint.2 xr
    else if steps =? 4 then rk_tableau env x0 v0 rk4.1 rk4.2 xr
    else Raise NotImplementedError.
Proof.
  intros H1. unfold rk. destruct xr as [x1 r1].
  destruct (Z.eqb_spec steps 1) as [|_]; [contradiction|].
  destruct (steps =? 2); [reflexivity|].
  destruct (steps =? 4); reflexivity.
Qed.

(** [env2] is what the first pass over the bar makes *)
Lemma env2_made : first_env (Ex.bar2 ∅) = Ok env2.
Proof. vm_compute; reflexivity. Qed.

Lemma rk_follows_tableau_witness :
  rk env2 x2 v_zero 2 (x2, r2) = rk_tableau env2 x2 v_zero midpoint.1 midpoint.2 (x2, r2).
Proof.
  apply (rk_follows_tableau env2 x2 v_zero 2 (x2, r2)). discriminate.
Defined.
End Tableau.

(** ** Smoothing reads the live lists *)

Module Aliasing.
Import Smooth Ex2.
Local Open Scope float_scope.

(** C9: [vertices_0] holds the same list objects as [vertices], so a
    vertex visited later in a pass sees the positions written earlier in
    that pass.  With two free vertices at 0 and 1 on the x axis, damping
    0.5, one pass: vertex 0 moves to 0.5; vertex 1 is then drawn towards
    0.5 and lands on 0.75.  From the positions frozen at the start of the
    pass it would land on 0.5.  [smooth_centerofmass] runs the same loop:
    whatever the centre-of-mass function [com], the target of vertex 1 is
    computed from the position vertex 0 has just been given. *)
Theorem smoothing_reads_updated_neighbours :
  smooth_centroid pair_vertices pair_adjacency [] 1 0x1p-1 DR.NoCallback pair_heap
    = Ok [(0x1p-1, 0, 0); (0x1.8p-1, 0, 0)]
  /\ passes_jacobi centroid_points pair_vertices pair_adjacency [] 0x1p-1 1 pair_heap
    = Ok [(0x1p-1, 0, 0); (0x1p-1, 0, 0)]
  /\ forall com : list (Vec3 float) -> result (Vec3 float),
      smooth_centerofmass com pair_vertices pair_adjacency [] 1 0x1p-1 DR.NoCallback pair_heap
      = match com [(1, 0, 0)] with
        | Raise e => Raise e
        | Ok c =>
            let moved := bump 0x1p-1 c 0 0 pair_heap in
            match com [row moved 0] with
            | Raise e => Raise e
            | Ok c' => Ok (bump 0x1p-1 c' 1 1 moved)
            end
        end.
Proof.
  split; [vm_compute; reflexivity|]. split; [vm_compute; reflexivity|].
  intros com. unfold smooth_centerofmass, smooth_with, passes, pass, visit.
  cbn [pair_vertices pair_adjacency lookup_key Nat.eqb gather mbind option_bind].
  destruct (decide (0%nat ∈ [])) as [H|_]; [inversion H|].
  destruct (decide (1%nat ∈ [])) as [H|_]; [inversion H|].
  cbn. destruct (com _) as [c|e]; [|reflexivity].
  cbn. destruct (com _) as [c'|e]; reflexivity.
Qed.
End Aliasing.

(** ** Binary64: zeros, NaN and the unit *)

Module FloatFacts.
Import FloatInv.
Local Open Scope float_scope.

Lemma f0_float : f0 (F := float) = 0.
Proof. reflexivity. Qed.

Lemma f1_float : f1 (F := float) = 1.
Proof. reflexivity. Qed.

Lemma zn_zero : zero_or_nan 0 = true.
Proof. reflexivity. Qed.

Lemma zn_nan : zero_or_nan nan = true.
Proof. reflexivity. Qed.

Lemma mul_zn_l y z : zero_or_nan y = true -> zero_or_nan (y * z) = true.
Proof.
  unfold zero_or_nan. rewrite FloatAxioms.mul_spec.
  destruct (Prim2SF y), (Prim2SF z); simpl; congruence.
Qed.

Lemma mul_zn_r y z : zero_or_nan z = true -> zero_or_nan (y * z) = true.
Proof.
  unfold zero_or_nan. rewrite FloatAxioms.mul_spec.
  destruct (Prim2SF y), (Prim2SF z); simpl; congruence.
Qed.

Lemma add_zn y z :
  zero_or_nan y = true -> zero_or_nan z = true -> zero_or_nan (y + z) = true.
Proof.
  unfold zero_or_nan. rewrite FloatAxioms.add_spec.
  destruct (Prim2SF y) as [[]| | |], (Prim2SF z) as [[]| | |]; simpl; congruence.
Qed.

Lemma sub_zn y z :
  zero_or_nan y = true -> zero_or_nan z = true -> zero_or_nan (y - z) = true.
Proof.
  unfold zero_or_nan. rewrite FloatAxioms.sub_spec.
  destruct (Prim2SF y) as [[]| | |], (Prim2SF z) as [[]| | |]; simpl; congruence.
Qed.

Lemma div_zn y z : zero_or_nan y = true -> zero_or_nan (y / z) = true.
Proof.
  unfold zero_or_nan. rewrite FloatAxioms.div_spec.
  destruct (Prim2SF y), (Prim2SF z); simpl; congruence.
Qed.

(** zero over zero, and anything with a NaN in it *)
Lemma div_zn_zn y z : zero_or_nan y = true -> zero_or_nan z = true -> y / z = nan.
Proof.
  unfold zero_or_nan. intros Hy Hz. apply Prim2SF_inj. rewrite FloatAxioms.div_spec.
  destruct (Prim2SF y), (Prim2SF z); try discriminate; reflexivity.
Qed.

Lemma add_nan_r y : y + nan = nan.
Proof.
  apply Prim2SF_inj. rewrite FloatAxioms.add_spec.
  destruct (Prim2SF y) as [[]|[]| |]; reflexivity.
Qed.

Lemma mul_nan_r y : y * nan = nan.
Proof.
  apply Prim2SF_inj. rewrite FloatAxioms.mul_spec.
  destruct (Prim2SF y) as [[]|[]| |]; reflexivity.
Qed.

Lemma mul_nan_l y : nan * y = nan.
Proof.
  apply Prim2SF_inj. rewrite FloatAxioms.mul_spec.
  destruct (Prim2SF y) as [[]|[]| |]; reflexivity.
Qed.

Lemma is_nan_SF y :
  PrimFloat.is_nan y = match Prim2SF y with S754_nan => true | _ => false end.
Proof.
  unfold PrimFloat.is_nan. rewrite FloatAxioms.eqb_spec.
  destruct (Prim2SF y) as [[]|[]| |s m e]; try reflexivity.
  unfold SFeqb, SFcompare.
  destruct s; rewrite Z.compare_refl, Pos.compare_cont_refl; reflexivity.
Qed.

Lemma is_infinity_SF y :
  PrimFloat.is_infinity y
  = match Prim2SF y with S754_infinity _ => true | _ => false end.
Proof.
  unfold PrimFloat.is_infinity. rewrite FloatAxioms.eqb_spec, FloatAxioms.abs_spec.
  destruct (Prim2SF y) as [[]|[]| |s m e]; reflexivity.
Qed.

(** a quotient by zero is infinite or NaN, and cleaned to zero *)
Lemma clean_div_zero y d :
  (exists s, Prim2SF d = S754_zero s) -> clean (F := float) (y / d) = 0.
Proof.
  intros [s Hd]. unfold clean. simpl. rewrite is_infinity_SF.
  assert (H : Prim2SF (y / d) = S754_nan \/ exists s', Prim2SF (y / d) = S754_infinity s').
  { rewrite FloatAxioms.div_spec, Hd. destruct (Prim2SF y); simpl; eauto. }
  destruct H as [H|[s' H]]; rewrite H.
  - rewrite is_nan_SF, H. reflexivity.
  - reflexivity.
Qed.

Lemma clean_zn y : zero_or_nan y = true -> zero_or_nan (clean (F := float) y) = true.
Proof.
  unfold zero_or_nan, clean. simpl. rewrite is_infinity_SF.
  destruct (Prim2SF y) eqn:Ey; try discriminate; intros _.
  - rewrite is_nan_SF, Ey, Ey. reflexivity.
  - rewrite is_nan_SF, Ey. reflexivity.
Qed.

(** what has been cleaned is finite *)
Lemma clean_is_finite y : finite (clean (F := float) y) = true.
Proof.
  unfold finite, clean. simpl. rewrite (is_infinity_SF y).
  destruct (Prim2SF y) eqn:Ey;
    repeat (rewrite ?is_nan_SF, ?is_infinity_SF, ?Ey; cbv iota); reflexivity.
Qed.

(** multiplying by 1.0 is exact: the mantissa is shifted by 52 bits and
    rounded back *)
Lemma round_shifted s m e :
  SpecFloat.bounded prec emax m e = true ->
  binary_round_aux prec emax s (Zpos (Pos.mul 4503599627370496 m)) (-52 + e) loc_Exact
  = S754_finite s m e.
Proof.
  unfold SpecFloat.bounded, canonical_mantissa. intros H.
  apply andb_prop in H as [Hc Hb]. apply Z.eqb_eq in Hc.
  unfold binary_round_aux, shr_fexp.
  lazy [Pos.mul]. cbn [SpecFloat.Zdigits2 SpecFloat.digits2_pos].
  repeat rewrite Pos2Z.inj_succ.
  remember (Z.pos (digits2_pos m)) as d eqn:Hd.
  change IntDef.Z.add with Z.add in Hc.
  match goal with
  | |- context [fexp prec emax (?t + (-52 + e))%Z] =>
      replace (t + (-52 + e))%Z with (d + e)%Z by lia
  end.
  rewrite Hc.
  change IntDef.Z.sub with Z.sub. change IntDef.Z.add with Z.add.
  replace (e - (-52 + e))%Z with 52%Z by lia.
  cbn [SpecFloat.shr SpecFloat.shr_record_of_loc SpecFloat.iter_pos SpecFloat.shr_1 orb].
  cbn [SpecFloat.loc_of_shr_record SpecFloat.shr_m SpecFloat.round_nearest_even SpecFloat.Zdigits2].
  rewrite <- Hd. change IntDef.Z.add with Z.add.
  replace (-52 + e + 52)%Z with e by lia. rewrite Hc.
  change IntDef.Z.sub with Z.sub. rewrite Z.sub_diag. cbn [SpecFloat.shr SpecFloat.shr_m].
  now rewrite Hb.
Qed.

Lemma mul_1_l y : 1 * y = y.
Proof.
  apply Prim2SF_inj. rewrite FloatAxioms.mul_spec.
  pose proof (Prim2SF_valid y) as V.
  change (Prim2SF 1) with (S754_finite false 4503599627370496 (-52)).
  destruct (Prim2SF y) as [s|s| |s m e]; try reflexivity.
  unfold SF64mul, SFmul. apply round_shifted. exact V.
Qed.
End FloatFacts.

(** ** Values that are not cleaned *)

Module NotCleaned.
Import DR Ex.
Local Open Scope float_scope.

(** the two laws that the loop cleans are finite in every row *)
Lemma cleaned_laws_finite (cfg : Config float) (s : State float) :
  Forall (fun y => finite y = true) (q_lpre_of cfg s)
  /\ Forall (fun y => finite y = true) (q_EA_of cfg s).
Proof.
  unfold q_lpre_of, q_EA_of.
  split; apply Forall_forall; intros y Hy;
    apply list_elem_of_In, in_map_iff in Hy as (z & <- & _);
    apply FloatFacts.clean_is_finite.
Qed.

(** C1: the code does not clean [fpre / l].  On an edge whose ends
    coincide, [l = 0] and the contribution is 0/0 = NaN, so the [q] of
    the first pass is NaN; the residual of the free vertex is NaN then,
    [norm] refuses it, and the call ends with ValueError instead of
    arrays of finite numbers. *)
Theorem q_fpre_not_cleaned :
  l (initial collapsed) = [0]
  /\ (exists cfg, configure collapsed = Ok cfg
        /\ q_fpre_of cfg (initial collapsed) = [nan]
        /\ q_of cfg (initial collapsed) = [nan])
  /\ dr_numpy collapsed = Raise ValueError.
Proof.
  split; [reflexivity|]. split; [|vm_compute; reflexivity].
  eexists. split; [vm_compute; reflexivity|].
  split; vm_compute; reflexivity.
Qed.

(** C6: the code does not clean [EA / linit] in the mass.  With the
    initial length of one edge zero and that of the other set, the mass
    of both ends of the first edge is NaN. *)
Theorem mass_not_cleaned :
  linit partial_linit = [0; 1]
  /\ exists cfg mass,
       configure partial_linit = Ok cfg
       /\ c_linit cfg = [0; 1]
       /\ q_EA_of cfg (initial partial_linit) = [0; 0]
       /\ mass_of cfg (initial partial_linit) = Ok mass
       /\ mass = [nan; nan; 0x1p-1]
       /\ map finite mass = [false; false; true].
Proof.
  split; [reflexivity|]. do 2 eexists.
  split; [vm_compute; reflexivity|].
  split; [vm_compute; reflexivity|].
  split; [vm_compute; reflexivity|].
  split; [vm_compute; reflexivity|].
  split; vm_compute; reflexivity.
Qed.
End NotCleaned.

(** ** Arrays of zeros and NaN *)

Module ZnFacts.
Import DR FloatInv FloatFacts ListFacts.
Local Open Scope float_scope.

Lemma fold_left_inv {A B} (P : A -> Prop) (g : A -> B -> A) (xs : list B) (init : A) :
  P init -> (forall acc y, P acc -> y ∈ xs -> P (g acc y)) -> P (fold_left g xs init).
Proof.
  revert init. induction xs as [|y xs IH]; intros init H0 Hstep; simpl; [exact H0|].
  apply IH.
  - apply Hstep; [exact H0|left].
  - intros acc z Hacc Hz. apply Hstep; [exact Hacc|now right].
Qed.

Lemma zn_col_replicate n : zn_col (replicate n 0).
Proof. apply Forall_replicate. reflexivity. Qed.

Lemma zn_col_zip_with_l (g : float -> float -> float) c1 c2 :
  (forall y z, zero_or_nan y = true -> zero_or_nan (g y z) = true) ->
  zn_col c1 -> zn_col (zip_with g c1 c2).
Proof.
  intros Hg H. revert c2. induction H as [|y c1 Hy _ IH]; intros [|z c2]; simpl;
    try (constructor; fail).
  constructor; [now apply Hg|apply IH].
Qed.

Lemma zn_col_zip_with (g : float -> float -> float) c1 c2 :
  (forall y z, zero_or_nan y = true -> zero_or_nan z = true -> zero_or_nan (g y z) = true) ->
  zn_col c1 -> zn_col c2 -> zn_col (zip_with g c1 c2).
Proof.
  intros Hg H. revert c2. induction H as [|y c1 Hy _ IH]; intros [|z c2] H2; simpl;
    try (constructor; fail).
  inversion H2; subst. constructor; [now apply Hg|now apply IH].
Qed.

Lemma zn_col_map (g : float -> float) c :
  (forall y, zero_or_nan y = true -> zero_or_nan (g y) = true) ->
  zn_col c -> zn_col (map g c).
Proof.
  intros Hg H. induction H as [|y c Hy _ IH]; simpl; constructor; [now apply Hg|exact IH].
Qed.

(** [clean(f / lpre)] with every [lpre] zero *)
Lemma zn_col_clean_div_zeros c n :
  zn_col (map clean (zip_with fdiv c (replicate n 0))).
Proof.
  revert n. induction c as [|y c IH]; intros [|n]; simpl; constructor.
  - change (zero_or_nan (clean (F := float) (y / 0)) = true).
    rewrite clean_div_zero by (now exists false). reflexivity.
  - apply IH.
Qed.

Lemma zn_entry c j : zn_col c -> zero_or_nan (entry c j) = true.
Proof.
  intros H. unfold entry. destruct (c !! j) as [y|] eqn:Ej; simpl; [|reflexivity].
  unfold zn_col in H. rewrite Forall_lookup in H. eauto.
Qed.

Lemma zn_spmv1 A c : zn_col c -> zn_col (spmv1 A c).
Proof.
  intros Hc. unfold spmv1. apply Forall_forall. intros y Hy.
  apply list_elem_of_In, in_map_iff in Hy as (ro & <- & _).
  apply fold_left_inv; [reflexivity|].
  intros acc ce Hacc _. apply add_zn; [exact Hacc|].
  apply mul_zn_r. now apply zn_entry.
Qed.

Lemma zn3_zero3 : zn3 zero3.
Proof. repeat split. Qed.

Lemma zn_mat_zeros n : zn_mat (zeros n).
Proof. apply Forall_replicate, zn3_zero3. Qed.

Lemma zn_spmv3 A m : zn_sparse A -> zn_mat (spmv3 A m).
Proof.
  intros HA. unfold spmv3. apply Forall_forall. intros u Hu.
  apply list_elem_of_In, in_map_iff in Hu as (ro & <- & Hro).
  apply list_elem_of_In in Hro.
  pose proof (proj1 (Forall_forall _ _) HA ro Hro) as Hrow.
  apply fold_left_inv; [apply zn3_zero3|].
  intros [[a0 a1] a2] ce (H0 & H1 & H2) Hce.
  pose proof (proj1 (Forall_forall _ _) Hrow ce Hce) as Hv.
  destruct (row m ce.1) as [[m0 m1] m2].
  repeat split; simpl; apply add_zn; auto; now apply mul_zn_l.
Qed.

Lemma zn_accum k y acc :
  zero_or_nan y = true -> zn_row acc -> zn_row (accum k y acc).
Proof.
  intros Hy H. induction H as [|[k' s] acc Hs Hacc IH]; simpl.
  - constructor; [|constructor]. simpl. apply add_zn; [reflexivity|exact Hy].
  - destruct (Nat.eqb k k'); constructor; simpl; auto.
    apply add_zn; [exact Hs|exact Hy].
Qed.

Lemma zn_row_times_l ro B : zn_row ro -> zn_row (row_times ro B).
Proof.
  intros Hro. unfold row_times. apply fold_left_inv; [constructor|].
  intros acc ce Hacc Hce.
  pose proof (proj1 (Forall_forall _ _) Hro ce Hce) as Hv.
  apply fold_left_inv; [exact Hacc|].
  intros acc' kb Hacc' _. apply zn_accum; [|exact Hacc']. now apply mul_zn_l.
Qed.

Lemma zn_row_times_r ro B : zn_sparse B -> zn_row (row_times ro B).
Proof.
  intros HB. unfold row_times. apply fold_left_inv; [constructor|].
  intros acc ce Hacc _.
  assert (Hrow : zn_row (default [] (B !! ce.1))).
  { destruct (B !! ce.1) as [rb|] eqn:Eb; simpl; [|constructor].
    unfold zn_sparse in HB. rewrite Forall_lookup in HB. eauto. }
  apply fold_left_inv; [exact Hacc|].
  intros acc' kb Hacc' Hkb. apply zn_accum; [|exact Hacc'].
  apply mul_zn_r. exact (proj1 (Forall_forall _ _) Hrow kb Hkb).
Qed.

Lemma zn_spmm_l A B : zn_sparse A -> zn_sparse (spmm A B).
Proof.
  intros HA. unfold spmm. induction HA; simpl; constructor; auto using zn_row_times_l.
Qed.

Lemma zn_spmm_r A B : zn_sparse B -> zn_sparse (spmm A B).
Proof.
  intros HB. unfold spmm. induction A; simpl; constructor; auto using zn_row_times_r.
Qed.

Lemma zn_diags c : zn_col c -> zn_sparse (diags c).
Proof.
  intros Hc. unfold diags, zn_sparse. apply Forall_lookup. intros e ro He.
  apply list_lookup_imap_Some in He as (y & Ey & ->).
  constructor; [|constructor]. simpl.
  unfold zn_col in Hc. rewrite Forall_lookup in Hc. eauto.
Qed.

Lemma zn_mat_put_rows idx vals m :
  zn_mat vals -> zn_mat m -> zn_mat (put_rows idx vals m).
Proof.
  revert vals m. induction idx as [|i idx IH]; intros [|u vals] m Hv Hm; simpl; auto.
  inversion Hv; subst. apply IH; [assumption|]. now apply Forall_insert.
Qed.

Lemma zn3_row m i : zn_mat m -> zn3 (row m i).
Proof.
  intros H. unfold row. destruct (m !! i) as [u|] eqn:Ei; simpl; [|apply zn3_zero3].
  unfold zn_mat in H. rewrite Forall_lookup in H. eauto.
Qed.

Lemma zn_mat_take_rows idx m : zn_mat m -> zn_mat (take_rows idx m).
Proof.
  intros H. unfold take_rows. induction idx; simpl; constructor; auto using zn3_row.
Qed.

Lemma zn_mat_msub m n : zn_mat m -> zn_mat n -> zn_mat (msub m n).
Proof.
  intros H. revert n. induction H as [|[[a0 a1] a2] m (H0 & H1 & H2) _ IH];
    intros [|[[b0 b1] b2] n] Hn; simpl; try constructor; inversion Hn; subst.
  - destruct H4 as (G0 & G1 & G2). repeat split; simpl; now apply sub_zn.
  - now apply IH.
Qed.
End ZnFacts.

(** ** The loop on a network without load and prestress *)

Module SlackFacts.
Import DR FloatInv FloatFacts ListFacts ZnFacts.
Local Open Scope float_scope.

Lemma nan3_scaled t : map3 (fmul t) nan3 = nan3.
Proof. unfold nan3. simpl. now rewrite mul_nan_r. Qed.

Lemma nan3_times t : map3 (fun e => fmul e t) nan3 = nan3.
Proof. unfold nan3. simpl. now rewrite mul_nan_l. Qed.

Lemma add3_nan3 u : add3 u nan3 = nan3.
Proof. destruct u as [[u0 u1] u2]. unfold nan3, add3. simpl. now rewrite !add_nan_r. Qed.

Lemma mscale_l_nan t n : mscale_l t (replicate n nan3) = replicate n nan3.
Proof.
  unfold mscale_l. induction n as [|n IH]; [reflexivity|].
  cbn [replicate map]. now rewrite IH, nan3_scaled.
Qed.

Lemma madd_nan_r m n : length m = n -> madd m (replicate n nan3) = replicate n nan3.
Proof.
  unfold madd. revert n. induction m as [|u m IH]; intros [|n] Hn;
    cbn [length] in Hn; try reflexivity; try discriminate.
  cbn [replicate zip_with]. rewrite add3_nan3, IH by lia. reflexivity.
Qed.

Lemma madd_nan n : madd (replicate n nan3) (replicate n nan3) = replicate n nan3.
Proof. apply madd_nan_r, length_replicate. Qed.

Lemma mdiv_col_nan cb m c :
  zn_mat m -> zn_col c -> length m = length c ->
  mdiv_col (mscale_l cb m) c = replicate (length m) nan3.
Proof.
  unfold mdiv_col, mscale_l. intros Hm. revert c.
  induction Hm as [|[[u0 u1] u2] m (H0 & H1 & H2) _ IH]; intros [|d c] Hc Hlen;
    cbn [length] in Hlen; try reflexivity; try discriminate.
  inversion Hc; subst. cbn [map zip_with length replicate].
  rewrite IH by (assumption || lia).
  unfold nan3, map3. repeat f_equal; apply div_zn_zn; auto using mul_zn_r.
Qed.

Lemma length_take_rows idx (m : Mat3 float) : length (take_rows idx m) = length idx.
Proof. unfold take_rows. apply length_map. Qed.

Lemma take_rows_nan idx (m : Mat3 float) :
  (forall i, i ∈ idx -> m !! i = Some nan3) ->
  take_rows idx m = replicate (length idx) nan3.
Proof.
  unfold take_rows. induction idx as [|i idx IH]; intros H; [reflexivity|].
  cbn [map length replicate].
  rewrite IH by (intros j Hj; apply H; now right).
  unfold row. rewrite (H i) by left. reflexivity.
Qed.

Lemma take_rows_replicate idx n :
  Forall (fun i => (i < n)%nat) idx ->
  take_rows idx (replicate n nan3) = replicate (length idx) nan3.
Proof.
  intros H. apply take_rows_nan. intros i Hi.
  apply lookup_replicate_2. exact (proj1 (Forall_forall _ _) H i Hi).
Qed.

Lemma put_rows_replicate idx (u : Vec3 float) m i :
  i ∈ idx -> (i < length m)%nat ->
  put_rows idx (replicate (length idx) u) m !! i = Some u.
Proof.
  revert m. induction idx as [|j idx IH]; intros m Hi Hlt; [inversion Hi|].
  cbn [length replicate put_rows]. destruct (decide (i ∈ idx)) as [Hin|Hnin].
  - apply IH; [exact Hin|]. now rewrite length_insert.
  - apply elem_of_cons in Hi as [->|Hi]; [|contradiction].
    rewrite put_rows_other by exact Hnin. now apply list_lookup_insert_eq.
Qed.

Lemma length_spmv3 A (m : Mat3 float) : length (spmv3 A m) = length A.
Proof. unfold spmv3. apply length_map. Qed.

Lemma length_spmm (A B : Sparse float) : length (spmm A B) = length A.
Proof. unfold spmm. apply length_map. Qed.

Lemma length_msub (m n : Mat3 float) :
  length m = length n -> length (msub m n) = length m.
Proof. intros H. unfold msub. rewrite length_zip_with. lia. Qed.

(** *** what [configure] gives *)

Lemma configure_slack (inp : Input float) cfg :
  slack_data inp -> configure inp = Ok cfg ->
  slack_cfg (length (vertices inp)) cfg.
Proof.
  intros (Hp & Hq & Hf & Hl & _ & HEA) Hcfg.
  apply LoopFacts.configure_Ok in Hcfg
    as (coeff & _ & Hfree' & Hp' & Hq' & Hf' & Hl' & _ & HEA' & _ & HCt & HCt2 & _).
  unfold slack_cfg.
  rewrite Hfree', Hp', Hq', Hf', Hl', HEA', HCt2, HCt, HEA, Hp, Hq, Hf, Hl.
  repeat split; try apply zn_col_replicate.
  - eauto.
  - unfold transpose. now rewrite length_map, length_seq.
  - unfold square_data, transpose. now rewrite !length_map, length_seq.
  - apply Forall_forall. intros i Hi. now apply elem_of_free_of in Hi.
Qed.

Lemma initial_slack (inp : Input float) :
  slack_inv (length (vertices inp)) (initial inp).
Proof.
  unfold slack_inv, initial, zeros. simpl. rewrite !length_replicate.
  repeat split. apply zn_mat_zeros.
Qed.

(** *** the force densities, the mass, the operator D *)

Lemma zn_q_fpre nv cfg s : slack_cfg nv cfg -> zn_col (q_fpre_of cfg s).
Proof.
  intros (_ & _ & Hf & _). unfold q_fpre_of.
  apply zn_col_zip_with_l; [intros; now apply div_zn|exact Hf].
Qed.

Lemma zn_q_lpre nv cfg s : slack_cfg nv cfg -> zn_col (q_lpre_of cfg s).
Proof.
  intros (_ & _ & _ & [n Hl] & _). unfold q_lpre_of. rewrite Hl.
  apply zn_col_clean_div_zeros.
Qed.

Lemma zn_q_EA nv cfg s : slack_cfg nv cfg -> zn_col (q_EA_of cfg s).
Proof.
  intros (_ & _ & _ & _ & HEA & _). unfold q_EA_of.
  apply zn_col_map; [apply clean_zn|].
  apply zn_col_zip_with_l; [intros; now apply div_zn|].
  apply zn_col_zip_with_l; [intros; now apply mul_zn_l|exact HEA].
Qed.

Lemma zn_q nv cfg s : slack_cfg nv cfg -> zn_col (q_of cfg s).
Proof.
  intros H. pose proof H as (_ & Hq & _). unfold q_of.
  apply zn_col_zip_with; [intros; now apply add_zn| |eapply zn_q_EA; eauto].
  apply zn_col_zip_with; [intros; now apply add_zn| |eapply zn_q_lpre; eauto].
  apply zn_col_zip_with; [intros; now apply add_zn|exact Hq|eapply zn_q_fpre; eauto].
Qed.

(** whatever [0.5 * dt ** 2] is, the mass is zero or NaN in every row *)
Lemma zn_mass nv cfg s mass :
  slack_cfg nv cfg -> mass_of cfg s = Ok mass ->
  zn_col mass /\ length mass = nv.
Proof.
  intros H Hmass. pose proof H as (_ & Hq & _ & _ & HEA & _ & HCt2 & _).
  unfold mass_of, and_then in Hmass.
  destruct (pow2 (c_dt cfg)) as [dt2|e]; [|discriminate].
  destruct (float_mul f0_5 dt2) as [h|e]; [|discriminate].
  injection Hmass as <-. split.
  - apply zn_col_map; [intros; now apply mul_zn_r|].
    apply zn_spmv1.
    apply zn_col_zip_with; [intros; now apply add_zn| |].
    + apply zn_col_zip_with; [intros; now apply add_zn| |eapply zn_q_lpre; eauto].
      apply zn_col_zip_with; [intros; now apply add_zn|exact Hq|eapply zn_q_fpre; eauto].
    + apply zn_col_zip_with_l; [intros; now apply div_zn|exact HEA].
  - unfold spmv1. now rewrite !length_map.
Qed.

Lemma zn_D nv cfg s mass dt :
  slack_cfg nv cfg -> zn_sparse (e_D (env_of cfg s mass dt)).
Proof.
  intros H. simpl. apply zn_spmm_l, zn_spmm_r, zn_diags. eauto using zn_q.
Qed.

(** *** the acceleration is 0/0 in every entry *)

Lemma a_slack nv cfg s mass dt x0 t w x1 r1 :
  slack_cfg nv cfg -> zn_col mass -> length mass = nv ->
  zn_mat r1 -> length r1 = nv ->
  exists x' r',
    a (env_of cfg s mass dt) x0 t w (x1, r1) = Ok (replicate nv nan3, (x', r'))
    /\ length x' = length x1 /\ zn_mat r' /\ length r' = nv.
Proof.
  intros H Hm Hmlen Hr Hlen. pose proof H as (Hp & _).
  unfold a. cbn [e_free e_p e_cb e_mass env_of].
  eexists _, _. split; [|split; [|split]].
  - f_equal. f_equal.
    rewrite mdiv_col_nan.
    + now rewrite length_put_rows, Hlen.
    + apply zn_mat_put_rows; [|exact Hr].
      apply zn_mat_msub.
      * rewrite Hp. apply zn_mat_take_rows, zn_mat_zeros.
      * apply zn_spmv3. eapply (zn_D nv cfg s mass dt); eauto.
    + exact Hm.
    + rewrite length_put_rows. lia.
  - apply length_put_rows.
  - apply zn_mat_put_rows; [|exact Hr].
    apply zn_mat_msub.
    + rewrite Hp. apply zn_mat_take_rows, zn_mat_zeros.
    + apply zn_spmv3. eapply (zn_D nv cfg s mass dt); eauto.
  - rewrite length_put_rows. exact Hlen.
Qed.

Lemma rk4_slack nv cfg s mass dt x0 v0 x1 r1 :
  slack_cfg nv cfg -> zn_col mass -> length mass = nv ->
  zn_mat r1 -> length r1 = nv ->
  exists x' r',
    rk (env_of cfg s mass dt) x0 v0 4 (x1, r1) = Ok (replicate nv nan3, (x', r'))
    /\ length x' = length x1.
Proof.
  intros H Hm Hmlen Hr Hlen. unfold rk. cbn [Z.eqb Pos.eqb]. unfold bind.
  destruct (a_slack nv cfg s mass dt x0
              (fmul (Kij 0 0) (e_dt (env_of cfg s mass dt))) v0 x1 r1 H Hm Hmlen Hr Hlen)
    as (xa & ra & -> & Lxa & Hra & Lra).
  match goal with
  | |- context [a ?e ?y ?t ?w (xa, ra)] =>
      destruct (a_slack nv cfg s mass dt y t w xa ra H Hm Hmlen Hra Lra)
        as (xb & rb & -> & Lxb & Hrb & Lrb)
  end.
  match goal with
  | |- context [a ?e ?y ?t ?w (xb, rb)] =>
      destruct (a_slack nv cfg s mass dt y t w xb rb H Hm Hmlen Hrb Lrb)
        as (xc & rc & -> & Lxc & Hrc & Lrc)
  end.
  match goal with
  | |- context [a ?e ?y ?t ?w (xc, rc)] =>
      destruct (a_slack nv cfg s mass dt y t w xc rc H Hm Hmlen Hrc Lrc)
        as (xd & rd & -> & Lxd & Hrd & Lrd)
  end.
  exists xd, rd. split; [|congruence].
  unfold ret. rewrite !mscale_l_nan, !madd_nan. reflexivity.
Qed.

(** *** [norm] and NaN *)

Lemma norm_cases (m : Mat3 float) :
  (exists y, norm m = Ok y) \/ norm m = Raise ValueError.
Proof. unfold norm. destruct (forallb finite _); eauto. Qed.

Lemma norm_refuses_nan (m : Mat3 float) : nan3 ∈ m -> norm m = Raise ValueError.
Proof.
  intros Hin. unfold norm.
  destruct (forallb finite _) eqn:E; [|reflexivity]. exfalso.
  rewrite forallb_forall in E. specialize (E nan).
  assert (finite nan = true) as Hn; [|discriminate Hn].
  apply E, in_concat. exists (elems3 nan3). split; [|now left].
  apply in_map. now apply list_elem_of_In.
Qed.
End SlackFacts.

Module SlackLoop.
Import DR FloatInv FloatFacts ListFacts ZnFacts SlackFacts.
Local Open Scope float_scope.

(** the rows written by [m[free] = m0[free] + nan[free]] *)
Lemma put_free_nan nv free (m0 dm m : Mat3 float) i :
  Forall (fun j => (j < nv)%nat) free ->
  (forall j, j ∈ free -> dm !! j = Some nan3) ->
  length m = nv -> i ∈ free ->
  put_rows free (madd (take_rows free m0) (take_rows free dm)) m !! i = Some nan3.
Proof.
  intros Hfree Hdm Hlen Hi.
  rewrite (take_rows_nan free dm Hdm).
  rewrite madd_nan_r by apply length_take_rows.
  apply put_rows_replicate; [exact Hi|].
  rewrite Hlen. exact (proj1 (Forall_forall _ _) Hfree i Hi).
Qed.

(** A pass over such a network with a free vertex: once the mass is
    computed, [rk] returns NaN everywhere, the free rows of [v] and of
    [dx] are NaN, and one of the two calls of [norm] raises. *)
Lemma iteration_slack nv cfg k s mass dt :
  slack_cfg nv cfg -> slack_inv nv s -> c_free cfg <> [] ->
  mass_of cfg s = Ok mass -> to_float (c_dt cfg) = Ok dt ->
  (exists xr, rk (env_of cfg s mass dt) (x s) (mscale_l (c_ca cfg) (v s)) 4 (x s, r s)
              = Ok (replicate nv nan3, xr))
  /\ iteration cfg k s = Raise ValueError.
Proof.
  intros H (Lx & Lv & Lr & Hr) Hne Hmass Hdt.
  pose proof H as (Hp & _ & _ & _ & _ & HCt & _ & Hfree).
  destruct (zn_mass nv cfg s mass H Hmass) as [Hm Hmlen].
  destruct (rk4_slack nv cfg s mass dt (x s) (mscale_l (c_ca cfg) (v s)) (x s) (r s)
              H Hm Hmlen Hr Lr) as (x1 & r1 & Erk & Lx1).
  split; [eauto|].
  unfold iteration, iteration_with, and_then. rewrite Hmass, Hdt, Erk.
  assert (Hv : forall j, j ∈ c_free cfg ->
            put_rows (c_free cfg)
              (madd (take_rows (c_free cfg) (mscale_l (c_ca cfg) (v s)))
                    (take_rows (c_free cfg) (replicate nv nan3))) (v s) !! j = Some nan3).
  { intros j Hj. apply (put_free_nan nv); auto.
    intros j' Hj'. apply lookup_replicate_2.
    exact (proj1 (Forall_forall _ _) Hfree j' Hj'). }
  match goal with
  | |- match norm ?m with _ => _ end = _ =>
      destruct (norm_cases m) as [[crit1 ->]| ->]; [|reflexivity]
  end.
  rewrite norm_refuses_nan; [reflexivity|].
  rewrite (take_rows_nan (c_free cfg)).
  - destruct (c_free cfg); [contradiction|left].
  - intros j Hj. unfold mscale_r. rewrite lookup_map, (Hv j Hj).
    cbn [fmap option_fmap option_map]. now rewrite nan3_times.
Qed.
End SlackLoop.

(** ** The zero-load, zero-prestress law *)

Module Slack.
Import DR FloatInv ListFacts LoopFacts SlackFacts SlackLoop.
Local Open Scope float_scope.

(** C3, as the spec states it, fails: the call on the bar without load
    and prestress returns no positions at all.  In its first pass the free
    vertex gets the velocity and the position (NaN, NaN, NaN), and [norm]
    raises ValueError on them. *)
Lemma slack_bar_raises :
  slack_data (Ex.slack {[ "kmax" := PyInt 1 ]})
  /\ dr_numpy (Ex.slack {[ "kmax" := PyInt 1 ]}) = Raise ValueError
  /\ ~ exists s, dr_run (Ex.slack {[ "kmax" := PyInt 1 ]}) = Ok s
                 /\ motionless (Ex.slack {[ "kmax" := PyInt 1 ]}) s.
Proof.
  split; [repeat split|]. split; [vm_compute; reflexivity|].
  intros (s & Hrun & _). vm_compute in Hrun. discriminate.
Qed.

(** C3 (amended): on a well-shaped network with no load and no prestress
    ([loads], [qpre], [fpre], [lpre], [linit] and [EA] all zero), with a
    callback that is absent or callable and an integer [kmax], the call
    returns only when it makes no pass or no vertex is free, and what it
    returns then is the network as given, with zero velocities.  With a
    free vertex and [kmax >= 1] it raises: the fictitious mass is zero (or
    NaN), the acceleration [cb * r / mass] is 0/0 in every entry, [rk]
    returns NaN everywhere, and [norm] refuses the free rows; the
    exception is ValueError whenever [Coeff(c)] and [0.5 * dt ** 2] have
    been computed, as they are with the defaults.  This holds for all
    positions. *)
Theorem slack_network_raises (inp : Input float) (n : Z) :
  well_shaped inp = true ->
  slack_data inp ->
  callback inp <> NotCallable ->
  get (kwargs inp) "kmax" (PyInt 10000) = PyInt n ->
  (1 <= n -> free_of (length (vertices inp)) (fixed inp) <> [] ->
     (exists e, dr_run inp = Raise e)
     /\ forall cfg mass dt,
          configure inp = Ok cfg ->
          mass_of cfg (initial inp) = Ok mass ->
          to_float (c_dt cfg) = Ok dt ->
          (exists xr,
             rk (env_of cfg (initial inp) mass dt) (vertices inp)
                (mscale_l (c_ca cfg) (zeros (length (vertices inp)))) 4
                (vertices inp, zeros (length (vertices inp)))
             = Ok (replicate (length (vertices inp)) nan3, xr))
          /\ dr_run inp = Raise ValueError)
  /\ (forall s, dr_run inp = Ok s -> motionless inp s).
Proof.
  intros _ Hdata Hcb Hk.
  assert (Hpass : forall cfg mass dt m,
            configure inp = Ok cfg ->
            free_of (length (vertices inp)) (fixed inp) <> [] ->
            mass_of cfg (initial inp) = Ok mass ->
            to_float (c_dt cfg) = Ok dt ->
            (exists xr,
               rk (env_of cfg (initial inp) mass dt) (vertices inp)
                  (mscale_l (c_ca cfg) (zeros (length (vertices inp)))) 4
                  (vertices inp, zeros (length (vertices inp)))
               = Ok (replicate (length (vertices inp)) nan3, xr))
            /\ iterate cfg (S m) 0 (initial inp) = Raise ValueError).
  { intros cfg mass dt m Hcfg Hfree Hmass Hdt.
    rewrite <- (c_free_configure inp cfg Hcfg) in Hfree.
    destruct (iteration_slack (length (vertices inp)) cfg 0 (initial inp) mass dt
                (configure_slack inp cfg Hdata Hcfg) (initial_slack inp) Hfree Hmass Hdt)
      as [Hrk Hit].
    split; [exact Hrk|].
    unfold iterate. cbn [iterate_with]. unfold iteration in Hit. now rewrite Hit. }
  assert (Hret : forall s, dr_run inp = Ok s -> motionless inp s).
  { intros s Hrun.
    apply dr_run_Ok in Hrun as (_ & cfg & z & Hcfg & _ & Hrun).
    destruct (Z.to_nat z) as [|m].
    { injection Hrun as <-. split; reflexivity. }
    destruct (decide (free_of (length (vertices inp)) (fixed inp) = [])) as [Hnil|Hfree].
    - rewrite <- (c_free_configure inp cfg Hcfg) in Hnil.
      unfold iterate in Hrun. split; apply list_eq; intros i;
        apply (iterate_with_other _ _ _ _ _ _ i) in Hrun as [Hx Hv];
        try (rewrite Hnil; apply not_elem_of_nil); assumption.
    - exfalso. unfold iterate in Hrun. pose proof Hrun as Hrun'.
      cbn [iterate_with] in Hrun'.
      destruct (iteration_with 4 cfg 0 (initial inp)) as [[s1 stop]|e] eqn:E1;
        [|discriminate].
      apply iteration_with_Ok in E1
        as (mass & dt & dv & x1 & r1 & crit1 & crit2 & Hmass & Hdt & _).
      destruct (Hpass cfg mass dt m Hcfg Hfree Hmass Hdt) as [_ Hit].
      unfold iterate in Hit. rewrite Hit in Hrun. discriminate. }
  split; [|exact Hret].
  intros Hn Hfree. split.
  - destruct (dr_run inp) as [s|e] eqn:Hrun; [|eauto]. exfalso.
    pose proof (Hret s eq_refl) as _.
    apply dr_run_Ok in Hrun as (_ & cfg & z & Hcfg & Hz & Hrun).
    rewrite Hk in Hz. injection Hz as <-.
    destruct (Z.to_nat n) as [|m] eqn:En; [lia|].
    unfold iterate in Hrun. pose proof Hrun as Hrun'.
    cbn [iterate_with] in Hrun'.
    destruct (iteration_with 4 cfg 0 (initial inp)) as [[s1 stop]|e] eqn:E1;
      [|discriminate].
    apply iteration_with_Ok in E1
      as (mass & dt & dv & x1 & r1 & crit1 & crit2 & Hmass & Hdt & _).
    destruct (Hpass cfg mass dt m Hcfg Hfree Hmass Hdt) as [_ Hit].
    unfold iterate in Hit. rewrite Hit in Hrun. discriminate.
  - intros cfg mass dt Hcfg Hmass Hdt.
    destruct (Z.to_nat n) as [|m] eqn:En; [lia|].
    destruct (Hpass cfg mass dt m Hcfg Hfree Hmass Hdt) as [Hrk Hit].
    split; [exact Hrk|].
    now rewrite (dr_run_reaches_loop inp cfg n Hcb Hcfg Hk), En.
Qed.

Lemma slack_network_raises_witness :
  dr_run (Ex.slack {[ "kmax" := PyInt 3 ]}) = Raise ValueError.
Proof.
  destruct (slack_network_raises (Ex.slack {[ "kmax" := PyInt 3 ]}) 3) as [Hraise _].
  - reflexivity.
  - repeat split.
  - discriminate.
  - vm_compute; reflexivity.
  - destruct Hraise as [_ Hv]; [lia|discriminate|].
    eapply Hv; vm_compute; reflexivity.
Defined.
End Slack.

(** ** The seed of the force density and the first pass *)

Module Seed.
Import DR Ex FloatInv FloatFacts ListFacts LoopFacts.
Local Open Scope float_scope.

Lemma mul_m1_l y : (-1) * y = - y.
Proof.
  apply Prim2SF_inj. rewrite FloatAxioms.mul_spec, FloatAxioms.opp_spec.
  pose proof (Prim2SF_valid y) as V.
  change (Prim2SF (-1)) with (S754_finite true 4503599627370496 (-52)).
  destruct (Prim2SF y) as [s|s| |s m e]; try reflexivity.
  unfold SF64mul, SFmul. cbn [SFopp]. 
  change (xorb true s) with (negb s).
  apply round_shifted. exact V.
Qed.

(** [C.dot(x)] computes the difference of the two ends of an edge as
    [0 + (-1) * a + 1 * b]: that is [b - a], up to the sign of a zero,
    which a square does not see *)
Lemma sq_difference a b : sq (0 + (-1) * a + 1 * b) = sq (b - a).
Proof.
  rewrite mul_m1_l, mul_1_l. unfold sq. cbn [fmul float_arith].
  apply Prim2SF_inj.
  rewrite !FloatAxioms.mul_spec, !FloatAxioms.add_spec, FloatAxioms.sub_spec,
    FloatAxioms.opp_spec.
  change (Prim2SF 0) with (S754_zero false).
  destruct (Prim2SF a) as [sa|sa| |sa ma ea], (Prim2SF b) as [sb|sb| |sb mb eb];
    try destruct sa; try destruct sb; try reflexivity.
  all: cbn [SF64add SF64sub SFadd SFsub SFopp negb].
  all: rewrite (Z.min_comm eb ea).
  all: match goal with
       | |- SF64mul ?u ?u = SF64mul ?w ?w => replace u with w; [reflexivity|]
       end.
  all: f_equal; cbn [SpecFloat.cond_Zopp]; lia.
Qed.

Lemma norm3_difference (xi xj : Vec3 float) :
  norm3 (add3 (add3 zero3 (map3 (fmul (ofZ (-1))) xi)) (map3 (fmul (ofZ 1)) xj))
  = norm3 (sub3 xj xi).
Proof.
  destruct xi as [[a0 a1] a2], xj as [[b0 b1] b2].
  unfold norm3, add3, sub3, zip3, map3, zero3.
  change (ofZ (-1)) with (-1). change (ofZ 1) with 1.
  change (f0 (F := float)) with 0.
  change (fadd (F := float)) with PrimFloat.add.
  change (fsub (F := float)) with PrimFloat.sub.
  change (fmul (F := float)) with PrimFloat.mul.
  now rewrite !sq_difference.
Qed.

(** the initial lengths, edge by edge: the distance between the two ends
    as binary64 computes it *)
Lemma initial_length (inp : Input float) e i j :
  edges inp !! e = Some (i, j) ->
  l (initial inp) !! e
  = Some (norm3 (sub3 (row (vertices inp) j) (row (vertices inp) i))).
Proof.
  intros He. unfold initial. cbn [l].
  unfold normrow, spmv3, connectivity_matrix.
  rewrite !lookup_map, He. cbn [fmap option_fmap option_map fold_left fst snd].
  f_equal. apply norm3_difference.
Qed.

Lemma ones_times (c : Col float) n :
  length c = n -> zip_with fmul (ones n) c = c.
Proof.
  unfold ones. revert n. induction c as [|y c IH]; intros [|n] Hn;
    cbn [length] in Hn; try reflexivity; try discriminate.
  cbn [replicate zip_with]. rewrite IH by lia.
  change (fmul f1 y) with (1 * y). now rewrite mul_1_l.
Qed.

Lemma length_initial_l (inp : Input float) :
  length (l (initial inp)) = length (edges inp).
Proof.
  unfold initial, normrow, spmv3, connectivity_matrix. cbn [l].
  now rewrite !length_map.
Qed.

Lemma initial_f_l (inp : Input float) : f (initial inp) = l (initial inp).
Proof.
  pose proof (length_initial_l inp) as Hlen.
  unfold initial in *. cbn [f l] in *. now apply ones_times.
Qed.

Lemma eqb_zero d : PrimFloat.eqb d 0 = true -> exists s, Prim2SF d = S754_zero s.
Proof.
  rewrite FloatAxioms.eqb_spec. change (Prim2SF 0) with (S754_zero false).
  destruct (Prim2SF d) as [s|[]| |[] m e]; try discriminate. eauto.
Qed.

(** cleaning keeps what is finite and puts zero for the rest *)
Lemma clean_cases (y : float) : clean y = if finite y then y else 0.
Proof.
  unfold finite, clean. cbn [isnan isinf float_arith].
  destruct (PrimFloat.is_infinity y) eqn:Hi.
  - rewrite orb_true_r. reflexivity.
  - rewrite orb_false_r. destruct (PrimFloat.is_nan y); reflexivity.
Qed.

Lemma q_lpre_first (inp : Input float) cfg :
  configure inp = Ok cfg ->
  q_lpre_of cfg (initial inp)
  = map clean (zip_with fdiv (l (initial inp)) (lpre inp)).
Proof.
  intros Hcfg. apply configure_Ok in Hcfg as (coeff & _ & _ & _ & _ & _ & Hl & _).
  unfold q_lpre_of. now rewrite initial_f_l, Hl.
Qed.

(** C10, as the spec states it, fails in a row whose prescribed length is
    not zero when the quotient is not finite: with an edge of length 1 and
    [lpre = 2^-1074], the smallest positive number, [l / lpre] is
    infinite and the contribution [q_lpre] of the first pass is 0, as it
    is for [lpre = 0]. *)
Lemma overflowing_quotient_is_cleaned :
  exists cfg, configure tiny_lpre = Ok cfg
    /\ l (initial tiny_lpre) = [1]
    /\ lpre tiny_lpre = [0x1p-1074]
    /\ feq 0x1p-1074 0 = false
    /\ fdiv 1 0x1p-1074 = infinity
    /\ q_lpre_of cfg (initial tiny_lpre) = [0]
    /\ ~ Spec.q_lpre_as_worded tiny_lpre cfg.
Proof.
  eexists. split; [vm_compute; reflexivity|].
  do 5 (split; [vm_compute; reflexivity|]).
  intros H. specialize (H 0%nat 1 0x1p-1074 eq_refl eq_refl).
  apply (f_equal (fun o : option float =>
                    match o with Some y => PrimFloat.is_infinity y | None => false end)) in H.
  vm_compute in H. discriminate.
Qed.

(** C10 (amended): before the first pass [q] is all ones, [l] holds for
    every edge the distance between its two ends at the positions given,
    and [f = q * l] is [l] itself, bit for bit.  In pass [k = 0] the
    contribution [q_lpre] is therefore [l / lpre] cleaned row by row: a
    row is [l[e] / lpre[e]] when that quotient is finite and zero when it
    is not, which is the case when [lpre[e] = 0] and also when the
    quotient of a non-zero [lpre[e]] overflows; the value does not depend
    on the prescribed force densities [qpre] and forces [fpre]; and it is
    the third summand of the [q] of the first pass.  [cfg] is what the
    call has bound before the loop. *)
Theorem first_pass_q_lpre (inp : Input float) :
  q (initial inp) = ones (length (edges inp))
  /\ l (initial inp)
     = normrow (spmv3 (connectivity_matrix (edges inp)) (vertices inp))
  /\ (forall e i j, edges inp !! e = Some (i, j) ->
        l (initial inp) !! e
        = Some (norm3 (sub3 (row (vertices inp) j) (row (vertices inp) i))))
  /\ f (initial inp) = l (initial inp)
  /\ forall cfg, configure inp = Ok cfg ->
       q_lpre_of cfg (initial inp)
       = map clean (zip_with fdiv (l (initial inp)) (lpre inp))
       /\ (forall e y d, l (initial inp) !! e = Some y -> lpre inp !! e = Some d ->
             q_lpre_of cfg (initial inp) !! e
             = Some (if finite (fdiv y d) then fdiv y d else 0))
       /\ (forall e d, lpre inp !! e = Some d -> feq d (ofZ 0) = true ->
             (e < length (edges inp))%nat ->
             q_lpre_of cfg (initial inp) !! e = Some 0)
       /\ (forall qpre' fpre' cfg',
             configure (with_prescribed inp qpre' fpre') = Ok cfg' ->
             q_lpre_of cfg' (initial (with_prescribed inp qpre' fpre'))
             = q_lpre_of cfg (initial inp))
       /\ q_of cfg (initial inp)
          = zip_with fadd
              (zip_with fadd
                 (zip_with fadd (qpre inp) (zip_with fdiv (fpre inp) (l (initial inp))))
                 (map clean (zip_with fdiv (l (initial inp)) (lpre inp))))
              (q_EA_of cfg (initial inp))
       /\ (forall s' stop, iteration cfg 0 (initial inp) = Ok (s', stop) ->
             q s' = q_of cfg (initial inp)).
Proof.
  split; [reflexivity|]. split; [reflexivity|]. split; [apply initial_length|].
  split; [apply initial_f_l|]. intros cfg Hcfg.
  pose proof (q_lpre_first inp cfg Hcfg) as Hq.
  split; [exact Hq|]. split; [|split; [|split; [|split]]].
  - intros e y d Hy He. rewrite Hq, lookup_map, lookup_zip_with, Hy, He.
    cbn [mbind option_bind fmap option_fmap option_map]. f_equal.
    apply clean_cases.
  - intros e d He Hd Hlt. rewrite Hq, lookup_map.
    rewrite <- length_initial_l in Hlt.
    apply lookup_lt_is_Some_2 in Hlt as [y Hy].
    rewrite lookup_zip_with, Hy, He.
    cbn [mbind option_bind fmap option_fmap option_map]. f_equal.
    apply clean_div_zero, eqb_zero. exact Hd.
  - intros qpre' fpre' cfg' Hcfg'.
    rewrite Hq, (q_lpre_first _ cfg' Hcfg'). reflexivity.
  - apply configure_Ok in Hcfg as (coeff & _ & _ & _ & Hqp & Hfp & _).
    unfold q_of. rewrite Hq. unfold q_fpre_of. now rewrite Hqp, Hfp.
  - intros s' stop Hrun. unfold iteration in Hrun.
    now apply iteration_with_Ok in Hrun
      as (mass & dt & dv & x1 & r1 & crit1 & crit2 & _ & _ & _ & _ & _ & Hqs & _).
Qed.
End Seed.

(** ** Translation of the positions, in exact arithmetic *)

Module Translation.
Import DR Shift ListFacts.
Local Existing Instance R_arith.
Local Open Scope R_scope.





(** *** rows of a moved array *)







(** *** sparse products *)











(** *** [rk] on moved positions *)






(** *** the loop on moved positions *)








End Translation.

(** ** The translation law *)

Module TranslationLaw.
Import DR Shift Translation.
Local Existing Instance R_arith.


(** Binary64 rounds: with the loads left alone, the moved run ends one
    unit in the last place away from the moved result. *)
Lemma translated_positions_round :
  dr_numpy (translate_positions (1, 0, 0)%float (Ex.bar2 {[ "kmax" := PyInt 1 ]}))
  <> shift_result (1, 0, 0)%float (dr_numpy (Ex.bar2 {[ "kmax" := PyInt 1 ]})).
Proof.
  intros H.
  apply (f_equal (fun o : result (Mat3 float * Col float * Col float * Col float * Mat3 float) =>
           match o, shift_result (1, 0, 0)%float (dr_numpy (Ex.bar2 {[ "kmax" := PyInt 1 ]})) with
           | Ok out, Ok out' =>
               PrimFloat.eqb (row out.1.1.1.1 1).1.1 (row out'.1.1.1.1 1).1.1
           | _, _ => false
           end)) in H.
  vm_compute in H. discriminate.
Qed.


End TranslationLaw.

(** ** dr_numpy: the shapes of the arrays *)

Module ShapeFacts.
Section ShapeFacts.
Context {F : Type} {Ar : Arith F}.
Import DR Shape ListFacts LoopFacts.

Lemma spmv3_rows (A : Sparse F) (m : Mat3 F) : length (spmv3 A m) = length A.
Proof. unfold spmv3. apply length_map. Qed.

Lemma spmm_rows (A B : Sparse F) : length (spmm A B) = length A.
Proof. unfold spmm. apply length_map. Qed.

Lemma normrow_rows (m : Mat3 F) : length (normrow m) = length m.
Proof. unfold normrow. apply length_map. Qed.

Lemma connectivity_rows (edges : list (nat * nat)) :
  length (connectivity_matrix (F := F) edges) = length edges.
Proof. unfold connectivity_matrix. apply length_map. Qed.

Lemma transpose_rows n (A : Sparse F) : length (transpose n A) = n.
Proof. unfold transpose. now rewrite length_map, length_seq. Qed.

Lemma take_rows_rows idx (m : Mat3 F) : length (take_rows idx m) = length idx.
Proof. unfold take_rows. apply length_map. Qed.

Lemma keeps_rows_ret {A} (val : A) : keeps_rows (F := F) (ret val).
Proof. intros xr val' xr' [= _ <-]. auto. Qed.

Lemma keeps_rows_bind {A B} (m : M F A) (k : A -> M F B) :
  keeps_rows m -> (forall val, keeps_rows (k val)) -> keeps_rows (bind m k).
Proof.
  intros Hm Hk xr val xr' Hrun. unfold bind in Hrun.
  destruct (m xr) as [[val1 xr1]|e] eqn:E1; [|discriminate].
  destruct (Hm _ _ _ E1) as [H1 H2].
  destruct (Hk _ _ _ _ Hrun) as [H3 H4]. split; congruence.
Qed.

Lemma keeps_rows_a env x0 t w : keeps_rows (a env x0 t w).
Proof.
  intros [x1 r1] val [x2 r2] Hrun. unfold a in Hrun.
  injection Hrun as _ <- <-. cbn [fst snd]. now rewrite !length_put_rows.
Qed.

Lemma keeps_rows_rk env x0 v0 steps : keeps_rows (rk env x0 v0 steps).
Proof.
  unfold rk.
  repeat match goal with
         | |- keeps_rows (if ?c then _ else _) => destruct c
         | |- keeps_rows (bind _ _) => apply keeps_rows_bind; [|intros ?]
         | |- keeps_rows (a _ _ _ _) => apply keeps_rows_a
         | |- keeps_rows (ret _) => apply keeps_rows_ret
         end.
  intros xr val xr' Hrun. discriminate.
Qed.

Lemma length_col3 (g h k : F -> F -> F) (c1 c2 c3 c4 : Col F) n :
  length c1 = n -> length c2 = n -> length c3 = n -> length c4 = n ->
  length (zip_with g (zip_with h (zip_with k c1 c2) c3) c4) = n.
Proof. intros. rewrite !length_zip_with. lia. Qed.

Lemma q_of_rows nv ne cfg s :
  shaped_cfg nv ne cfg -> shaped nv ne s -> length (q_of cfg s) = ne.
Proof.
  intros (Hp & Hq & Hf & Hl & Hi & HEA & HC & HCt) (Hx & Hv & Hr & Hqs & Hfs & Hls).
  unfold q_of, q_fpre_of, q_lpre_of, q_EA_of.
  rewrite !length_zip_with, !length_map, !length_zip_with. lia.
Qed.

Lemma iteration_shaped nv ne steps cfg k s s' stop :
  shaped_cfg nv ne cfg -> shaped nv ne s ->
  iteration_with steps cfg k s = Ok (s', stop) -> shaped nv ne s'.
Proof.
  intros Hcfg Hs Hrun. pose proof (q_of_rows _ _ _ _ Hcfg Hs) as Hq.
  destruct Hcfg as (Hp & _ & _ & _ & _ & _ & HC & HCt).
  destruct Hs as (Hx & Hv & Hr & _).
  apply iteration_with_Ok in Hrun
    as (mass & dt & dv & x1 & r1 & crit1 & crit2 & _ & _ & Erk
        & Hv' & Hx' & Hq' & Hl' & Hf' & Hr' & _).
  apply keeps_rows_rk in Erk as [Hx1 _]. cbn [fst snd] in Hx1.
  unfold shaped. rewrite Hf', Hr', Hl', Hq', Hx', Hv'.
  rewrite !length_put_rows, !length_zip_with, !normrow_rows, !spmv3_rows.
  unfold msub. rewrite length_zip_with, spmv3_rows, spmm_rows. lia.
Qed.

Lemma iterate_shaped nv ne steps cfg n k s s' :
  shaped_cfg nv ne cfg -> shaped nv ne s ->
  iterate_with steps cfg n k s = Ok s' -> shaped nv ne s'.
Proof.
  intros Hcfg. revert k s. induction n as [|n IH]; intros k s Hs Hrun;
    cbn [iterate_with] in Hrun.
  - now injection Hrun as <-.
  - destruct (iteration_with steps cfg k s) as [[s1 stop]|e] eqn:E1; [|discriminate].
    apply (iteration_shaped _ _ _ _ _ _ _ _ Hcfg Hs) in E1.
    destruct stop; [now injection Hrun as <-|eauto].
Qed.

Lemma well_shaped_lengths (inp : Input F) :
  well_shaped inp = true ->
  length (loads inp) = length (vertices inp)
  /\ length (qpre inp) = length (edges inp)
  /\ length (fpre inp) = length (edges inp)
  /\ length (lpre inp) = length (edges inp)
  /\ length (linit inp) = length (edges inp)
  /\ length (E inp) = length (edges inp)
  /\ length (radius inp) = length (edges inp).
Proof.
  unfold well_shaped. cbn [forallb]. intros H.
  repeat (apply andb_true_iff in H as [H ?]).
  repeat match goal with
         | H : Nat.eqb _ _ = true |- _ => apply Nat.eqb_eq in H
         | H : _ && _ = true |- _ => apply andb_true_iff in H as [? ?]
         end.
  repeat split; assumption.
Qed.

Lemma configure_shaped (inp : Input F) cfg :
  well_shaped inp = true -> configure inp = Ok cfg ->
  shaped_cfg (length (vertices inp)) (length (edges inp)) cfg.
Proof.
  intros H Hcfg.
  apply well_shaped_lengths in H as (Hp & Hq & Hf & Hl & Hi & HE & Hr).
  apply configure_Ok in Hcfg
    as (coeff & _ & _ & Hp' & Hq' & Hf' & Hl' & Hi' & HEA & HC & HCt & _).
  unfold shaped_cfg. rewrite Hp', Hq', Hf', Hl', Hi', HEA, HC, HCt.
  repeat split; try assumption.
  - destruct (forallb _ _); [|assumption].
    now rewrite normrow_rows, spmv3_rows, connectivity_rows.
  - unfold EA_of. rewrite length_zip_with, length_map. lia.
  - apply connectivity_rows.
  - apply transpose_rows.
Qed.

Lemma initial_shaped (inp : Input F) :
  shaped (length (vertices inp)) (length (edges inp)) (initial inp).
Proof.
  unfold shaped, initial, zeros, ones. cbn [x v r q f l].
  rewrite !length_zip_with, !length_replicate, !normrow_rows, !spmv3_rows,
    !connectivity_rows.
  repeat split; lia.
Qed.

Lemma dr_numpy_run (inp : Input F) xs qs fs ls rs :
  dr_numpy inp = Ok (xs, qs, fs, ls, rs) ->
  exists s, dr_run inp = Ok s
    /\ xs = x s /\ qs = q s /\ fs = f s /\ ls = l s /\ rs = r s.
Proof.
  unfold dr_numpy. destruct (dr_run inp) as [s|e]; [|discriminate].
  intros [= <- <- <- <- <-]. eauto 10.
Qed.
End ShapeFacts.
End ShapeFacts.

Module Shapes.
Import DR Shape ShapeFacts.

(** X1: on a well-shaped input the five arrays that [dr_numpy] returns
    have the shapes of the network: [x] and [r] have one row per vertex,
    [q], [f] and [l] one row per edge, whatever the number of passes. *)
Theorem result_shapes {F : Type} {Ar : Arith F} (inp : Input F) xs qs fs ls rs :
  well_shaped inp = true ->
  dr_numpy inp = Ok (xs, qs, fs, ls, rs) ->
  length xs = length (vertices inp)
  /\ length qs = length (edges inp)
  /\ length fs = length (edges inp)
  /\ length ls = length (edges inp)
  /\ length rs = length (vertices inp).
Proof.
  intros Hws Hrun.
  apply dr_numpy_run in Hrun as (s & Hrun & -> & -> & -> & -> & ->).
  apply LoopFacts.dr_run_Ok in Hrun as (_ & cfg & z & Hcfg & _ & Hrun).
  unfold iterate in Hrun.
  apply (iterate_shaped _ _ _ _ _ _ _ _ (configure_shaped inp cfg Hws Hcfg)
           (initial_shaped inp))
    in Hrun as (Hx & Hv & Hr & Hq & Hf & Hl).
  auto.
Qed.

Lemma result_shapes_witness :
  exists xs qs fs ls rs,
    dr_numpy (Ex.bar2 {[ "kmax" := PyInt 3 ]}) = Ok (xs, qs, fs, ls, rs)
    /\ length xs = 2%nat /\ length qs = 1%nat /\ length fs = 1%nat
    /\ length ls = 1%nat /\ length rs = 2%nat.
Proof.
  do 5 eexists. split; [vm_compute; reflexivity|].
  apply (result_shapes (Ex.bar2 {[ "kmax" := PyInt 3 ]})).
  - reflexivity.
  - vm_compute; reflexivity.
Defined.
End Shapes.

(** ** dr_numpy: what the returned arrays say of each other *)

Module Returned.
Import DR Shape ShapeFacts LoopFacts.

Section Generic.
Context {F : Type} {Ar : Arith F}.

Lemma initial_consistent (inp : Input F) cfg :
  configure inp = Ok cfg -> consistent cfg (initial inp).
Proof.
  intros Hcfg. apply configure_Ok in Hcfg
    as (coeff & _ & _ & _ & _ & _ & _ & _ & _ & HC & _).
  split; [|reflexivity]. now rewrite HC.
Qed.

Lemma iteration_consistent steps (cfg : Config F) k s s' stop :
  iteration_with steps cfg k s = Ok (s', stop) ->
  consistent cfg s' /\ r s' = residual cfg s'.
Proof.
  intros Hrun.
  apply iteration_with_Ok in Hrun
    as (mass & dt & dv & x1 & r1 & crit1 & crit2 & _ & _ & _
        & _ & _ & _ & Hl & Hf & Hr & _).
  repeat split; assumption.
Qed.

Lemma iterate_consistent steps (cfg : Config F) n k s s' :
  iterate_with steps cfg n k s = Ok s' -> consistent cfg s -> consistent cfg s'.
Proof.
  revert k s. induction n as [|n IH]; intros k s Hrun Hs; cbn [iterate_with] in Hrun.
  - now injection Hrun as <-.
  - destruct (iteration_with steps cfg k s) as [[s1 stop]|e] eqn:E1; [|discriminate].
    apply iteration_consistent in E1 as [H1 _].
    destruct stop; [now injection Hrun as <-|eauto].
Qed.

Lemma iterate_residual steps (cfg : Config F) n k s s' :
  iterate_with steps cfg (S n) k s = Ok s' -> r s' = residual cfg s'.
Proof.
  revert k s. induction n as [|n IH]; intros k s Hrun;
    cbn [iterate_with] in Hrun;
    destruct (iteration_with steps cfg k s) as [[s1 stop]|e] eqn:E1; try discriminate;
    pose proof (iteration_consistent _ _ _ _ _ _ E1) as [_ Hr].
  - destruct stop; now injection Hrun as <-.
  - destruct stop; [now injection Hrun as <-|].
    apply (IH (S k) s1). exact Hrun.
Qed.
End Generic.

(** X2: the lengths and forces that [dr_numpy] returns are those of the
    positions it returns: [l] holds the lengths of the edges at [x], and
    [f = q * l] row by row, whatever the number of passes and whichever
    test ended the loop. *)
Theorem returned_lengths_and_forces {F : Type} {Ar : Arith F}
    (inp : Input F) xs qs fs ls rs :
  dr_numpy inp = Ok (xs, qs, fs, ls, rs) ->
  ls = normrow (spmv3 (connectivity_matrix (edges inp)) xs)
  /\ fs = zip_with fmul qs ls.
Proof.
  intros Hrun.
  apply dr_numpy_run in Hrun as (s & Hrun & -> & -> & -> & -> & ->).
  apply dr_run_Ok in Hrun as (_ & cfg & z & Hcfg & _ & Hrun).
  unfold iterate in Hrun.
  apply iterate_consistent in Hrun; [|now apply initial_consistent].
  apply configure_Ok in Hcfg as (coeff & _ & _ & _ & _ & _ & _ & _ & _ & HC & _).
  rewrite <- HC. exact Hrun.
Qed.

Lemma returned_lengths_and_forces_witness :
  exists xs qs fs ls rs,
    dr_numpy (Ex.bar2 {[ "kmax" := PyInt 3 ]}) = Ok (xs, qs, fs, ls, rs)
    /\ ls = normrow (spmv3 (connectivity_matrix [(0%nat, 1%nat)]) xs)
    /\ fs = zip_with fmul qs ls.
Proof.
  do 5 eexists. split; [vm_compute; reflexivity|].
  eapply (returned_lengths_and_forces (Ex.bar2 {[ "kmax" := PyInt 3 ]})).
  vm_compute; reflexivity.
Defined.

(** X3: when at least one pass is made (an integer [kmax >= 1], or the
    default), the residual that [dr_numpy] returns is the one of the
    returned positions and force densities over all vertices, fixed ones
    included: [r = p - Ct.dot(Q).dot(C.dot(x))] with [Q = diag(q)]. *)
Theorem returned_residual {F : Type} {Ar : Arith F}
    (inp : Input F) xs qs fs ls rs :
  (forall z, kwargs inp !! "kmax" = Some (PyInt z) -> 1 <= z) ->
  dr_numpy inp = Ok (xs, qs, fs, ls, rs) ->
  rs = msub (loads inp)
         (spmv3 (spmm (transpose (length (vertices inp))
                         (connectivity_matrix (edges inp))) (diags qs))
                (spmv3 (connectivity_matrix (edges inp)) xs)).
Proof.
  intros Hk Hrun.
  apply dr_numpy_run in Hrun as (s & Hrun & -> & -> & -> & -> & ->).
  apply dr_run_Ok in Hrun as (_ & cfg & z & Hcfg & Hz & Hrun).
  assert (1 <= z) as Hz1.
  { unfold get in Hz. destruct (kwargs inp !! "kmax") as [w|] eqn:Ekw.
    - simpl in Hz. subst w. now apply Hk.
    - simpl in Hz. injection Hz as <-. lia. }
  destruct (Z.to_nat z) as [|n] eqn:En; [lia|].
  unfold iterate in Hrun. apply iterate_residual in Hrun.
  apply configure_Ok in Hcfg
    as (coeff & _ & _ & Hp & _ & _ & _ & _ & _ & HC & HCt & _).
  rewrite Hrun. unfold residual. now rewrite Hp, HC, HCt.
Qed.

Lemma returned_residual_witness :
  exists xs qs fs ls rs,
    dr_numpy (Ex.bar2 {[ "kmax" := PyInt 3 ]}) = Ok (xs, qs, fs, ls, rs)
    /\ rs = msub (loads (Ex.bar2 {[ "kmax" := PyInt 3 ]}))
              (spmv3 (spmm (transpose 2 (connectivity_matrix [(0%nat, 1%nat)])) (diags qs))
                     (spmv3 (connectivity_matrix [(0%nat, 1%nat)]) xs)).
Proof.
  do 5 eexists. split; [vm_compute; reflexivity|].
  eapply (returned_residual (Ex.bar2 {[ "kmax" := PyInt 3 ]})).
  - intros z Hz. vm_compute in Hz. injection Hz as <-. lia.
  - vm_compute; reflexivity.
Defined.

End Returned.

(** ** dr_numpy: the calls of the callback and the end of the loop *)

Module Calls.
Import DR Shape ShapeFacts LoopFacts.

Section Generic.
Context {F : Type} {Ar : Arith F}.

Lemma iteration_call steps (cfg : Config F) k s s' stop :
  c_callback cfg = Observer ->
  iteration_with steps cfg k s = Ok (s', stop) ->
  exists ev, trace s' = trace s ++ [ev]
    /\ call_k ev = k /\ call_x ev = x s' /\ converged cfg ev = Ok stop.
Proof.
  intros Hcb Hrun.
  apply iteration_with_Ok in Hrun
    as (mass & dt & dv & x1 & r1 & crit1 & crit2 & _ & _ & _
        & _ & _ & _ & _ & _ & _ & _ & _ & Ht & Hstop).
  rewrite Hcb in Ht. exists (k, x s', crit1, crit2). auto.
Qed.

Lemma iterate_protocol steps (cfg : Config F) n k s s' :
  c_callback cfg = Observer ->
  iterate_with steps cfg n k s = Ok s' ->
  exists evs, trace s' = trace s ++ evs
    /\ (evs = [] -> s' = s)
    /\ protocol cfg n k s' evs.
Proof.
  intros Hcb. revert k s. induction n as [|n IH]; intros k s Hrun;
    cbn [iterate_with] in Hrun.
  - injection Hrun as <-. exists []. rewrite app_nil_r.
    repeat split; try reflexivity; cbn [length]; try lia; try discriminate.
  - destruct (iteration_with steps cfg k s) as [[s1 stop]|e] eqn:E1; [|discriminate].
    destruct (iteration_call _ _ _ _ _ _ Hcb E1) as (e1 & Ht & Hk & Hx & Hstop).
    destruct stop.
    + injection Hrun as <-. exists [e1]. split; [exact Ht|]. split; [discriminate|].
      repeat split; cbn [length map seq]; try lia.
      * now rewrite Hk.
      * intros ev Hev. cbn in Hev. injection Hev as <-. exact Hx.
      * intros _. exists e1. auto.
    + destruct (IH _ _ Hrun) as (evs & Ht' & Hnil & Hlen & Hks & Hlast & Hmid & Hend).
      exists (e1 :: evs). split; [|split; [discriminate|]].
      { rewrite Ht', Ht, <- app_assoc. reflexivity. }
      repeat split; cbn [length map seq].
      * lia.
      * now rewrite Hk, Hks.
      * intros ev. rewrite last_cons. destruct (last evs) as [ev'|] eqn:El.
        -- intros Hev. injection Hev as <-. now apply Hlast.
        -- intros Hev. injection Hev as <-. apply last_None in El.
           rewrite (Hnil El). exact Hx.
      * intros [|i] ev Hev Hi.
        -- injection Hev as <-. exact Hstop.
        -- cbn [lookup list_lookup] in Hev. apply (Hmid i); [exact Hev|lia].
      * intros Hlt. destruct Hend as (ev & El & Hc); [lia|].
        exists ev. rewrite last_cons, El. auto.
Qed.
End Generic.

(** X4: a callable callback is called once in every pass that is made,
    in order and with [k] = 0, 1, 2, ...; it is called at most [kmax]
    times; the positions shown in the last call are the positions
    returned; no call but the last one has [crit1 < tol1] or
    [crit2 < tol2]: both tests were made after it and failed; and when
    fewer than [kmax] calls are made, the last one has.  [cfg] is what
    the call has bound before the loop. *)
Theorem callback_protocol {F : Type} {Ar : Arith F}
    (inp : Input F) (z : Z) (s : State F) :
  callback inp = Observer ->
  get (kwargs inp) "kmax" (PyInt 10000) = PyInt z ->
  dr_run inp = Ok s ->
  exists cfg, configure inp = Ok cfg
  /\ (length (trace s) <= Z.to_nat z)%nat
  /\ map call_k (trace s) = seq 0 (length (trace s))
  /\ (forall ev, last (trace s) = Some ev -> call_x ev = x s)
  /\ (forall i ev, trace s !! i = Some ev -> (S i < length (trace s))%nat ->
        converged cfg ev = Ok false)
  /\ ((length (trace s) < Z.to_nat z)%nat ->
        exists ev, last (trace s) = Some ev /\ converged cfg ev = Ok true).
Proof.
  intros Hcb Hz Hrun.
  apply dr_run_Ok in Hrun as (_ & cfg & z' & Hcfg & Hz' & Hrun).
  rewrite Hz in Hz'. injection Hz' as <-.
  exists cfg. split; [exact Hcfg|].
  assert (c_callback cfg = Observer) as Hcb'
    by (now rewrite (c_callback_configure inp cfg Hcfg)).
  unfold iterate in Hrun.
  apply iterate_protocol in Hrun as (evs & Ht & _ & Hp); [|exact Hcb'].
  cbn [initial trace app] in Ht. rewrite Ht. exact Hp.
Qed.

Lemma callback_protocol_witness :
  exists s, dr_run (Ex3.watched {[ "kmax" := PyInt 3 ]}) = Ok s
    /\ exists cfg, configure (Ex3.watched {[ "kmax" := PyInt 3 ]}) = Ok cfg
    /\ (length (trace s) <= 3)%nat
    /\ map call_k (trace s) = seq 0 (length (trace s))
    /\ (forall ev, last (trace s) = Some ev -> call_x ev = x s)
    /\ (forall i ev, trace s !! i = Some ev -> (S i < length (trace s))%nat ->
          converged cfg ev = Ok false)
    /\ ((length (trace s) < 3)%nat ->
          exists ev, last (trace s) = Some ev /\ converged cfg ev = Ok true).
Proof.
  eexists. split; [vm_compute; reflexivity|].
  apply (callback_protocol (Ex3.watched {[ "kmax" := PyInt 3 ]}) 3).
  - reflexivity.
  - reflexivity.
  - vm_compute; reflexivity.
Defined.
End Calls.

(** ** dr_numpy: the fixed vertices as a set *)

Module FixedSet.
Import DR Shape ListFacts.

Lemma filter_agree {A} (P1 P2 : A -> Prop)
    `{!forall y, Decision (P1 y)} `{!forall y, Decision (P2 y)} (xs : list A) :
  (forall y, y ∈ xs -> P1 y <-> P2 y) -> filter P1 xs = filter P2 xs.
Proof.
  induction xs as [|y xs IH]; intros Hag; [reflexivity|].
  rewrite !filter_cons. rewrite IH by (intros; apply Hag; now right).
  pose proof (Hag y (list_elem_of_here y xs)) as Hy.
  destruct (decide (P1 y)) as [H1|H1], (decide (P2 y)) as [H2|H2];
    try reflexivity; tauto.
Qed.

Lemma free_of_agree n fixed fixed' :
  (forall i, (i < n)%nat -> i ∈ fixed <-> i ∈ fixed') ->
  free_of n fixed = free_of n fixed'.
Proof.
  intros H. unfold free_of. apply filter_agree.
  intros i Hi. apply elem_of_seq in Hi. specialize (H i). cbn in Hi. tauto.
Qed.

(** X5: [dr_numpy] reads [fixed] as a set of vertex indices: the order
    of the list, repeated entries, and entries that are not the index of
    a vertex have no effect on the result. *)
Theorem fixed_read_as_a_set {F : Type} {Ar : Arith F}
    (inp : Input F) (fixed' : list nat) :
  (forall i, (i < length (vertices inp))%nat -> i ∈ fixed inp <-> i ∈ fixed') ->
  dr_numpy (with_fixed inp fixed') = dr_numpy inp.
Proof.
  intros H. unfold dr_numpy, dr_run.
  assert (configure (with_fixed inp fixed') = configure inp) as ->.
  { unfold configure. cbn [with_fixed vertices edges fixed loads qpre fpre lpre linit
                            E radius callback kwargs].
    now rewrite (free_of_agree _ _ _ H). }
  reflexivity.
Qed.

Lemma fixed_read_as_a_set_witness :
  dr_numpy (with_fixed (Ex.bar2 {[ "kmax" := PyInt 3 ]}) [7; 0; 0; 2]%nat)
  = dr_numpy (Ex.bar2 {[ "kmax" := PyInt 3 ]}).
Proof.
  apply (fixed_read_as_a_set (Ex.bar2 {[ "kmax" := PyInt 3 ]})).
  intros i Hi. cbn in Hi.
  assert (i = 0 \/ i = 1)%nat as [-> | ->] by lia.
  - split; intros _; [right; left | left].
  - split; intros H; exfalso; repeat (apply elem_of_cons in H as [H|H]; [discriminate|]);
      now apply elem_of_nil in H.
Defined.
End FixedSet.

(** ** dr_numpy: a network with no free vertex *)

Module AllFixed.
Import DR Shape ShapeFacts ListFacts LoopFacts.

Lemma free_of_nil n fixed :
  (forall i, (i < n)%nat -> i ∈ fixed) -> free_of n fixed = [].
Proof.
  intros H. unfold free_of.
  destruct (filter _ _) as [|i rest] eqn:E; [reflexivity|].
  assert (i ∈ filter (fun i => i ∉ fixed) (seq 0 n)) as Hi by (rewrite E; left).
  apply list_elem_of_filter in Hi as [Hi1 Hi2]. apply elem_of_seq in Hi2.
  exfalso. apply Hi1, H. lia.
Qed.

Lemma iteration_stop_no_free {F : Type} {Ar : Arith F} steps (cfg : Config F) k s s' stop :
  c_free cfg = [] ->
  iteration_with steps cfg k s = Ok (s', stop) ->
  exists crit, norm [] = Ok crit /\ converged cfg (k, x s', crit, crit) = Ok stop.
Proof.
  intros Hfree Hrun.
  apply iteration_with_Ok in Hrun
    as (mass & dt & dv & x1 & r1 & crit1 & crit2 & _ & _ & _
        & _ & _ & _ & _ & _ & _ & H1 & H2 & _ & Hstop).
  rewrite Hfree in H1, H2. cbn [take_rows map] in H1, H2.
  rewrite H1 in H2. injection H2 as <-. eauto.
Qed.

(** X6: when every vertex is fixed, [crit1] and [crit2] are norms of
    arrays without rows, that is zero, so with a positive [tol1] or [tol2]
    (the defaults are) the loop ends in its first pass, whatever [kmax >= 1]
    is: the state returned is the one after pass 0, it is the one a
    convergence test accepted, and its positions are the ones given.
    [cfg] is what the call has bound before the loop. *)
Theorem all_fixed_one_pass (inp : Input float) (cfg : Config float) (s : State float) :
  (forall i, (i < length (vertices inp))%nat -> i ∈ fixed inp) ->
  (forall z, kwargs inp !! "kmax" = Some (PyInt z) -> 1 <= z) ->
  configure inp = Ok cfg ->
  less f0 (c_tol1 cfg) = Ok true \/ less f0 (c_tol2 cfg) = Ok true ->
  dr_run inp = Ok s ->
  iteration cfg 0 (initial inp) = Ok (s, true)
  /\ x s = vertices inp.
Proof.
  intros Hall Hk Hcfg Htol Hrun.
  apply dr_run_Ok in Hrun as (_ & cfg' & z & Hcfg' & Hz & Hrun).
  rewrite Hcfg in Hcfg'. injection Hcfg' as <-.
  assert (1 <= z) as Hz1.
  { unfold get in Hz. destruct (kwargs inp !! "kmax") as [w|] eqn:Ekw; simpl in Hz.
    - subst w. now apply Hk.
    - injection Hz as <-. lia. }
  destruct (Z.to_nat z) as [|n] eqn:En; [lia|].
  unfold iterate in Hrun. cbn [iterate_with] in Hrun.
  pose proof (free_of_nil _ _ Hall) as Hfree.
  rewrite <- (c_free_configure inp cfg Hcfg) in Hfree.
  unfold iteration.
  destruct (iteration_with 4 cfg 0 (initial inp)) as [[s1 stop]|e] eqn:E1;
    [|discriminate].
  assert (stop = true) as ->.
  { destruct (iteration_stop_no_free _ _ _ _ _ _ Hfree E1) as (crit & Hcrit & Hstop).
    assert (crit = f0) as -> by (vm_compute in Hcrit; now injection Hcrit as <-).
    unfold converged, and_then in Hstop. cbn [fst snd] in Hstop.
    destruct (less f0 (c_tol1 cfg)) as [[|]|e]; try discriminate.
    - now injection Hstop as <-.
    - destruct Htol as [Htol|Htol]; [discriminate|].
      rewrite Htol in Hstop. now injection Hstop as <-. }
  injection Hrun as <-. split; [reflexivity|].
  apply list_eq. intros i.
  apply (iteration_with_other _ _ _ _ _ _ i) in E1 as [Hx _].
  - exact Hx.
  - rewrite Hfree. apply not_elem_of_nil.
Qed.

Lemma all_fixed_one_pass_witness :
  exists cfg s, configure Ex3.held = Ok cfg
    /\ dr_run Ex3.held = Ok s
    /\ iteration cfg 0 (initial Ex3.held) = Ok (s, true)
    /\ x s = vertices Ex3.held.
Proof.
  do 2 eexists. split; [vm_compute; reflexivity|].
  split; [vm_compute; reflexivity|].
  eapply (all_fixed_one_pass Ex3.held).
  - intros i Hi. cbn in Hi.
    assert (i = 0 \/ i = 1)%nat as [-> | ->] by lia; [right; left | left].
  - intros z Hz. vm_compute in Hz. discriminate.
  - vm_compute; reflexivity.
  - left. vm_compute; reflexivity.
  - vm_compute; reflexivity.
Defined.
End AllFixed.

(** ** The damping coefficients, in exact arithmetic *)

Module Damping.
Import DR.
Local Existing Instance R_arith.
Local Open Scope R_scope.


End Damping.

(** ** dr_numpy: the step of the positions *)

Module Step.
Import DR Shape ShapeFacts ListFacts LoopFacts.

Lemma put_rows_sum {F : Type} {Ar : Arith F} (free : list nat) (m0 dm m : Mat3 F) i :
  Forall (fun j => (j < length m)%nat) free -> i ∈ free ->
  put_rows free (madd (take_rows free m0) (take_rows free dm)) m !! i
  = Some (add3 (row m0 i) (row dm i)).
Proof.
  revert m. induction free as [|j free IH]; intros m Hlt Hi.
  - now apply elem_of_nil in Hi.
  - apply Forall_cons in Hlt as [Hj Hlt].
    cbn [take_rows map madd zip_with put_rows].
    destruct (decide (i ∈ free)) as [Hin|Hout].
    + apply IH; [|exact Hin]. now rewrite length_insert.
    + apply elem_of_cons in Hi as [->|Hi]; [|contradiction].
      fold (take_rows free m0). fold (take_rows free dm).
      fold (madd (take_rows free m0) (take_rows free dm)).
      rewrite put_rows_other by exact Hout.
      now apply list_lookup_insert_eq.
Qed.

(** X8: in every pass, whatever [rk] has written into [x] on the way,
    a free vertex ends at its position before the pass plus [dt] times its
    new velocity, [x[i] = x0[i] + (v * dt)[i]], and the other vertices stay:
    the positions that the stages of [rk] try out are not kept.  [cfg] is
    what the call has bound before the loop, and [dt] the option as a
    float. *)
Theorem pass_moves_free_vertices_by_dt_v {F : Type} {Ar : Arith F}
    (inp : Input F) (cfg : Config F) (k : nat) (s s' : State F) (stop : bool) (i : nat) :
  length (x s) = length (vertices inp) ->
  length (v s) = length (vertices inp) ->
  configure inp = Ok cfg ->
  iteration cfg k s = Ok (s', stop) ->
  (i < length (vertices inp))%nat ->
  exists dt, to_float (c_dt cfg) = Ok dt
  /\ (i ∉ fixed inp ->
        x s' !! i = Some (add3 (row (x s) i)
                               (map3 (fun e => fmul e dt) (row (v s') i))))
  /\ (i ∈ fixed inp -> x s' !! i = x s !! i).
Proof.
  intros Hlen Hlenv Hcfg Hrun Hi.
  pose proof (c_free_configure inp cfg Hcfg) as Hfree.
  unfold iteration in Hrun. pose proof Hrun as Hrun'.
  apply iteration_with_Ok in Hrun'
    as (mass & dt & dv & x1 & r1 & crit1 & crit2 & _ & Hdt & Erk & Hv & Hx & _).
  exists dt. split; [exact Hdt|]. split.
  - intros Hnf.
    apply keeps_rows_rk in Erk as [Hx1 _]. cbn [fst snd] in Hx1.
    assert (is_Some (v s' !! i)) as [u Hu].
    { apply lookup_lt_is_Some_2. rewrite Hv, length_put_rows, Hlenv. exact Hi. }
    rewrite Hx, Hfree. rewrite put_rows_sum.
    + f_equal. f_equal. unfold mscale_r, row. now rewrite lookup_map, Hu.
    + apply Forall_forall. intros j Hj. apply elem_of_free_of in Hj as [_ Hj].
      rewrite Hx1, Hlen. exact Hj.
    + apply elem_of_free_of. auto.
  - intros Hfix. apply (iteration_with_other _ _ _ _ _ _ i) in Hrun as [Hx' _].
    + exact Hx'.
    + rewrite Hfree. now apply fixed_not_free.
Qed.

Lemma pass_moves_free_vertices_by_dt_v_witness :
  exists cfg s' stop dt,
    configure (Ex.bar2 ∅) = Ok cfg
    /\ iteration cfg 0 (initial (Ex.bar2 ∅)) = Ok (s', stop)
    /\ to_float (c_dt cfg) = Ok dt
    /\ x s' !! 1%nat
       = Some (add3 (row (x (initial (Ex.bar2 ∅))) 1)
                    (map3 (fun e => fmul e dt) (row (v s') 1))).
Proof.
  do 4 eexists. split; [vm_compute; reflexivity|].
  split; [vm_compute; reflexivity|]. split; [vm_compute; reflexivity|].
  edestruct (pass_moves_free_vertices_by_dt_v (Ex.bar2 ∅))
    with (k := 0%nat) (s := initial (Ex.bar2 ∅)) (i := 1%nat)
    as (dt & Hdt & Hfree & _).
  - reflexivity.
  - reflexivity.
  - vm_compute; reflexivity.
  - vm_compute; reflexivity.
  - cbn. lia.
  - vm_compute in Hdt. injection Hdt as <-.
    apply Hfree. intros H. apply list_elem_of_singleton in H. discriminate.
Defined.
End Step.

(** ** Smoothing: which lists are written *)

Module SmoothFacts.
Import Smooth Mesh.
Section SmoothFacts.
Context {F : Type} {Ar : Arith F}.
Local Abbreviation vec3 := (Vec3 F).

Lemma length_bump d (c : vec3) o p (h : Heap F) : length (bump d c o p h) = length h.
Proof. unfold bump, Heap in *. cbv zeta. now rewrite !length_insert. Qed.

Lemma bump_other d (c : vec3) o p (h : Heap F) o' :
  o' <> o -> bump d c o p h !! o' = h !! o'.
Proof.
  intros Hne. unfold bump, Heap in *. cbv zeta.
  rewrite !list_lookup_insert_ne by congruence. reflexivity.
Qed.

Lemma bump_self d (c : vec3) o (h : Heap F) u :
  h !! o = Some u -> bump d c o o h !! o = Some (pulled d c u).
Proof.
  intros Hu. assert (o < length h)%nat as Hlt by (eapply lookup_lt_Some; eauto).
  unfold bump, Heap in *. cbv zeta.
  rewrite !list_lookup_insert_eq by (rewrite ?length_insert; exact Hlt).
  rewrite Hu. reflexivity.
Qed.

Section Pass.
Variable target : list vec3 -> result vec3.
Variables (vertices : Dict nat) (adjacency : Dict (list nat)) (fixed : list nat).
Variable damping : F.

Lemma visit_frame seen kp (h h' : Heap F) :
  visit target vertices adjacency fixed damping seen kp h = Ok h' ->
  length h' = length h /\ same_outside vertices fixed h h'.
Proof.
  destruct kp as [key point]. unfold visit.
  destruct (decide (key ∈ fixed)) as [Hfix|Hfree].
  { intros [= <-]. split; [reflexivity|]. intros o _. reflexivity. }
  destruct (lookup_key adjacency key) as [nbrs|]; [|discriminate].
  destruct (gather vertices seen nbrs) as [pts|e]; [|discriminate].
  destruct (target pts) as [c|e]; [|discriminate].
  destruct (lookup_key vertices key) as [o|] eqn:Eo; [|discriminate].
  intros [= <-]. split; [apply length_bump|].
  intros o' Ho'. apply bump_other. intros ->. apply Ho'. now exists key.
Qed.

Lemma pass_frame todo (h h' : Heap F) :
  pass target vertices adjacency fixed damping todo h = Ok h' ->
  length h' = length h /\ same_outside vertices fixed h h'.
Proof.
  revert h. induction todo as [|kp todo IH]; intros h Hrun; cbn [pass] in Hrun.
  - injection Hrun as <-. split; [reflexivity|]. intros o _. reflexivity.
  - destruct (visit _ _ _ _ _ _ kp h) as [h1|e] eqn:E1; [|discriminate].
    apply visit_frame in E1 as [Hl1 Hs1]. apply IH in Hrun as [Hl2 Hs2].
    split; [congruence|]. intros o Ho. rewrite (Hs2 o Ho). now apply Hs1.
Qed.

Lemma passes_frame kmax (h h' : Heap F) :
  passes target vertices adjacency fixed damping kmax h = Ok h' ->
  length h' = length h /\ same_outside vertices fixed h h'.
Proof.
  revert h. induction kmax as [|n IH]; intros h Hrun; cbn [passes] in Hrun.
  - injection Hrun as <-. split; [reflexivity|]. intros o _. reflexivity.
  - destruct (pass _ _ _ _ _ vertices h) as [h1|e] eqn:E1; [|discriminate].
    apply pass_frame in E1 as [Hl1 Hs1]. apply IH in Hrun as [Hl2 Hs2].
    split; [congruence|]. intros o Ho. rewrite (Hs2 o Ho). now apply Hs1.
Qed.

Lemma gather_agree (h1 h2 : Heap F) nbrs :
  (forall nbr o, nbr ∈ nbrs -> lookup_key vertices nbr = Some o -> h1 !! o = h2 !! o) ->
  gather vertices h1 nbrs = gather vertices h2 nbrs.
Proof.
  induction nbrs as [|nbr nbrs IH]; intros Hag; [reflexivity|].
  cbn [gather]. rewrite IH by (intros; eapply Hag; eauto; now right).
  destruct (lookup_key vertices nbr) as [o|] eqn:Eo; [|reflexivity].
  cbn [mbind option_bind]. rewrite (Hag nbr o); [reflexivity|now left|exact Eo].
Qed.

Lemma visit_agree (h1 h2 : Heap F) kp h :
  free_apart vertices adjacency fixed ->
  same_outside vertices fixed h1 h2 ->
  visit target vertices adjacency fixed damping h1 kp h
  = visit target vertices adjacency fixed damping h2 kp h.
Proof.
  intros Hapart Hsame. destruct kp as [key point]. unfold visit.
  destruct (decide (key ∈ fixed)) as [Hfix|Hfree]; [reflexivity|].
  destruct (lookup_key adjacency key) as [nbrs|] eqn:En; [|reflexivity].
  rewrite (gather_agree h1 h2 nbrs); [reflexivity|].
  intros nbr o Hin Ho. symmetry. apply Hsame. eapply Hapart; eauto.
Qed.

Lemma pass_is_jacobi frozen todo (h : Heap F) :
  free_apart vertices adjacency fixed ->
  same_outside vertices fixed frozen h ->
  pass target vertices adjacency fixed damping todo h
  = pass_jacobi target vertices adjacency fixed damping frozen todo h.
Proof.
  intros Hapart. revert h. induction todo as [|kp todo IH]; intros h Hsame;
    cbn [pass pass_jacobi]; [reflexivity|].
  rewrite (visit_agree h frozen kp h Hapart).
  2:{ intros o Ho. symmetry. now apply Hsame. }
  destruct (visit _ _ _ _ _ frozen kp h) as [h1|e] eqn:E1; [|reflexivity].
  apply IH. intros o Ho. apply visit_frame in E1 as [_ Hs1].
  rewrite (Hs1 o Ho). now apply Hsame.
Qed.

End Pass.
End SmoothFacts.
End SmoothFacts.

Module SmoothFrame.
Import Smooth Mesh SmoothFacts.

(** X9: [smooth_centroid] and [smooth_centerofmass] write to the
    coordinate lists of the vertices that are not fixed and to nothing
    else: the number of lists stays, and a list that is not the list of
    such a vertex holds after the call what it held before.  So a fixed
    vertex keeps its coordinates, unless it shares its list with a vertex
    that is not fixed. *)
Theorem smoothing_writes_free_vertices_only {F : Type} {Ar : Arith F}
    (target : list (Vec3 F) -> result (Vec3 F))
    (vertices : Dict nat) (adjacency : Dict (list nat)) (fixed : list nat)
    (kmax : nat) (damping : F) (callback : DR.callback_t) (h h' : Heap F) :
  smooth_with target vertices adjacency fixed kmax damping callback h = Ok h' ->
  length h' = length h
  /\ (forall o, (forall key, key ∉ fixed -> lookup_key vertices key <> Some o) ->
        h' !! o = h !! o)
  /\ (forall key o, key ∈ fixed -> lookup_key vertices key = Some o ->
        (forall key', lookup_key vertices key' = Some o -> key' ∈ fixed) ->
        h' !! o = h !! o).
Proof.
  intros Hrun.
  assert (length h' = length h /\ same_outside vertices fixed h h') as [Hlen Hsame].
  { unfold smooth_with in Hrun. destruct callback; try discriminate;
      now apply passes_frame in Hrun. }
  split; [exact Hlen|]. split.
  - intros o Ho. apply Hsame. intros (key & Hfree & Hkey). now apply (Ho key).
  - intros key o _ _ Hall. apply Hsame. intros (key' & Hfree & Hkey).
    apply Hfree. now apply Hall.
Qed.

Lemma smoothing_writes_free_vertices_only_witness :
  exists h', smooth_centroid Ex2.pair_vertices Ex2.pair_adjacency [0%nat] 2
               (0.5)%float DR.NoCallback Ex2.pair_heap = Ok h'
    /\ length h' = 2%nat
    /\ h' !! 0%nat = Ex2.pair_heap !! 0%nat.
Proof.
  eexists. split; [vm_compute; reflexivity|].
  destruct (smoothing_writes_free_vertices_only centroid_points
              Ex2.pair_vertices Ex2.pair_adjacency [0%nat] 2 (0.5)%float
              DR.NoCallback Ex2.pair_heap _ ltac:(vm_compute; reflexivity))
    as (Hlen & _ & Hfix).
  split; [exact Hlen|].
  apply (Hfix 0%nat 0%nat); [left|reflexivity|].
  intros [|[|key']] Hkey; [left|discriminate|discriminate].
Defined.

(** X10: when every neighbour of a vertex that is not fixed is a vertex
    whose list is not written (for instance: it is fixed), the passes of
    [smooth_centroid] and [smooth_centerofmass] are the passes over
    frozen positions, whatever the order of the vertices: the order
    matters only where two vertices that move are neighbours. *)
Theorem smoothing_is_jacobi_when_free_vertices_are_apart {F : Type} {Ar : Arith F}
    (target : list (Vec3 F) -> result (Vec3 F))
    (vertices : Dict nat) (adjacency : Dict (list nat)) (fixed : list nat)
    (kmax : nat) (damping : F) (h : Heap F) :
  free_apart vertices adjacency fixed ->
  smooth_with target vertices adjacency fixed kmax damping DR.NoCallback h
  = passes_jacobi target vertices adjacency fixed damping kmax h.
Proof.
  intros Hapart. unfold smooth_with. revert h.
  induction kmax as [|n IH]; intros h; cbn [passes passes_jacobi]; [reflexivity|].
  rewrite (pass_is_jacobi target vertices adjacency fixed damping h vertices h Hapart)
    by (intros o _; reflexivity).
  destruct (pass_jacobi _ _ _ _ _ h vertices h); [apply IH|reflexivity].
Qed.

Lemma smoothing_is_jacobi_when_free_vertices_are_apart_witness :
  smooth_centroid Ex2.pair_vertices Ex2.pair_adjacency [0%nat] 3
    (0.5)%float DR.NoCallback Ex2.pair_heap
  = passes_jacobi centroid_points Ex2.pair_vertices Ex2.pair_adjacency [0%nat]
      (0.5)%float 3 Ex2.pair_heap.
Proof.
  apply (smoothing_is_jacobi_when_free_vertices_are_apart centroid_points).
  intros key nbrs nbr o Hfree Hadj Hin Ho (key' & Hfree' & Hkey').
  destruct key as [|[|key]]; [exfalso; apply Hfree; left| |discriminate].
  injection Hadj as <-. apply list_elem_of_singleton in Hin as ->.
  injection Ho as <-.
  destruct key' as [|[|key']]; [apply Hfree'; left|discriminate|discriminate].
Defined.

(** X11: the passes of [smooth_centroid] and of [smooth_centerofmass]
    keep nothing from one pass to the next but the positions: [m + n]
    passes are [m] passes followed by [n] passes on their result, and if
    the first [m] raise, so do the [m + n]. *)
Theorem smoothing_passes_compose {F : Type} {Ar : Arith F}
    (target : list (Vec3 F) -> result (Vec3 F))
    (vertices : Dict nat) (adjacency : Dict (list nat)) (fixed : list nat)
    (m n : nat) (damping : F) (h : Heap F) :
  smooth_with target vertices adjacency fixed (m + n) damping DR.NoCallback h
  = match smooth_with target vertices adjacency fixed m damping DR.NoCallback h with
    | Ok h' => smooth_with target vertices adjacency fixed n damping DR.NoCallback h'
    | Raise e => Raise e
    end.
Proof.
  unfold smooth_with. revert h.
  induction m as [|m IH]; intros h; cbn [passes Nat.add]; [reflexivity|].
  destruct (pass _ _ _ _ _ vertices h); [apply IH|reflexivity].
Qed.
End SmoothFrame.

(** ** smooth_area: which lists are written, and from which positions *)

Module AreaFacts.
Import Smooth SmoothArea Mesh SmoothFacts.
Section AreaFacts.
Context {F : Type} {Ar : Arith F}.
Local Abbreviation vec3 := (Vec3 F).

Lemma lookup_key_elem {A} (d : Dict A) k val :
  NoDup (map fst d) -> (k, val) ∈ d -> lookup_key d k = Some val.
Proof.
  induction d as [|[k' val'] d IH]; intros Hnd Hin.
  - now apply elem_of_nil in Hin.
  - cbn [map fst] in Hnd. apply NoDup_cons in Hnd as [Hk' Hnd].
    cbn [lookup_key]. apply elem_of_cons in Hin as [Heq|Hin].
    + injection Heq as -> ->. now rewrite Nat.eqb_refl.
    + destruct (Nat.eqb_spec k' k) as [->|Hne]; [|now apply IH].
      exfalso. apply Hk'. apply list_elem_of_In, in_map_iff.
      exists (k, val). split; [reflexivity|]. now apply list_elem_of_In.
Qed.

Lemma weigh_none (face_area : Dict F) (face_centroid : Dict vec3) fkeys xyz A :
  Forall (fun fkey : option nat => fkey = None) fkeys ->
  weigh face_area face_centroid fkeys xyz A = Ok (xyz, A).
Proof.
  induction 1 as [|fkey fkeys -> _ IH]; [reflexivity|]. exact IH.
Qed.

Section Pass.
Variable centroid : list vec3 -> result vec3.
Variable area_polygon : list vec3 -> result F.
Variables (vertices : Dict nat) (faces : Dict (list nat)).
Variable adjacency : Dict (list (option nat)).
Variable fixed : list nat.
Variable damping : F.

Lemma visit_area_frame fc fa kp (h h' : Heap F) :
  visit_area vertices adjacency fixed damping fc fa kp h = Ok h' ->
  length h' = length h /\ same_outside vertices fixed h h'.
Proof.
  destruct kp as [key point]. unfold visit_area.
  destruct (decide (key ∈ fixed)) as [Hfix|Hfree].
  { intros [= <-]. split; [reflexivity|]. intros o _. reflexivity. }
  destruct (lookup_key adjacency key) as [fkeys|]; [|discriminate].
  destruct (weigh fa fc fkeys zero3 f0) as [[xyz A]|e]; [|discriminate].
  destruct (lookup_key vertices key) as [o|] eqn:Eo; [|discriminate].
  intros [= <-]. split; [apply length_bump|].
  intros o' Ho'. apply bump_other. intros ->. apply Ho'. now exists key.
Qed.

Lemma visits_area_frame fc fa todo (h h' : Heap F) :
  visits_area vertices adjacency fixed damping fc fa todo h = Ok h' ->
  length h' = length h /\ same_outside vertices fixed h h'.
Proof.
  revert h. induction todo as [|kp todo IH]; intros h Hrun; cbn [visits_area] in Hrun.
  - injection Hrun as <-. split; [reflexivity|]. intros o _. reflexivity.
  - destruct (visit_area _ _ _ _ _ _ kp h) as [h1|e] eqn:E1; [|discriminate].
    apply visit_area_frame in E1 as [Hl1 Hs1]. apply IH in Hrun as [Hl2 Hs2].
    split; [congruence|]. intros o Ho. rewrite (Hs2 o Ho). now apply Hs1.
Qed.

Lemma pass_area_frame (h h' : Heap F) :
  pass_area centroid area_polygon vertices faces adjacency fixed damping h = Ok h' ->
  length h' = length h /\ same_outside vertices fixed h h'.
Proof.
  unfold pass_area.
  destruct (face_table centroid vertices h faces) as [fc|e]; [|discriminate].
  destruct (face_table area_polygon vertices h faces) as [fa|e]; [|discriminate].
  apply visits_area_frame.
Qed.

Lemma passes_area_frame kmax (h h' : Heap F) :
  passes_area centroid area_polygon vertices faces adjacency fixed damping kmax h = Ok h' ->
  length h' = length h /\ same_outside vertices fixed h h'.
Proof.
  revert h. induction kmax as [|n IH]; intros h Hrun; cbn [passes_area] in Hrun.
  - injection Hrun as <-. split; [reflexivity|]. intros o _. reflexivity.
  - destruct (pass_area _ _ _ _ _ _ _ h) as [h1|e] eqn:E1; [|discriminate].
    apply pass_area_frame in E1 as [Hl1 Hs1]. apply IH in Hrun as [Hl2 Hs2].
    split; [congruence|]. intros o Ho. rewrite (Hs2 o Ho). now apply Hs1.
Qed.

(** what the visits of one pass leave at the address of every vertex
    they go through *)
Lemma visits_area_spec fc fa todo (h h' : Heap F) :
  (forall key o, (key, o) ∈ todo -> lookup_key vertices key = Some o) ->
  NoDup (map snd todo) ->
  Forall (fun kp : nat * nat => (snd kp < length h)%nat) todo ->
  visits_area vertices adjacency fixed damping fc fa todo h = Ok h' ->
  (forall o, o ∉ map snd todo -> h' !! o = h !! o)
  /\ forall key o, (key, o) ∈ todo ->
       (key ∈ fixed -> h' !! o = h !! o)
       /\ (key ∉ fixed -> exists fkeys xyz A u,
             lookup_key adjacency key = Some fkeys
             /\ weigh fa fc fkeys zero3 f0 = Ok (xyz, A)
             /\ h !! o = Some u
             /\ h' !! o = Some (pulled damping (mean xyz A) u)).
Proof.
  revert h. induction todo as [|[key p] todo IH]; intros h Hvs Hnd Hlt Hrun;
    cbn [visits_area] in Hrun.
  { injection Hrun as <-. split; [reflexivity|].
    intros key o Hin. now apply elem_of_nil in Hin. }
  cbn [map snd] in Hnd. apply NoDup_cons in Hnd as [Hp Hnd].
  apply Forall_cons in Hlt as [Hplt Hlt]. cbn [snd] in Hplt.
  destruct (visit_area _ _ _ _ _ _ (key, p) h) as [h1|e] eqn:E1; [|discriminate].
  assert (length h1 = length h) as Hl1 by (now apply visit_area_frame in E1).
  assert (forall o, o <> p -> h1 !! o = h !! o) as Hother.
  { intros o Ho. unfold visit_area in E1.
    destruct (decide (key ∈ fixed)); [now injection E1 as <-|].
    destruct (lookup_key adjacency key) as [fkeys|]; [|discriminate].
    destruct (weigh fa fc fkeys zero3 f0) as [[xyz A]|e]; [|discriminate].
    rewrite (Hvs key p) in E1 by left.
    injection E1 as <-. now apply bump_other. }
  destruct (IH h1) as [Hout Hin]; try assumption.
  { intros key' o' Hin'. apply Hvs. now right. }
  { rewrite Hl1. exact Hlt. }
  assert (forall key' o', (key', o') ∈ todo -> o' <> p) as Hne.
  { intros key' o' Hin' ->. apply Hp. apply list_elem_of_In, in_map_iff.
    exists (key', p). split; [reflexivity|]. now apply list_elem_of_In. }
  split.
  - intros o Ho. cbn [map snd] in Ho. apply not_elem_of_cons in Ho as [Hop Ho].
    rewrite (Hout o Ho). now apply Hother.
  - intros key' o' Hin'. apply elem_of_cons in Hin' as [Heq|Hin'].
    + injection Heq as -> ->. rewrite (Hout p Hp). unfold visit_area in E1.
      destruct (decide (key ∈ fixed)) as [Hfix|Hfree].
      { injection E1 as <-. split; [reflexivity|contradiction]. }
      split; [contradiction|intros _].
      destruct (lookup_key adjacency key) as [fkeys|]; [|discriminate].
      destruct (weigh fa fc fkeys zero3 f0) as [[xyz A]|e] eqn:Ew; [|discriminate].
      rewrite (Hvs key p) in E1 by left. injection E1 as <-.
      destruct (lookup_lt_is_Some_2 h p Hplt) as [u Hu].
      exists fkeys, xyz, A, u. repeat split; try assumption; try reflexivity.
      now apply bump_self.
    + pose proof (Hne _ _ Hin') as Hop. destruct (Hin key' o' Hin') as [Hfix Hfree].
      rewrite <- (Hother o' Hop). split; [exact Hfix|].
      intros Hk. destruct (Hfree Hk) as (fkeys & xyz & A & u & H1 & H2 & H3 & H4).
      exists fkeys, xyz, A, u. auto.
Qed.

End Pass.
End AreaFacts.
End AreaFacts.

Module Area.
Import Smooth SmoothArea Mesh SmoothFacts AreaFacts.

(** X12: [smooth_area] writes to the coordinate lists of the vertices
    that are not fixed and to nothing else, as the two other smoothing
    functions do: the number of lists stays, a list that is not the list
    of such a vertex is left as it was, and a fixed vertex keeps its
    coordinates unless it shares its list with a vertex that is not
    fixed. *)
Theorem area_smoothing_writes_free_vertices_only {F : Type} {Ar : Arith F}
    (area_polygon : list (Vec3 F) -> result F)
    (vertices : Dict nat) (faces : Dict (list nat))
    (adjacency : Dict (list (option nat))) (fixed : list nat)
    (kmax : nat) (damping : F) (callback : DR.callback_t) (h h' : Heap F) :
  smooth_area area_polygon vertices faces adjacency fixed kmax damping callback h
  = Ok h' ->
  length h' = length h
  /\ (forall o, (forall key, key ∉ fixed -> lookup_key vertices key <> Some o) ->
        h' !! o = h !! o)
  /\ (forall key o, key ∈ fixed -> lookup_key vertices key = Some o ->
        (forall key', lookup_key vertices key' = Some o -> key' ∈ fixed) ->
        h' !! o = h !! o).
Proof.
  intros Hrun.
  assert (length h' = length h /\ same_outside vertices fixed h h') as [Hlen Hsame].
  { unfold smooth_area in Hrun. destruct callback; try discriminate;
      now apply passes_area_frame in Hrun. }
  split; [exact Hlen|]. split.
  - intros o Ho. apply Hsame. intros (key & Hfree & Hkey). now apply (Ho key).
  - intros key o _ _ Hall. apply Hsame. intros (key' & Hfree & Hkey).
    apply Hfree. now apply Hall.
Qed.

Lemma area_smoothing_writes_free_vertices_only_witness :
  exists h', smooth_area Ex4.unit_area Ex4.quad_vertices Ex4.quad_faces
               Ex4.quad_adjacency [0%nat; 1%nat] 2 (0.5)%float DR.NoCallback
               Ex4.quad_heap = Ok h'
    /\ length h' = 5%nat
    /\ h' !! 1%nat = Ex4.quad_heap !! 1%nat.
Proof.
  eexists. split; [vm_compute; reflexivity|].
  destruct (area_smoothing_writes_free_vertices_only Ex4.unit_area
              Ex4.quad_vertices Ex4.quad_faces Ex4.quad_adjacency [0%nat; 1%nat]
              2 (0.5)%float DR.NoCallback Ex4.quad_heap _
              ltac:(vm_compute; reflexivity))
    as (Hlen & _ & Hfix).
  split; [exact Hlen|].
  apply (Hfix 1%nat 1%nat); [right; left|reflexivity|].
  intros [|[|[|[|[|key']]]]] Hkey; try discriminate. right; left.
Defined.

(** X13: a pass of [smooth_area] moves every vertex from the positions
    at the start of the pass, whatever the order of the vertices: the
    centroids and areas of the faces are tabulated before the first
    vertex moves.  With [vertices] a dictionary of distinct lists, a
    vertex that is not fixed goes from [u] to [u + damping * (m - u)],
    where [m] is the sum of [area * centroid] over its faces in the
    tables of the start, divided by the sum of the areas if that is not
    zero; a fixed vertex stays. *)
Theorem area_pass_moves_from_start_positions {F : Type} {Ar : Arith F}
    (centroid : list (Vec3 F) -> result (Vec3 F))
    (area_polygon : list (Vec3 F) -> result F)
    (vertices : Dict nat) (faces : Dict (list nat))
    (adjacency : Dict (list (option nat))) (fixed : list nat)
    (damping : F) (h h' : Heap F) :
  distinct_lists vertices h ->
  pass_area centroid area_polygon vertices faces adjacency fixed damping h = Ok h' ->
  exists face_centroid face_area,
    face_table centroid vertices h faces = Ok face_centroid
    /\ face_table area_polygon vertices h faces = Ok face_area
    /\ forall key o, (key, o) ∈ vertices ->
         (key ∈ fixed -> h' !! o = h !! o)
         /\ (key ∉ fixed -> exists fkeys xyz A u,
               lookup_key adjacency key = Some fkeys
               /\ weigh face_area face_centroid fkeys zero3 f0 = Ok (xyz, A)
               /\ h !! o = Some u
               /\ h' !! o = Some (pulled damping (mean xyz A) u)).
Proof.
  intros (Hk & Ha & Hlt). unfold pass_area.
  destruct (face_table centroid vertices h faces) as [fc|e]; [|discriminate].
  destruct (face_table area_polygon vertices h faces) as [fa|e]; [|discriminate].
  intros Hrun. exists fc, fa. split; [reflexivity|]. split; [reflexivity|].
  apply visits_area_spec in Hrun as [_ Hin]; try assumption.
  intros key' o'. now apply lookup_key_elem.
Qed.

Lemma quad_distinct : distinct_lists Ex4.quad_vertices Ex4.quad_heap.
Proof.
  unfold distinct_lists. split; [|split].
  - apply (bool_decide_unpack _). reflexivity.
  - apply (bool_decide_unpack _). reflexivity.
  - repeat constructor.
Qed.

Lemma area_pass_moves_from_start_positions_witness :
  exists h' face_centroid face_area,
    pass_area centroid_points Ex4.unit_area Ex4.quad_vertices Ex4.quad_faces
      Ex4.quad_adjacency [1%nat] (0.5)%float Ex4.quad_heap = Ok h'
    /\ face_table centroid_points Ex4.quad_vertices Ex4.quad_heap Ex4.quad_faces
       = Ok face_centroid
    /\ face_table Ex4.unit_area Ex4.quad_vertices Ex4.quad_heap Ex4.quad_faces
       = Ok face_area
    /\ forall key o, (key, o) ∈ Ex4.quad_vertices ->
         (key ∈ [1%nat] -> h' !! o = Ex4.quad_heap !! o)
         /\ (key ∉ [1%nat] -> exists fkeys xyz A u,
               lookup_key Ex4.quad_adjacency key = Some fkeys
               /\ weigh face_area face_centroid fkeys zero3 f0 = Ok (xyz, A)
               /\ Ex4.quad_heap !! o = Some u
               /\ h' !! o = Some (pulled (0.5)%float (mean xyz A) u)).
Proof.
  eexists.
  destruct (area_pass_moves_from_start_positions centroid_points Ex4.unit_area
              Ex4.quad_vertices Ex4.quad_faces Ex4.quad_adjacency [1%nat]
              (0.5)%float Ex4.quad_heap _ quad_distinct
              ltac:(vm_compute; reflexivity))
    as (fc & fa & H1 & H2 & H3).
  exists fc, fa. split; [reflexivity|]. auto.
Defined.

(** X14: on binary64, a vertex that is not fixed and lists no face (an
    empty adjacency, or only [None] entries) is pulled towards the
    origin by a pass of [smooth_area]: the sums stay the integers 0, no
    division is made, and every coordinate [u] becomes
    [u + damping * (0 - u)]. *)
Theorem area_vertex_without_faces_is_pulled_to_origin
    (centroid : list (Vec3 float) -> result (Vec3 float))
    (area_polygon : list (Vec3 float) -> result float)
    (vertices : Dict nat) (faces : Dict (list nat))
    (adjacency : Dict (list (option nat))) (fixed : list nat)
    (damping : float) (h h' : Heap float) (key o : nat)
    (fkeys : list (option nat)) (u : Vec3 float) :
  distinct_lists vertices h ->
  (key, o) ∈ vertices -> key ∉ fixed ->
  lookup_key adjacency key = Some fkeys ->
  Forall (fun fkey : option nat => fkey = None) fkeys ->
  h !! o = Some u ->
  pass_area centroid area_polygon vertices faces adjacency fixed damping h = Ok h' ->
  h' !! o = Some (u.1.1 + damping * (0 - u.1.1),
                  u.1.2 + damping * (0 - u.1.2),
                  u.2 + damping * (0 - u.2))%float.
Proof.
  intros (Hk & Ha & Hlt) Hin Hfree Hadj Hnone Hu Hrun. unfold pass_area in Hrun.
  destruct (face_table centroid vertices h faces) as [fc|e]; [|discriminate].
  destruct (face_table area_polygon vertices h faces) as [fa|e]; [|discriminate].
  apply visits_area_spec in Hrun as [_ Hall]; try assumption.
  2:{ intros key' o'. now apply lookup_key_elem. }
  destruct (Hall key o Hin) as [_ Hmove].
  destruct (Hmove Hfree) as (fkeys' & xyz & A & u' & Hadj' & Hw & Hu' & ->).
  rewrite Hadj in Hadj'. injection Hadj' as <-.
  rewrite Hu in Hu'. injection Hu' as <-.
  rewrite (weigh_none _ _ _ _ _ Hnone) in Hw. injection Hw as <- <-.
  reflexivity.
Qed.

Lemma area_vertex_without_faces_is_pulled_to_origin_witness :
  exists h',
    pass_area centroid_points Ex4.unit_area Ex4.quad_vertices Ex4.quad_faces
      Ex4.quad_adjacency [1%nat] (0.5)%float Ex4.quad_heap = Ok h'
    /\ h' !! 4%nat = Some (2, 2, 2)%float.
Proof.
  eexists. split; [vm_compute; reflexivity|].
  apply (area_vertex_without_faces_is_pulled_to_origin centroid_points
           Ex4.unit_area Ex4.quad_vertices Ex4.quad_faces Ex4.quad_adjacency
           [1%nat] (0.5)%float Ex4.quad_heap _ 4%nat 4%nat [None] (4, 4, 4)%float).
  - exact quad_distinct.
  - do 4 right. left.
  - intros H. apply list_elem_of_singleton in H. discriminate.
  - reflexivity.
  - repeat constructor.
  - reflexivity.
  - vm_compute; reflexivity.
Defined.
End Area.

(** ** smooth_centroid, smooth_centerofmass: where a pass moves a vertex *)

Module SmoothTarget.
Import Smooth Mesh SmoothFacts AreaFacts.

Section Pass.
Context {F : Type} {Ar : Arith F}.
Variable target : list (Vec3 F) -> result (Vec3 F).
Variables (vertices : Dict nat) (adjacency : Dict (list nat)) (fixed : list nat).
Variable damping : F.

(** what a pass over frozen positions leaves at the address of every
    vertex it goes through *)
Lemma pass_jacobi_spec frozen todo (h h' : Heap F) :
  (forall key o, (key, o) ∈ todo -> lookup_key vertices key = Some o) ->
  NoDup (map snd todo) ->
  Forall (fun kp : nat * nat => (snd kp < length h)%nat) todo ->
  pass_jacobi target vertices adjacency fixed damping frozen todo h = Ok h' ->
  (forall o, o ∉ map snd todo -> h' !! o = h !! o)
  /\ forall key o, (key, o) ∈ todo ->
       (key ∈ fixed -> h' !! o = h !! o)
       /\ (key ∉ fixed -> exists nbrs pts c u,
             lookup_key adjacency key = Some nbrs
             /\ gather vertices frozen nbrs = Ok pts
             /\ target pts = Ok c
             /\ h !! o = Some u
             /\ h' !! o = Some (pulled damping c u)).
Proof.
  revert h. induction todo as [|[key p] todo IH]; intros h Hvs Hnd Hlt Hrun;
    cbn [pass_jacobi] in Hrun.
  { injection Hrun as <-. split; [reflexivity|].
    intros key o Hin. now apply elem_of_nil in Hin. }
  cbn [map snd] in Hnd. apply NoDup_cons in Hnd as [Hp Hnd].
  apply Forall_cons in Hlt as [Hplt Hlt]. cbn [snd] in Hplt.
  destruct (visit _ _ _ _ _ frozen (key, p) h) as [h1|e] eqn:E1; [|discriminate].
  assert (length h1 = length h) as Hl1 by (now apply visit_frame in E1).
  assert (forall o, o <> p -> h1 !! o = h !! o) as Hother.
  { intros o Ho. unfold visit in E1.
    destruct (decide (key ∈ fixed)); [now injection E1 as <-|].
    destruct (lookup_key adjacency key) as [nbrs|]; [|discriminate].
    destruct (gather vertices frozen nbrs) as [pts|e]; [|discriminate].
    destruct (target pts) as [c|e]; [|discriminate].
    rewrite (Hvs key p) in E1 by left.
    injection E1 as <-. now apply bump_other. }
  destruct (IH h1) as [Hout Hin]; try assumption.
  { intros key' o' Hin'. apply Hvs. now right. }
  { rewrite Hl1. exact Hlt. }
  assert (forall key' o', (key', o') ∈ todo -> o' <> p) as Hne.
  { intros key' o' Hin' ->. apply Hp. apply list_elem_of_In, in_map_iff.
    exists (key', p). split; [reflexivity|]. now apply list_elem_of_In. }
  split.
  - intros o Ho. cbn [map snd] in Ho. apply not_elem_of_cons in Ho as [Hop Ho].
    rewrite (Hout o Ho). now apply Hother.
  - intros key' o' Hin'. apply elem_of_cons in Hin' as [Heq|Hin'].
    + injection Heq as -> ->. rewrite (Hout p Hp). unfold visit in E1.
      destruct (decide (key ∈ fixed)) as [Hfix|Hfree].
      { injection E1 as <-. split; [reflexivity|contradiction]. }
      split; [contradiction|intros _].
      destruct (lookup_key adjacency key) as [nbrs|]; [|discriminate].
      destruct (gather vertices frozen nbrs) as [pts|e] eqn:Eg; [|discriminate].
      destruct (target pts) as [c|e] eqn:Et; [|discriminate].
      rewrite (Hvs key p) in E1 by left. injection E1 as <-.
      destruct (lookup_lt_is_Some_2 h p Hplt) as [u Hu].
      exists nbrs, pts, c, u. repeat split; try assumption; try reflexivity.
      now apply bump_self.
    + pose proof (Hne _ _ Hin') as Hop. destruct (Hin key' o' Hin') as [Hfix Hfree].
      rewrite <- (Hother o' Hop). split; [exact Hfix|].
      intros Hk. destruct (Hfree Hk) as (nbrs & pts & c & u & H1 & H2 & H3 & H4 & H5).
      exists nbrs, pts, c, u. auto.
Qed.
End Pass.

(** X15: one pass ([kmax = 1]) of [smooth_centroid] or
    [smooth_centerofmass] over a dictionary of distinct lists in which
    every neighbour of a vertex that is not fixed is a vertex whose list
    is not written: a vertex that is not fixed goes from [u] to
    [u + damping * (c - u)], where [c] is the centroid, or the center of
    mass, of its neighbours at their positions before the call; a fixed
    vertex stays. *)
Theorem smoothing_pass_moves_towards_target {F : Type} {Ar : Arith F}
    (target : list (Vec3 F) -> result (Vec3 F))
    (vertices : Dict nat) (adjacency : Dict (list nat)) (fixed : list nat)
    (damping : F) (h h' : Heap F) :
  distinct_lists vertices h ->
  free_apart vertices adjacency fixed ->
  smooth_with target vertices adjacency fixed 1 damping DR.NoCallback h = Ok h' ->
  forall key o, (key, o) ∈ vertices ->
    (key ∈ fixed -> h' !! o = h !! o)
    /\ (key ∉ fixed -> exists nbrs pts c u,
          lookup_key adjacency key = Some nbrs
          /\ gather vertices h nbrs = Ok pts
          /\ target pts = Ok c
          /\ h !! o = Some u
          /\ h' !! o = Some (pulled damping c u)).
Proof.
  intros (Hk & Ha & Hlt) Hapart Hrun. unfold smooth_with in Hrun.
  cbn [passes] in Hrun.
  destruct (pass target vertices adjacency fixed damping vertices h) as [h1|e] eqn:E1;
    [|discriminate].
  injection Hrun as <-.
  rewrite (pass_is_jacobi target vertices adjacency fixed damping h vertices h Hapart)
    in E1 by (intros o _; reflexivity).
  apply pass_jacobi_spec in E1 as [_ Hin]; try assumption.
  intros key' o'. now apply lookup_key_elem.
Qed.

Lemma pair_distinct : distinct_lists Ex2.pair_vertices Ex2.pair_heap.
Proof.
  unfold distinct_lists. split; [|split].
  - apply (bool_decide_unpack _). reflexivity.
  - apply (bool_decide_unpack _). reflexivity.
  - repeat constructor.
Qed.

Lemma smoothing_pass_moves_towards_target_witness :
  exists h',
    smooth_centroid Ex2.pair_vertices Ex2.pair_adjacency [0%nat] 1 (0.5)%float
      DR.NoCallback Ex2.pair_heap = Ok h'
    /\ forall key o, (key, o) ∈ Ex2.pair_vertices ->
         (key ∈ [0%nat] -> h' !! o = Ex2.pair_heap !! o)
         /\ (key ∉ [0%nat] -> exists nbrs pts c u,
               lookup_key Ex2.pair_adjacency key = Some nbrs
               /\ gather Ex2.pair_vertices Ex2.pair_heap nbrs = Ok pts
               /\ centroid_points pts = Ok c
               /\ Ex2.pair_heap !! o = Some u
               /\ h' !! o = Some (pulled (0.5)%float c u)).
Proof.
  eexists. split; [vm_compute; reflexivity|].
  apply (smoothing_pass_moves_towards_target centroid_points Ex2.pair_vertices
           Ex2.pair_adjacency [0%nat] (0.5)%float Ex2.pair_heap).
  - exact pair_distinct.
  - intros key nbrs nbr o Hfree Hadj Hin Ho (key' & Hfree' & Hkey').
    destruct key as [|[|key]]; [exfalso; apply Hfree; left| |discriminate].
    injection Hadj as <-. apply list_elem_of_singleton in Hin as ->.
    injection Ho as <-.
    destruct key' as [|[|key']]; [apply Hfree'; left|discriminate|discriminate].
  - vm_compute; reflexivity.
Defined.
End SmoothTarget.

(** ** helpers: homogeneous coordinates, in exact arithmetic *)

Module Homogeneous.
Import Helpers.
Local Existing Instance R_arith.
Local Open Scope R_scope.

Lemma div_R (a b : R) : b <> 0 -> div a b = Ok (a / b).
Proof.
  intros Hb. unfold div. cbn [feq R_arith]. unfold Reqb, f0. cbn [ofZ R_arith].
  destruct (Req_dec_T b 0); [contradiction|reflexivity].
Qed.

(** X16: in exact arithmetic, [dehomogenize] undoes [homogenize]: for
    a weight [w] that is not zero and vectors of three components,
    [dehomogenize(homogenize(vectors, w))] is [vectors]. *)
Theorem homogenize_round_trip (vectors : list (list R)) (w : R) :
  w <> 0 ->
  Forall (fun u => length u = 3%nat) vectors ->
  (hs <- homogenize vectors w ;; dehomogenize hs) = Ok vectors.
Proof.
  intros Hw Hlen. unfold homogenize, dehomogenize.
  induction Hlen as [|u vectors Hu _ IH]; [reflexivity|].
  destruct u as [|x [|y [|z [|? ?]]]]; try discriminate.
  cbn [mapM]. rewrite !div_R by assumption. cbn [bind].
  destruct (mapM _ vectors) as [hs|e]; [|discriminate].
  cbn [bind mapM] in *.
  destruct (mapM _ hs) as [vs|e]; [|discriminate].
  cbn [bind]. injection IH as ->.
  cbn [fmul R_arith].
  replace (x / w * w) with x by (field; assumption).
  replace (y / w * w) with y by (field; assumption).
  replace (z / w * w) with z by (field; assumption).
  reflexivity.
Qed.

Lemma homogenize_round_trip_witness :
  (hs <- homogenize [[1; 2; 3]; [4; 5; 6]] 2 ;; dehomogenize hs)
  = Ok [[1; 2; 3]; [4; 5; 6]].
Proof.
  apply (homogenize_round_trip [[1; 2; 3]; [4; 5; 6]] 2).
  - lra.
  - repeat constructor.
Defined.

Lemma last_snoc_removelast {A} (xs : list A) (y : A) :
  last (xs ++ [y]) = Some y /\ removelast (xs ++ [y]) = xs.
Proof.
  split; [apply last_snoc|].
  rewrite removelast_app by discriminate. cbn [removelast]. apply app_nil_r.
Qed.

(** X17: [dehomogenize] multiplies by the weight where
    [dehomogenize_numpy] divides by it.  On a row [[x, y, z, w]] with
    [w] not zero the two agree, in exact arithmetic, only when [w * w = 1]
    or the row is the origin. *)
Theorem dehomogenize_multiplies_where_numpy_divides (x y z w : R) :
  dehomogenize [[x; y; z; w]] = Ok [[x * w; y * w; z * w]]
  /\ dehomogenize_numpy [[x; y; z; w]] = Ok [[x / w; y / w; z / w]]
  /\ (w <> 0 ->
      (dehomogenize [[x; y; z; w]] = dehomogenize_numpy [[x; y; z; w]]
       <-> w * w = 1 \/ (x = 0 /\ y = 0 /\ z = 0))).
Proof.
  split; [reflexivity|]. split; [reflexivity|]. intros Hw.
  change (dehomogenize [[x; y; z; w]]) with (Ok [[x * w; y * w; z * w]]).
  change (dehomogenize_numpy [[x; y; z; w]]) with (Ok [[x / w; y / w; z / w]]).
  assert (forall e, e * w = e / w <-> e * (w * w - 1) = 0) as Hone.
  { intros e. split; intros H.
    - apply (f_equal (fun t => t * w)) in H. unfold Rdiv in H.
      rewrite (Rmult_assoc e (/ w) w), Rinv_l, Rmult_1_r in H by assumption. lra.
    - apply (Rmult_eq_reg_r w); [|assumption]. unfold Rdiv.
      rewrite (Rmult_assoc e (/ w) w), Rinv_l, Rmult_1_r by assumption. lra. }
  split.
  - intros [= Hx Hy Hz]. apply Hone in Hx, Hy, Hz.
    destruct (Req_dec_T (w * w) 1) as [H1|H1]; [now left|right].
    assert (w * w - 1 <> 0) as Hd by lra.
    repeat split;
      match goal with
      | H : ?e * _ = 0 |- ?e = 0 =>
          apply Rmult_integral in H as [H|H]; [exact H|contradiction]
      end.
  - intros [H1|(-> & -> & ->)].
    + assert (forall e, e * w = e / w) as Heq by (intros e; apply Hone; rewrite H1; lra).
      now rewrite !Heq.
    + do 2 f_equal. unfold Rdiv. rewrite !Rmult_0_l. reflexivity.
Qed.
End Homogeneous.

(** ** helpers: determinant *)

Module MatFacts.
Import Helpers Mat.
Section MatFacts.
Context {F : Type} {Ar : Arith F}.
Local Abbreviation matrix := (list (list F)).

Lemma mapM_total {A B} (g : A -> result B) (h : A -> B) (xs : list A) :
  (forall y, y ∈ xs -> g y = Ok (h y)) -> mapM g xs = Ok (map h xs).
Proof.
  induction xs as [|y xs IH]; intros Hg; [reflexivity|].
  cbn [mapM map]. rewrite (Hg y) by left. cbn [bind].
  rewrite IH by (intros; apply Hg; now right). reflexivity.
Qed.

Lemma foldM_cons {A S} (g : S -> A -> result S) (y : A) (xs : list A) (s : S) :
  foldM g (y :: xs) s = (s' <- g s y ;; foldM g xs s').
Proof. reflexivity. Qed.

Lemma foldM_total {A S} (g : S -> A -> result S) (xs : list A) (s : S) :
  (forall s y, y ∈ xs -> exists s', g s y = Ok s') -> exists s', foldM g xs s = Ok s'.
Proof.
  revert s. induction xs as [|y xs IH]; intros s Hg; cbn [foldM]; [eauto|].
  destruct (Hg s y) as [s1 ->]; [left|]. cbn [bind].
  apply IH. intros; apply Hg; now right.
Qed.

Lemma item_entry_at (M : matrix) n i j :
  length M = n -> Forall (fun ro => length ro = n) M ->
  (i < n)%nat -> (j < n)%nat -> item M i j = Ok (entry_at M i j).
Proof.
  intros Hlen Hsq Hi Hj. unfold item, entry_at.
  destruct (M !! i) as [ro|] eqn:Ei.
  - assert (length ro = n) as Hro.
    { rewrite Forall_forall in Hsq. apply Hsq. eapply list_elem_of_lookup_2; eauto. }
    destruct (ro !! j) as [y|] eqn:Ej.
    + cbn [mbind option_bind]. now rewrite Ej.
    + apply lookup_ge_None in Ej. lia.
  - apply lookup_ge_None in Ei. lia.
Qed.

Lemma length_filter_ne t a n :
  length (filter (fun m => m <> t) (seq a n))
  = if decide (a <= t < a + n)%nat then (n - 1)%nat else n.
Proof.
  revert a. induction n as [|n IH]; intros a.
  - cbn [seq]. destruct (decide _); [lia|reflexivity].
  - cbn [seq]. rewrite filter_cons. destruct (decide (a <> t)) as [Hne|Heq].
    + cbn [length]. rewrite IH.
      destruct (decide (S a <= t < S a + n)%nat), (decide (a <= t < a + S n)%nat); lia.
    + rewrite IH.
      destruct (decide (S a <= t < S a + n)%nat), (decide (a <= t < a + S n)%nat); lia.
Qed.

Lemma minor_rows_square (M : matrix) n t :
  length M = n -> Forall (fun ro => length ro = n) M ->
  minor_rows M n t = Ok (minor_of M n t).
Proof.
  intros Hlen Hsq. unfold minor_rows, minor_of.
  apply mapM_total. intros t1 Ht1. apply elem_of_seq in Ht1.
  apply mapM_total. intros m Hm. apply list_elem_of_filter in Hm as [_ Hm].
  apply elem_of_seq in Hm. apply (item_entry_at M n); try assumption; lia.
Qed.

Lemma minor_of_square (M : matrix) n t :
  (t < S n)%nat ->
  length (minor_of M (S n) t) = n
  /\ Forall (fun ro => length ro = n) (minor_of M (S n) t).
Proof.
  intros Ht. unfold minor_of. split.
  - rewrite length_map, length_seq. lia.
  - apply Forall_forall. intros ro Hro. apply list_elem_of_In, in_map_iff in Hro as (t1 & <- & _).
    rewrite length_map, length_filter_ne. destruct (decide _); lia.
Qed.

Lemma det_rec_S n (M : matrix) :
  det_rec (S n) M
  = if Nat.eqb (S n) 2 then
      m00 <- item M 0 0 ;; m11 <- item M 1 1 ;;
      m01 <- item M 0 1 ;; m10 <- item M 1 0 ;;
      Ok (fsub (fmul m00 m11) (fmul m01 m10))
    else
      end_ <- foldM (column_step (det_rec n) M (S n)) (seq 0 (S n)) (1, f0) ;;
      Ok end_.2.
Proof. reflexivity. Qed.

Lemma column_step_square det n (M : matrix) st t :
  length M = S n -> Forall (fun ro => length ro = S n) M -> (t < S n)%nat ->
  column_step det M (S n) st t
  = (d <- det (minor_of M (S n) t) ;;
     Ok (st.1 * -1, fadd st.2 (fmul (fmul (ofZ st.1) (entry_at M 0 t)) d))).
Proof.
  intros Hlen Hsq Ht. unfold column_step.
  rewrite (minor_rows_square M (S n) t Hlen Hsq). cbn [bind].
  rewrite (item_entry_at M (S n)) by (try assumption; lia). reflexivity.
Qed.

Lemma det_rec_total n (M : matrix) :
  length M = n -> Forall (fun ro => length ro = n) M ->
  exists d, det_rec n M = Ok d.
Proof.
  revert M. induction n as [|n IH]; intros M Hlen Hsq.
  - cbn. eauto.
  - rewrite det_rec_S. destruct (Nat.eqb (S n) 2) eqn:E2.
    + rewrite !(item_entry_at M (S n)) by (try assumption; apply Nat.eqb_eq in E2; lia).
      cbn [bind]. eauto.
    + destruct (foldM_total (column_step (det_rec n) M (S n)) (seq 0 (S n)) (1, f0))
        as [st' ->]; [|cbn [bind]; eauto].
      intros st t Ht. apply elem_of_seq in Ht.
      rewrite column_step_square by (try assumption; lia).
      destruct (minor_of_square M n t) as [Hl1 Hs1]; [lia|].
      destruct (IH _ Hl1 Hs1) as [d ->]. cbn [bind]. eauto.
Qed.

Lemma square_forallb (M : matrix) :
  forallb (fun c => Nat.eqb (length c) (length M)) M = true <-> square M.
Proof.
  unfold square. rewrite forallb_forall, Forall_forall. split; intros H ro Hro.
  - apply Nat.eqb_eq, H. now apply list_elem_of_In.
  - apply Nat.eqb_eq, H. now apply list_elem_of_In.
Qed.
End MatFacts.
End MatFacts.

Module Determinant.
Import Helpers Mat MatFacts.

(** X18: [determinant] returns a number for every square matrix, of
    any dimension and with or without the check: no index is out of range.
    With the check, which is the default, it raises [ValueError] for every
    matrix that is not square, that is, as soon as one row has not as many
    entries as there are rows. *)
Theorem determinant_checks_squareness {F : Type} {Ar : Arith F} (M : list (list F)) :
  (square M -> exists d, determinant M true = Ok d /\ determinant M false = Ok d)
  /\ (~ square M -> determinant M true = Raise ValueError).
Proof.
  unfold determinant. split.
  - intros Hsq. destruct (det_rec_total (length M) M eq_refl Hsq) as [d Hd].
    exists d. apply square_forallb in Hsq. rewrite Hsq, Hd. split; reflexivity.
  - intros Hsq. destruct (forallb _ M) eqn:E; [|reflexivity].
    apply square_forallb in E. contradiction.
Qed.
End Determinant.

(** ** helpers: determinant, in exact arithmetic and on binary64 *)

Module DetR.
Import Helpers Mat MatFacts.
Local Existing Instance R_arith.
Local Open Scope R_scope.

(** X19: in exact arithmetic, [determinant] of a 3-by-3 matrix is the
    expansion along the first row with the usual signs. *)
Theorem determinant_3x3 (a b c d e f g h i : R) :
  determinant [[a; b; c]; [d; e; f]; [g; h; i]] true
  = Ok (a * (e * i - f * h) - b * (d * i - f * g) + c * (d * h - e * g)).
Proof.
  cbv -[Rplus Rmult Rminus IZR]. f_equal. ring.
Qed.

Lemma identity_rows n :
  length (identity_matrix (F := R) n) = n
  /\ Forall (fun ro => length ro = n) (identity_matrix (F := R) n).
Proof.
  unfold identity_matrix. split.
  - now rewrite length_map, length_seq.
  - apply Forall_forall. intros ro Hro.
    apply list_elem_of_In, in_map_iff in Hro as (j & <- & _).
    now rewrite length_map, length_seq.
Qed.

Lemma entry_at_identity n i j :
  (i < n)%nat -> (j < n)%nat ->
  entry_at (identity_matrix (F := R) n) i j = if Nat.eqb j i then 1 else 0.
Proof.
  intros Hi Hj. unfold entry_at, identity_matrix.
  rewrite ListFacts.lookup_map, lookup_seq_lt by assumption.
  cbn [fmap option_fmap option_map mbind option_bind].
  rewrite ListFacts.lookup_map, lookup_seq_lt by assumption. reflexivity.
Qed.

Lemma filter_ne_0_from a n :
  (1 <= a)%nat -> filter (fun m => m <> 0%nat) (seq a n) = seq a n.
Proof.
  revert a. induction n as [|n IH]; intros a Ha; [reflexivity|].
  cbn [seq]. rewrite filter_cons_True by lia. f_equal. apply IH. lia.
Qed.

Lemma filter_ne_0 n : filter (fun m => m <> 0%nat) (seq 0 (S n)) = seq 1 n.
Proof.
  cbn [seq]. rewrite filter_cons_False by (intros H; now apply H).
  now apply filter_ne_0_from.
Qed.

Lemma minor_of_identity n :
  minor_of (identity_matrix (F := R) (S n)) (S n) 0 = identity_matrix n.
Proof.
  unfold minor_of. rewrite filter_ne_0. replace (S n - 1)%nat with n by lia.
  unfold identity_matrix at 2. rewrite <- !seq_shift, !map_map.
  apply map_ext_in. intros j Hj. apply in_seq in Hj. rewrite map_map.
  apply map_ext_in. intros i Hi. apply in_seq in Hi.
  rewrite entry_at_identity by lia. reflexivity.
Qed.

Lemma later_columns_of_identity n ts st :
  Forall (fun t => (1 <= t < S n)%nat) ts ->
  exists i, foldM (column_step (det_rec n) (identity_matrix (S n)) (S n)) ts st
            = Ok (i, st.2).
Proof.
  destruct (identity_rows (S n)) as [Hlen Hsq].
  intros Hts. revert st. induction Hts as [|t ts Ht _ IH]; intros [i s].
  - cbn [foldM snd]. eauto.
  - rewrite foldM_cons, column_step_square by (try assumption; lia).
    destruct (minor_of_square (identity_matrix (S n)) n t) as [Hl1 Hs1]; [lia|].
    destruct (det_rec_total n _ Hl1 Hs1) as [d ->]. cbn [bind fst snd].
    rewrite entry_at_identity by lia.
    destruct (Nat.eqb_spec t 0) as [->|_]; [lia|].
    match goal with
    | |- context [foldM _ ts ?st] => destruct (IH st) as [i' ->]
    end.
    exists i'. cbn [snd fadd fmul R_arith]. do 2 f_equal. ring.
Qed.

Lemma det_rec_identity n :
  det_rec (S (S n)) (identity_matrix (S (S n))) = Ok 1.
Proof.
  induction n as [|n IH].
  - cbv -[Rplus Rmult Rminus IZR]. f_equal. ring.
  - rewrite det_rec_S. change (Nat.eqb (S (S (S n))) 2) with false. cbv iota.
    destruct (identity_rows (S (S (S n)))) as [Hlen Hsq].
    change (seq 0 (S (S (S n)))) with (0%nat :: seq 1 (S (S n))).
    rewrite foldM_cons, column_step_square by (try assumption; lia).
    rewrite minor_of_identity, IH. cbn [bind fst snd].
    rewrite entry_at_identity by lia. cbn [Nat.eqb].
    match goal with
    | |- context [foldM _ ?ts ?st] =>
        destruct (later_columns_of_identity (S (S n)) ts st) as [i ->]
    end.
    { apply Forall_forall. intros t Ht. apply elem_of_seq in Ht. lia. }
    cbn [bind snd]. unfold f0. cbn [fadd fmul ofZ R_arith]. f_equal. ring.
Qed.

(** X20: in exact arithmetic, [determinant(identity_matrix(dim))] is 1
    for every [dim >= 2]; for [dim = 1] and [dim = 0] it is 0: the
    expansion of a matrix of one row multiplies its entry by the
    determinant of the empty matrix, which the code takes to be 0. *)
Theorem determinant_of_identity (dim : nat) :
  determinant (identity_matrix dim) true = Ok (if (2 <=? dim)%nat then 1 else 0).
Proof.
  unfold determinant. destruct (identity_rows dim) as [Hlen Hsq].
  rewrite Hlen in *.
  assert (forallb (fun c => Nat.eqb (length c) dim) (identity_matrix dim) = true) as ->.
  { apply forallb_forall. intros ro Hro. apply Nat.eqb_eq.
    rewrite Forall_forall in Hsq. apply Hsq. now apply list_elem_of_In. }
  cbn [negb andb].
  destruct dim as [|[|n]].
  - reflexivity.
  - cbv -[Rplus Rmult Rminus IZR]. f_equal. ring.
  - rewrite det_rec_identity. reflexivity.
Qed.
End DetR.

Module DetFloat.
Import Helpers FloatFacts.
Local Open Scope float_scope.

Lemma one_entry_float (y : float) : finite y = true -> 0 + 1 * y * 0 = 0.
Proof.
  unfold finite. cbn [isnan isinf float_arith]. rewrite is_nan_SF, is_infinity_SF.
  intros Hy. rewrite mul_1_l. apply Prim2SF_inj.
  rewrite FloatAxioms.add_spec, FloatAxioms.mul_spec.
  change (Prim2SF 0) with (S754_zero false).
  destruct (Prim2SF y) as [[]|[]| |[] m e]; try discriminate; reflexivity.
Qed.

(** X21: [determinant] of a matrix of one row and one column is 0
    whatever the entry is, in exact arithmetic and, for a finite entry, on
    binary64: the expansion multiplies the entry by the determinant of the
    empty matrix, which is 0.  (The determinant of [[y]] is [y].) *)
Theorem determinant_of_one_entry :
  (forall (y : R) (check : bool),
      determinant (Ar := R_arith) [[y]] check = Ok 0%R)
  /\ (forall (y : float) (check : bool),
        finite y = true -> determinant [[y]] check = Ok 0)
  /\ (forall check : bool, determinant (F := float) [] check = Ok 0).
Proof.
  split; [|split].
  - intros y [|]; cbv -[Rplus Rmult Rminus IZR]; f_equal; ring.
  - intros y check Hy.
    assert (determinant [[y]] check = Ok (0 + 1 * y * 0)) as ->
      by (destruct check; reflexivity).
    now rewrite one_entry_float.
  - intros [|]; reflexivity.
Qed.
End DetFloat.

(** ** helpers: inverse of a 2-by-2 matrix *)

Module Inverse.
Import Helpers Mat.

(** X22: [inverse] of a 2-by-2 matrix whose determinant compares equal
    to zero raises [ZeroDivisionError]: the [ValueError] for a singular
    matrix is built under [if detM == 0] and never raised, and the first
    entry of the result divides by the determinant. *)
Theorem inverse_of_singular_2x2 {F : Type} {Ar : Arith F}
    (transpose_matrix : list (list F) -> list (list F)) (a b c d : F) :
  feq (fsub (fmul a d) (fmul b c)) f0 = true ->
  determinant [[a; b]; [c; d]] true = Ok (fsub (fmul a d) (fmul b c))
  /\ inverse transpose_matrix [[a; b]; [c; d]] = Raise ZeroDivisionError.
Proof.
  intros Hdet. split; [reflexivity|].
  unfold inverse.
  change (determinant [[a; b]; [c; d]] true) with (Ok (fsub (fmul a d) (fmul b c))).
  cbn [bind length Nat.eqb]. change (item [[a; b]; [c; d]] 1 1) with (Ok d).
  cbn [bind]. unfold div at 1. rewrite Hdet. reflexivity.
Qed.

Lemma inverse_of_singular_2x2_witness :
  determinant [[1; 2]; [2; 4]]%float true = Ok 0%float
  /\ inverse (fun M => M) [[1; 2]; [2; 4]]%float = Raise ZeroDivisionError.
Proof.
  exact (inverse_of_singular_2x2 (fun M => M) 1%float 2%float 2%float 4%float eq_refl).
Defined.

Section Exact.
Local Existing Instance R_arith.
Local Open Scope R_scope.

(** X23: in exact arithmetic, [inverse] of a 2-by-2 matrix with a
    determinant that is not zero returns a matrix that is its inverse on
    both sides. *)
Theorem inverse_2x2 (transpose_matrix : list (list R) -> list (list R))
    (a b c d : R) :
  a * d - b * c <> 0 ->
  exists N, inverse transpose_matrix [[a; b]; [c; d]] = Ok N
    /\ mul2 [[a; b]; [c; d]] N = [[1; 0]; [0; 1]]
    /\ mul2 N [[a; b]; [c; d]] = [[1; 0]; [0; 1]].
Proof.
  intros Hdet. unfold inverse.
  change (determinant [[a; b]; [c; d]] true) with (Ok (a * d - b * c)).
  cbn [bind length Nat.eqb].
  change (item [[a; b]; [c; d]] 1 1) with (Ok d).
  change (item [[a; b]; [c; d]] 0 1) with (Ok b).
  change (item [[a; b]; [c; d]] 1 0) with (Ok c).
  change (item [[a; b]; [c; d]] 0 0) with (Ok a).
  cbn [bind]. rewrite !Homogeneous.div_R by assumption. cbn [bind].
  eexists. split; [reflexivity|].
  unfold mul2. cbn [fadd fmul ofZ R_arith].
  split; repeat (f_equal; try (field; assumption)).
Qed.

Lemma inverse_2x2_witness :
  exists N, inverse (fun M => M) [[1; 2]; [3; 4]] = Ok N
    /\ mul2 [[1; 2]; [3; 4]] N = [[1; 0]; [0; 1]]
    /\ mul2 N [[1; 2]; [3; 4]] = [[1; 0]; [0; 1]].
Proof. apply (inverse_2x2 (fun M => M) 1 2 3 4). lra. Defined.
End Exact.
End Inverse.

(** ** helpers: the weight 1.0 on binary64 *)

Module UnitWeight.
Import Helpers FloatFacts.
Local Open Scope float_scope.

Lemma round_exact s m e :
  SpecFloat.bounded prec emax m e = true ->
  binary_round_aux prec emax s (Zpos m) e loc_Exact = S754_finite s m e.
Proof.
  unfold SpecFloat.bounded, canonical_mantissa. intros H.
  apply andb_prop in H as [Hc Hb]. apply Z.eqb_eq in Hc.
  unfold binary_round_aux, shr_fexp. cbn [SpecFloat.Zdigits2].
  change IntDef.Z.add with Z.add in *. rewrite Hc.
  change IntDef.Z.sub with Z.sub. rewrite Z.sub_diag.
  cbn [SpecFloat.shr SpecFloat.shr_record_of_loc SpecFloat.loc_of_shr_record
       SpecFloat.shr_m SpecFloat.round_nearest_even SpecFloat.Zdigits2].
  change IntDef.Z.add with Z.add. rewrite Hc.
  change IntDef.Z.sub with Z.sub. rewrite Z.sub_diag.
  cbn [SpecFloat.shr SpecFloat.shr_m]. now rewrite Hb.
Qed.

Lemma round_doubled s m e :
  SpecFloat.bounded prec emax m e = true ->
  binary_round_aux prec emax s (Zpos m~0) (e - 1) loc_Exact = S754_finite s m e.
Proof.
  unfold SpecFloat.bounded, canonical_mantissa. intros H.
  apply andb_prop in H as [Hc Hb]. apply Z.eqb_eq in Hc.
  unfold binary_round_aux, shr_fexp.
  cbn [SpecFloat.Zdigits2 SpecFloat.digits2_pos].
  rewrite Pos2Z.inj_succ.
  remember (Z.pos (digits2_pos m)) as d eqn:Hd.
  change IntDef.Z.add with Z.add in *.
  replace (Z.succ d + (e - 1))%Z with (d + e)%Z by lia.
  rewrite Hc.
  change IntDef.Z.sub with Z.sub.
  replace (e - (e - 1))%Z with 1%Z by lia.
  cbn [SpecFloat.shr SpecFloat.shr_record_of_loc SpecFloat.iter_pos SpecFloat.shr_1 orb].
  cbn [SpecFloat.loc_of_shr_record SpecFloat.shr_m SpecFloat.round_nearest_even
       SpecFloat.Zdigits2].
  rewrite <- Hd. change IntDef.Z.add with Z.add.
  replace (e - 1 + 1)%Z with e by lia. rewrite Hc.
  change IntDef.Z.sub with Z.sub. rewrite Z.sub_diag. cbn [SpecFloat.shr SpecFloat.shr_m].
  now rewrite Hb.
Qed.

Lemma mul_1_r y : y * 1 = y.
Proof.
  apply Prim2SF_inj. rewrite FloatAxioms.mul_spec.
  pose proof (Prim2SF_valid y) as V.
  change (Prim2SF 1) with (S754_finite false 4503599627370496 (-52)).
  destruct (Prim2SF y) as [[]|[]| |s m e]; try reflexivity.
  unfold SF64mul, SFmul. rewrite xorb_false_r, Pos.mul_comm.
  change IntDef.Z.add with Z.add. rewrite Z.add_comm.
  apply round_shifted. exact V.
Qed.

Lemma div_eucl_exact a b :
  (0 < b)%Z -> Z.div_eucl (a * b) b = (a, 0%Z).
Proof.
  intros Hb. pose proof (Z.div_mul a b ltac:(lia)) as Hq.
  pose proof (Z.mod_mul a b ltac:(lia)) as Hr.
  unfold Z.div, Z.modulo in Hq, Hr.
  destruct (Z.div_eucl (a * b) b) as [q r]. now subst.
Qed.

Lemma div_core_1 m e :
  SpecFloat.bounded prec emax m e = true ->
  SFdiv_core_binary prec emax (Zpos m) e 4503599627370496 (-52)
  = (Zpos m, e, loc_Exact)
  \/ SFdiv_core_binary prec emax (Zpos m) e 4503599627370496 (-52)
     = (Zpos m~0, (e - 1)%Z, loc_Exact).
Proof.
  unfold SpecFloat.bounded, canonical_mantissa. intros H.
  apply andb_prop in H as [Hc _]. apply Z.eqb_eq in Hc.
  unfold SFdiv_core_binary.
  change (SpecFloat.Zdigits2 4503599627370496) with 53%Z.
  cbn [SpecFloat.Zdigits2].
  remember (Z.pos (digits2_pos m)) as d eqn:Hd.
  change IntDef.Z.add with Z.add in *. change IntDef.Z.sub with Z.sub in *.
  change IntDef.Z.min with Z.min. change IntDef.Z.div_eucl with Z.div_eucl.
  change IntDef.Z.shiftl with Z.shiftl.
  unfold fexp in *. change IntDef.Z.max with Z.max in *.
  change IntDef.Z.sub with Z.sub in *.
  change (SpecFloat.emin prec emax) with (-1074)%Z in *.
  change prec with 53%Z in *.
  destruct (Z.eq_dec e (-1074)%Z) as [He|He].
  - left.
    replace (Z.min (Z.max (d + e - (53 + -52) - 53) (-1074)) (e - -52))%Z with e by lia.
    replace (e - -52 - e)%Z with 52%Z by lia.
    rewrite Z.shiftl_mul_pow2 by lia.
    change (2 ^ 52)%Z with 4503599627370496%Z.
    rewrite div_eucl_exact by lia. reflexivity.
  - right.
    replace (Z.min (Z.max (d + e - (53 + -52) - 53) (-1074)) (e - -52))%Z
      with (e - 1)%Z by lia.
    replace (e - -52 - (e - 1))%Z with 53%Z by lia.
    rewrite Z.shiftl_mul_pow2 by lia.
    replace (Z.pos m * 2 ^ 53)%Z with (Z.pos m~0 * 4503599627370496)%Z by lia.
    rewrite div_eucl_exact by lia. reflexivity.
Qed.

Lemma div_1_r y : y / 1 = y.
Proof.
  apply Prim2SF_inj. rewrite FloatAxioms.div_spec.
  pose proof (Prim2SF_valid y) as V.
  change (Prim2SF 1) with (S754_finite false 4503599627370496 (-52)).
  destruct (Prim2SF y) as [[]|[]| |s m e]; try reflexivity.
  unfold SF64div, SFdiv. rewrite xorb_false_r.
  destruct (div_core_1 m e V) as [-> | ->].
  - now apply round_exact.
  - now apply round_doubled.
Qed.

Lemma div_by_one (y : float) : div y 1 = Ok y.
Proof. unfold div. change (feq 1 f0) with false. cbn [fdiv float_arith]. now rewrite div_1_r. Qed.

Lemma rectangular_ones (points : list (list float)) :
  rectangular (map (fun ro => ro ++ [f1]) points) = rectangular points.
Proof.
  destruct points as [|ro points]; [reflexivity|].
  unfold rectangular. cbn [map].
  change ((ro ++ [f1]) :: map (fun ro => ro ++ [f1]) points)
    with (map (fun ro : list float => ro ++ [f1]) (ro :: points)).
  generalize (ro :: points). intros rows.
  induction rows as [|ro' rows IH]; [reflexivity|].
  cbn [map forallb]. rewrite IH. f_equal.
  rewrite !length_app. cbn [length]. rewrite !Nat.add_1_r. reflexivity.
Qed.

Lemma rectangular_triples (vectors : list (list float)) :
  vectors <> [] -> Forall (fun u => length u = 3%nat) vectors ->
  rectangular vectors = true.
Proof.
  intros Hne Hlen. destruct vectors as [|u vectors]; [contradiction|].
  unfold rectangular. apply forallb_forall. intros u' Hu'.
  apply list_elem_of_In in Hu'.
  rewrite (proj1 (Forall_forall _ _) Hlen u' Hu').
  rewrite (proj1 (Forall_forall _ _) Hlen u) by left. reflexivity.
Qed.

(** X24: on binary64 the weight 1.0, the default of [homogenize] and
    the weight that [homogenize_numpy] appends, costs no rounding: dividing
    and multiplying by it return the coordinates bit for bit.  So
    [dehomogenize_numpy] undoes [homogenize_numpy] exactly on every list
    that makes a two-dimensional array (not empty, rows of one length);
    on vectors of three components [homogenize] with the default weight
    is undone exactly by [dehomogenize], and it returns what
    [homogenize_numpy] returns when there is a vector at all; on the empty
    list [homogenize] returns the empty list and [homogenize_numpy]
    raises. *)
Theorem unit_weight_is_exact :
  (forall points : list (list float),
      rectangular points = true ->
      (hs <- homogenize_numpy points ;; dehomogenize_numpy hs) = Ok points)
  /\ (forall vectors : list (list float),
        Forall (fun u => length u = 3%nat) vectors ->
        (hs <- homogenize vectors 1 ;; dehomogenize hs) = Ok vectors
        /\ (vectors <> [] -> homogenize vectors 1 = homogenize_numpy vectors))
  /\ homogenize (F := float) [] 1 = Ok []
  /\ homogenize_numpy (F := float) [] = Raise ValueError.
Proof.
  split; [|split; [|split; reflexivity]].
  - intros points Hrect.
    assert (points <> []) as Hne by (now destruct points).
    unfold homogenize_numpy. destruct points as [|ro0 points0] eqn:Ep; [contradiction|].
    rewrite <- Ep in *. rewrite Hrect. cbn [bind].
    unfold dehomogenize_numpy. rewrite rectangular_ones, Hrect.
    assert (mapM (fun ro =>
                    match last ro with
                    | None => Raise IndexError
                    | Some w => Ok (map (fun e => fdiv e w) (removelast ro))
                    end) (map (fun ro => ro ++ [f1 (F := float)]) points) = Ok points) as Hrows.
    { clear. induction points as [|ro points IH]; [reflexivity|].
      cbn [map mapM].
      destruct (Homogeneous.last_snoc_removelast ro (f1 (F := float))) as [-> ->].
      cbn [bind]. rewrite IH. cbn [bind]. do 2 f_equal.
      rewrite <- (map_id ro) at 2. apply map_ext. intros e.
      rewrite f1_float. cbn [fdiv float_arith]. apply div_1_r. }
    rewrite Ep in *. exact Hrows.
  - intros vectors Hlen.
    assert (homogenize vectors 1 = Ok (map (fun ro => ro ++ [f1]) vectors)) as Hh.
    { unfold homogenize.
      induction Hlen as [|u vectors Hu _ IH]; [reflexivity|].
      destruct u as [|x [|y [|z [|? ?]]]]; try discriminate.
      cbn [mapM map]. rewrite !div_by_one. cbn [bind]. rewrite IH. reflexivity. }
    split.
    + rewrite Hh. cbn [bind]. clear Hh. unfold dehomogenize.
      induction Hlen as [|u vectors Hu _ IH]; [reflexivity|].
      destruct u as [|x [|y [|z [|? ?]]]]; try discriminate.
      cbn [mapM map app]. cbn [bind]. rewrite IH. cbn [bind].
      rewrite f1_float. cbn [fmul float_arith]. now rewrite !mul_1_r.
    + intros Hne. rewrite Hh. unfold homogenize_numpy.
      rewrite (rectangular_triples vectors Hne Hlen).
      destruct vectors; [contradiction|reflexivity].
Qed.
End UnitWeight.

(** ** helpers: affine matrices, and matrices of one entry *)

Module Affine.
Import Helpers.

Section Exact.
Local Existing Instance R_arith.
Local Open Scope R_scope.

(** X25: in exact arithmetic, [determinant] of a 4-by-4 affine matrix,
    with last row [[0, 0, 0, 1]], is the determinant of its 3-by-3 linear
    part: the translation column does not enter. *)
Theorem determinant_of_affine (a b c d e f g h i tx ty tz : R) :
  determinant [[a; b; c; tx]; [d; e; f; ty]; [g; h; i; tz]; [0; 0; 0; 1]] true
  = Ok (a * (e * i - f * h) - b * (d * i - f * g) + c * (d * h - e * g))
  /\ determinant [[a; b; c; tx]; [d; e; f; ty]; [g; h; i; tz]; [0; 0; 0; 1]] true
     = determinant [[a; b; c]; [d; e; f]; [g; h; i]] true.
Proof.
  split; cbv -[Rplus Rmult Rminus IZR]; f_equal; ring.
Qed.

Lemma one_entry_R (y : R) : determinant [[y]] true = Ok 0.
Proof. cbv -[Rplus Rmult Rminus IZR]. f_equal. ring. Qed.
End Exact.

Lemma inverse_one_entry {F : Type} {Ar : Arith F}
    (transpose_matrix : list (list F) -> list (list F)) (y dt : F) :
  determinant [[y]] true = Ok dt -> feq dt f0 = true ->
  transpose_matrix [[fmul (ofZ 1) f0]] = [[fmul (ofZ 1) f0]] ->
  inverse transpose_matrix [[y]] = Raise ZeroDivisionError.
Proof.
  intros Hdet Hz Htm. unfold inverse. rewrite Hdet. cbn [bind length Nat.eqb].
  cbn [seq mapM]. change (matrix_minor [[y]] 0 0) with (@nil (list F)).
  change (determinant [] true) with (Ok (f0 (F := F))). cbn [bind Nat.add Z.of_nat Z.pow].
  change ((-1) ^ Z.of_nat 0)%Z with 1%Z. rewrite Htm.
  cbn [length seq mapM lookup list_lookup bind]. unfold div. now rewrite Hz.
Qed.

(** X26: [inverse] of a matrix of one row and one column never returns:
    the determinant it divides by is 0 whatever the entry is, so the
    division of the one cofactor raises [ZeroDivisionError], in exact
    arithmetic and, for a finite entry, on binary64.  [transpose_matrix]
    is any function that returns a matrix of one entry as it is. *)
Theorem inverse_of_one_entry :
  (forall (transpose_matrix : list (list R) -> list (list R)) (y : R),
      (forall z, transpose_matrix [[z]] = [[z]]) ->
      inverse (Ar := R_arith) transpose_matrix [[y]] = Raise ZeroDivisionError)
  /\ (forall (transpose_matrix : list (list float) -> list (list float)) (y : float),
        (forall z, transpose_matrix [[z]] = [[z]]) ->
        finite y = true ->
        inverse transpose_matrix [[y]] = Raise ZeroDivisionError).
Proof.
  split.
  - intros tm y Htm. apply (inverse_one_entry (Ar := R_arith) tm y 0%R).
    + apply one_entry_R.
    + cbn [feq R_arith]. unfold Reqb, f0. cbn [ofZ R_arith].
      destruct (Req_dec_T 0 0); [reflexivity|contradiction].
    + apply Htm.
  - intros tm y Htm Hy. apply (inverse_one_entry tm y 0%float).
    + change (determinant [[y]] true) with (Ok (0 + 1 * y * 0)%float).
      now rewrite DetFloat.one_entry_float.
    + reflexivity.
    + apply Htm.
Qed.
End Affine.
